(** * sql-to-json-converter: a shallow embedding of the SQL parsing core

    The repository ships the converter twice: [bin/cli.js] (plain
    JavaScript) and the TypeScript class [SQLToJSONConverter] that
    [src/index.ts] re-exports.  Both are embedded here; text that is
    identical in the two files is translated once.

    Conventions.
    - A JavaScript string is a sequence of code units; it is modelled as a
      [list ascii], i.e. code units below 256.  [isWhiteSpace] is the
      ECMAScript WhiteSpace/LineTerminator set restricted to that range,
      [toUpperCase] maps a-z to A-Z (the only case mapping that can make a
      string equal to, start with or contain one of the ASCII keywords the
      program compares against).
    - A JavaScript number is an IEEE 754 binary64 value, the [spec_float]
      of the Standard Library at precision 53 and maximal exponent 1024.
      [parseInt] and [parseFloat] return the value nearest to the decimal
      they read, ties to even, as Node computes it: infinite beyond the
      range, and with the sign of the text also for zero.
    - Regular expressions are interpreted by a backtracking matcher written
      in the continuation style of the ECMAScript specification. *)

From Stdlib Require Import Ascii String List ZArith Lia Bool SpecFloat.
From stdpp Require Import base gmap strings list.
Import ListNotations.

Local Open Scope nat_scope.
Local Open Scope list_scope.

(** ** JavaScript strings *)

Abbreviation str := (list ascii).

Definition js (s : string) : str := list_ascii_of_string s.

Definition code (c : ascii) : nat := nat_of_ascii c.

Definition ch_eqb (a b : ascii) : bool := Ascii.eqb a b.

Definition str_eqb (a b : str) : bool := bool_decide (a = b).

(** WhiteSpace and LineTerminator code units: TAB, LF, VT, FF, CR, SP, NBSP. *)
Definition isWhiteSpace (c : ascii) : bool :=
  let n := code c in
  ((9 <=? n) && (n <=? 13)) || (n =? 32) || (n =? 160).

Definition isLineTerminator (c : ascii) : bool :=
  let n := code c in (n =? 10) || (n =? 13).

Definition isDigit (c : ascii) : bool :=
  let n := code c in (48 <=? n) && (n <=? 57).

Definition upper (c : ascii) : ascii :=
  let n := code c in
  if (97 <=? n) && (n <=? 122) then ascii_of_nat (n - 32) else c.

Arguments upper : simpl never.

Definition toUpperCase (s : str) : str := map upper s.

Fixpoint trimStart (s : str) : str :=
  match s with
  | c :: t => if isWhiteSpace c then trimStart t else s
  | [] => []
  end.

Definition trimEnd (s : str) : str := rev (trimStart (rev s)).

Definition trim (s : str) : str := trimEnd (trimStart s).

Fixpoint startsWith (p s : str) : bool :=
  match p, s with
  | [], _ => true
  | a :: p', b :: s' => ch_eqb a b && startsWith p' s'
  | _ :: _, [] => false
  end.

Definition endsWith (p s : str) : bool := startsWith (rev p) (rev s).

Fixpoint includes (p s : str) : bool :=
  startsWith p s ||
  match s with
  | [] => false
  | _ :: t => includes p t
  end.

(** [indexOf]/[lastIndexOf] of a single character; JavaScript's -1 is [None]. *)
Fixpoint indexOf (c : ascii) (s : str) : option nat :=
  match s with
  | [] => None
  | a :: t => if ch_eqb a c then Some 0 else option_map S (indexOf c t)
  end.

Fixpoint lastIndexOf (c : ascii) (s : str) : option nat :=
  match s with
  | [] => None
  | a :: t =>
      match lastIndexOf c t with
      | Some i => Some (S i)
      | None => if ch_eqb a c then Some 0 else None
      end
  end.

(** [s.substring(a, b)] for non-negative arguments: the two indices are
    clamped to the length and swapped when [a > b]. *)
Definition substring (a b : nat) (s : str) : str :=
  let lo := Nat.min a b in
  let hi := Nat.max a b in
  firstn (hi - lo) (skipn lo s).

(** [s.slice(a, b)]: a negative index counts from the end; an empty range
    gives the empty string (no swap). *)
Definition slice (a b : Z) (s : str) : str :=
  let len := Z.of_nat (length s) in
  let from := if (a <? 0)%Z then Z.max (len + a) 0 else Z.min a len in
  let to := if (b <? 0)%Z then Z.max (len + b) 0 else Z.min b len in
  firstn (Z.to_nat (Z.max (to - from) 0)) (skipn (Z.to_nat from) s).

(** [s.split(c)] for a one-character string separator. *)
Fixpoint splitChar_go (c : ascii) (cur : str) (s : str) : list str :=
  match s with
  | [] => [cur]
  | a :: t => if ch_eqb a c then cur :: splitChar_go c [] t
              else splitChar_go c (cur ++ [a]) t
  end.

Definition splitChar (c : ascii) (s : str) : list str := splitChar_go c [] s.

(** ** Regular expressions *)

Inductive regex : Type :=
| Eps
| Lit (c : ascii)
| Cls (p : ascii -> bool)
| Bol
| Eol
| Cat (r1 r2 : regex)
| Opt (r : regex)
| Star (r : regex)
| Plus (r : regex)
| PlusLazy (r : regex)
| Grp (n : nat) (r : regex).

Fixpoint lits (s : str) : regex :=
  match s with
  | [] => Eps
  | c :: t => Cat (Lit c) (lits t)
  end.

Fixpoint seq (rs : list regex) : regex :=
  match rs with
  | [] => Eps
  | r :: t => Cat r (seq t)
  end.

(** Character classes used by the program's patterns. *)
Definition cls_s : ascii -> bool := isWhiteSpace.
Definition cls_d : ascii -> bool := isDigit.
Definition cls_dot : ascii -> bool := fun c => negb (isLineTerminator c).
Definition cls_dotall : ascii -> bool := fun _ => true.
Definition noneOf (cs : list ascii) (ws : bool) : ascii -> bool :=
  fun c => negb (existsb (ch_eqb c) cs || (ws && isWhiteSpace c)).

Record mstate := MState {
  pos : nat;
  rest : str;
  caps : list (nat * str)
}.

Definition cont := mstate -> option mstate.

Definition step1 (x : mstate) (t : str) : mstate :=
  MState (S (pos x)) t (caps x).

Definition canon (ci : bool) (c : ascii) : ascii := if ci then upper c else c.

(** Greedy and lazy repetition of a matcher [m].  An iteration that
    consumes nothing is rejected, so [S (length (rest x))] units of fuel
    are never exhausted. *)
Fixpoint repGreedy (m : mstate -> cont -> option mstate) (fuel : nat)
    (x : mstate) (k : cont) : option mstate :=
  match fuel with
  | 0 => k x
  | S f =>
      match m x (fun y => if pos y =? pos x then None else repGreedy m f y k) with
      | Some z => Some z
      | None => k x
      end
  end.

Fixpoint repLazy (m : mstate -> cont -> option mstate) (fuel : nat)
    (x : mstate) (k : cont) : option mstate :=
  match fuel with
  | 0 => k x
  | S f =>
      match k x with
      | Some z => Some z
      | None => m x (fun y => if pos y =? pos x then None else repLazy m f y k)
      end
  end.

Fixpoint rmatch (ci : bool) (r : regex) (x : mstate) (k : cont) : option mstate :=
  match r with
  | Eps => k x
  | Lit c =>
      match rest x with
      | a :: t => if ch_eqb (canon ci a) (canon ci c) then k (step1 x t) else None
      | [] => None
      end
  | Cls p =>
      match rest x with
      | a :: t => if p a then k (step1 x t) else None
      | [] => None
      end
  | Bol => if pos x =? 0 then k x else None
  | Eol => match rest x with [] => k x | _ :: _ => None end
  | Cat r1 r2 => rmatch ci r1 x (fun y => rmatch ci r2 y k)
  | Opt r =>
      match rmatch ci r x (fun y => if pos y =? pos x then None else k y) with
      | Some z => Some z
      | None => k x
      end
  | Star r => repGreedy (rmatch ci r) (S (length (rest x))) x k
  | Plus r =>
      rmatch ci r x (fun y => repGreedy (rmatch ci r) (S (length (rest y))) y k)
  | PlusLazy r =>
      rmatch ci r x (fun y => repLazy (rmatch ci r) (S (length (rest y))) y k)
  | Grp n r =>
      rmatch ci r x (fun y =>
        k (MState (pos y) (rest y)
             ((n, firstn (pos y - pos x) (rest x)) :: caps y)))
  end.

(** One match attempt anchored at the current position (a sticky match). *)
Definition matchAt (ci : bool) (r : regex) (p : nat) (s : str) : option mstate :=
  rmatch ci r (MState p s []) Some.

(** RegExpBuiltinExec without the sticky flag: the leftmost position at
    which an attempt succeeds.  [s] is the input from index [p] on. *)
Fixpoint search (ci : bool) (r : regex) (p : nat) (s : str) : option (nat * mstate) :=
  match matchAt ci r p s with
  | Some y => Some (p, y)
  | None =>
      match s with
      | [] => None
      | _ :: t => search ci r (S p) t
      end
  end.

Definition exec (ci : bool) (r : regex) (s : str) : option (nat * mstate) :=
  search ci r 0 s.

Definition test (ci : bool) (r : regex) (s : str) : bool :=
  match exec ci r s with Some _ => true | None => false end.

Fixpoint capture (n : nat) (cs : list (nat * str)) : option str :=
  match cs with
  | [] => None
  | (m, v) :: t => if n =? m then Some v else capture n t
  end.

(** [s.match(r)[n]] for a pattern without the g flag. *)
Definition matchGroup (ci : bool) (r : regex) (n : nat) (s : str) : option str :=
  match exec ci r s with
  | Some (_, y) => capture n (caps y)
  | None => None
  end.

(** [s.replace(r, rep)] for a pattern without the g flag and a replacement
    text without dollar patterns. *)
Definition replaceFirst (ci : bool) (r : regex) (rep : str) (s : str) : str :=
  match exec ci r s with
  | Some (p, y) => firstn p s ++ rep ++ rest y
  | None => s
  end.

(** [s.replace(r, rep)] for a pattern with the g flag: matches are taken
    left to right, each search starting where the previous match ended (one
    further when the match is empty). *)
Fixpoint replaceAll_go (fuel : nat) (ci : bool) (r : regex) (rep : str)
    (p : nat) (s : str) : str :=
  match fuel with
  | 0 => s
  | S f =>
      match search ci r p s with
      | None => s
      | Some (q, y) =>
          let before := firstn (q - p) s in
          if pos y =? q then
            match rest y with
            | [] => before ++ rep
            | c :: t => before ++ rep ++ c :: replaceAll_go f ci r rep (S (pos y)) t
            end
          else before ++ rep ++ replaceAll_go f ci r rep (pos y) (rest y)
      end
  end.

Definition replaceAll (ci : bool) (r : regex) (rep : str) (s : str) : str :=
  replaceAll_go (S (length s)) ci r rep 0 s.

(** [s.split(r)] (RegExp.prototype[Symbol.split] without a limit, for a
    pattern without capture groups): [acc] holds the code units since the
    end of the previous separator, [s] is the input from index [q] on.  A
    match that ends where the previous separator ended is skipped; every
    second step at least consumes a code unit, which bounds the fuel. *)
Fixpoint splitRegex_go (fuel : nat) (ci : bool) (r : regex)
    (acc : str) (q : nat) (s : str) : list str :=
  match fuel with
  | 0 => [acc ++ s]
  | S f =>
      match s with
      | [] => [acc]
      | c :: t =>
          match matchAt ci r q s with
          | Some y =>
              if (pos y =? q) && (length acc =? 0)
              then splitRegex_go f ci r (acc ++ [c]) (S q) t
              else acc :: splitRegex_go f ci r [] (pos y) (rest y)
          | None => splitRegex_go f ci r (acc ++ [c]) (S q) t
          end
      end
  end.

Definition splitRegex (ci : bool) (r : regex) (s : str) : list str :=
  match s with
  | [] => match matchAt ci r 0 [] with Some _ => [] | None => [[]] end
  | _ :: _ => splitRegex_go (S (2 * length s)) ci r [] 0 s
  end.

(** ** JavaScript values *)

(** A Number is a binary64 value: a signed zero, a signed infinity, NaN,
    or [(-1)^s * m * 2^e] with a mantissa [m] of 53 bits (of fewer bits at
    the least exponent).  The Numbers the program makes come from
    [nearest] below and are in this normal form, so that two of them are
    the same Number exactly when they are equal here, the two zeros
    apart. *)
Definition number : Type := spec_float.

Definition NaN : number := S754_nan.

(** The Number nearest to [(-1)^neg * m / 10^scale] for [m >= 0], ties to
    even: the quotient of the two integers, rounded once.  It is infinite
    beyond the range, and a signed zero when [m] is 0 or the quotient is
    too small. *)
Definition nearest (neg : bool) (m : Z) (scale : nat) : number :=
  match m with
  | Zpos p =>
      SFdiv 53 1024 (S754_finite neg p 0)
            (S754_finite false (Z.to_pos (10 ^ Z.of_nat scale)) 0)
  | _ => S754_zero neg
  end.

(** The Number that the decimal [mant * 10^-scale] denotes. *)
Definition Dec (mant : Z) (scale : nat) : number :=
  nearest (mant <? 0)%Z (Z.abs mant) scale.

(** The integer that a Number is, if it is one. *)
Definition integerOf (n : number) : option Z :=
  match n with
  | S754_zero _ => Some 0%Z
  | S754_finite s m e =>
      let v := if s then Zneg m else Zpos m in
      if (0 <=? e)%Z then Some (v * 2 ^ e)%Z
      else if (Zpos m mod 2 ^ (- e) =? 0)%Z then Some (v / 2 ^ (- e))%Z
      else None
  | _ => None
  end.

(** [Number.isSafeInteger]: at most 2^53 - 1 in absolute value. *)
Definition safeInteger (z : Z) : Prop :=
  (Z.abs z <=? 2 ^ 53 - 1)%Z = true.

(** The truth value of a Number: false for the zeros and NaN. *)
Definition truthyNumber (n : number) : bool :=
  match n with
  | S754_zero _ | S754_nan => false
  | _ => true
  end.

Inductive jsval : Type :=
| JNull
| JStr (s : str)
| JNum (n : number).

Definition digitVal (c : ascii) : Z := Z.of_nat (code c - 48).

Fixpoint takeDigits (s : str) : str :=
  match s with
  | c :: t => if isDigit c then c :: takeDigits t else []
  | [] => []
  end.

Definition digitsValue (ds : str) : Z :=
  fold_left (fun acc c => (acc * 10 + digitVal c)%Z) ds 0%Z.

Definition signOf (s : str) : Z * str :=
  match s with
  | c :: t =>
      if ch_eqb c "-" then ((-1)%Z, t)
      else if ch_eqb c "+" then (1%Z, t)
      else (1%Z, s)
  | [] => (1%Z, s)
  end.

(** [parseInt(s, 10)]; [parseInt(s)] coincides with it on every text that
    does not start with 0x or 0X after the sign. *)
Definition parseInt (s : str) : number :=
  let '(sg, body) := signOf (trimStart s) in
  match takeDigits body with
  | [] => NaN
  | ds => nearest (sg <? 0)%Z (digitsValue ds) 0
  end.

(** [parseFloat(s)] on a text made of a sign, digits, and a fraction; the
    exponent and Infinity forms, which the calling pattern excludes, are
    not recognised. *)
Definition parseFloat (s : str) : number :=
  let '(sg, body) := signOf (trimStart s) in
  let ip := takeDigits body in
  let after := skipn (length ip) body in
  let fp := match after with
            | c :: t => if ch_eqb c "." then takeDigits t else []
            | [] => []
            end in
  match ip ++ fp with
  | [] => NaN
  | ds => nearest (sg <? 0)%Z (digitsValue ds) (length fp)
  end.

(** ** Data model ([src/types.ts]) *)

Record ColumnDefinition := mkColumn {
  name : str;
  type : str
}.

(** A row object created by [{}]: its own properties, and whether its
    prototype has been replaced by [null]. *)
Record Row := mkRow {
  props : gmap str jsval;
  nullProto : bool
}.

Record TableInfo := mkTable {
  tableName : str;
  columns : list ColumnDefinition;
  data : list Row
}.

Record InsertInfo := mkInsert {
  insTableName : str;
  records : list (list jsval)
}.

(** ** Code shared verbatim by [bin/cli.js] and the TypeScript class *)

(** [/^SERVMASK_PREFIX_/] *)
Definition servmaskRe : regex := Cat Bol (lits (js "SERVMASK_PREFIX_")).

(** [/CREATE TABLE\s+`?([^`\s(]+)`?\s*\(/i] *)
Definition createTableRe : regex :=
  seq [lits (js "CREATE TABLE"); Plus (Cls cls_s); Opt (Lit "`");
       Grp 1 (Plus (Cls (noneOf ["`"; "("]%char true)));
       Opt (Lit "`"); Star (Cls cls_s); Lit "("].

(** [/INSERT INTO\s+`?([^`\s(]+)`?\s*(?:\([^)]+\))?\s*VALUES/i] *)
Definition insertIntoRe : regex :=
  seq [lits (js "INSERT INTO"); Plus (Cls cls_s); Opt (Lit "`");
       Grp 1 (Plus (Cls (noneOf ["`"; "("]%char true)));
       Opt (Lit "`"); Star (Cls cls_s);
       Opt (seq [Lit "("; Plus (Cls (noneOf [")"]%char false)); Lit ")"]);
       Star (Cls cls_s); lits (js "VALUES")].

(** [/VALUES\s*(G)/is] where the group G is [.*] *)
Definition valuesRe : regex :=
  seq [lits (js "VALUES"); Star (Cls cls_s); Grp 1 (Star (Cls cls_dotall))].

(** [/\),\s*\(/] *)
Definition groupSepRe : regex :=
  seq [Lit ")"; Lit ","; Star (Cls cls_s); Lit "("].

(** [/^\(/] *)
Definition leadParenRe : regex := Cat Bol (Lit "(").

(** [/\);?\s*$/] *)
Definition trailParenRe : regex :=
  seq [Lit ")"; Opt (Lit ";"); Star (Cls cls_s); Eol].

(** The global patterns for an escaped single quote and an escaped
    double quote: a backslash followed by the quote character. *)
Definition escSquoteRe : regex := Cat (Lit "\") (Lit "'").
Definition escDquoteRe : regex := Cat (Lit "\") (Lit "034").

(** [/^-?\d+$/] *)
Definition intRe : regex :=
  seq [Bol; Opt (Lit "-"); Plus (Cls cls_d); Eol].

(** [/^-?\d+\.\d+$/] *)
Definition floatRe : regex :=
  seq [Bol; Opt (Lit "-"); Plus (Cls cls_d); Lit "."; Plus (Cls cls_d); Eol].

Definition squote : ascii := "'".
Definition dquote : ascii := "034".
Definition backslash : ascii := "\".

(** [cleanValue(value)] *)
Definition cleanValue (value : str) : jsval :=
  let value := trim value in
  if str_eqb (toUpperCase value) (js "NULL") then JNull
  else if (startsWith [squote] value && endsWith [squote] value)
          || (startsWith [dquote] value && endsWith [dquote] value)
  then JStr (replaceAll false escDquoteRe [dquote]
               (replaceAll false escSquoteRe [squote] (slice 1 (-1) value)))
  else if test false intRe value then JNum (parseInt value)
  else if test false floatRe value then JNum (parseFloat value)
  else JStr value.

(** The scanning loop of [parseValues].  [prev] is [valueString[i - 1]]
    ([None] at index 0); [emit] is what is pushed for a finished buffer:
    the program pushes [cleanValue(current.trim())]. *)
Section Scan.
Context {A : Type} (emit : str -> A).

Record scanState := ScanState {
  values : list A;
  current : str;
  inString : bool;
  stringChar : option ascii;
  depth : Z
}.

Definition scanInit : scanState := ScanState [] [] false None 0.

Definition scanStep (st : scanState) (prev : option ascii) (c : ascii) : scanState :=
  if negb (inString st) then
    if ch_eqb c squote || ch_eqb c dquote then
      ScanState (values st) (current st ++ [c]) true (Some c) (depth st)
    else if ch_eqb c "(" || ch_eqb c "{" then
      ScanState (values st) (current st ++ [c]) false (stringChar st) (depth st + 1)
    else if ch_eqb c ")" || ch_eqb c "}" then
      ScanState (values st) (current st ++ [c]) false (stringChar st) (depth st - 1)
    else if ch_eqb c "," && (depth st =? 0)%Z then
      ScanState (values st ++ [emit (trim (current st))]) [] false
                (stringChar st) (depth st)
    else
      ScanState (values st) (current st ++ [c]) false (stringChar st) (depth st)
  else
    let closes :=
      bool_decide (Some c = stringChar st)
      && negb (bool_decide (prev = Some backslash)) in
    ScanState (values st) (current st ++ [c]) (negb closes)
              (stringChar st) (depth st).

Fixpoint scanLoop (st : scanState) (prev : option ascii) (s : str) : scanState :=
  match s with
  | [] => st
  | c :: t => scanLoop (scanStep st prev c) (Some c) t
  end.

Definition scanValues (valueString : str) : list A :=
  let st := scanLoop scanInit None valueString in
  match trim (current st) with
  | [] => values st
  | _ :: _ => values st ++ [emit (trim (current st))]
  end.
End Scan.

Arguments scanState : clear implicits.

(** [parseValues(valueString)] *)
Definition parseValues (valueString : str) : list jsval :=
  scanValues cleanValue valueString.

(** The raw tokens: the same scan with the buffers pushed as they are. *)
Definition tokenize (valueString : str) : list str :=
  scanValues (fun t => t) valueString.

(** [parseInsertInto(sql)].  Nothing in the [try] block throws: a matched
    group 1 always participates, and [parseValues] returns an array, which
    is truthy even when empty, so every group is pushed. *)
Definition cleanGroup (valueGroup : str) : str :=
  replaceFirst false trailParenRe [] (replaceFirst false leadParenRe [] valueGroup).

Definition parseInsertInto (sql : str) : option InsertInfo :=
  match matchGroup true insertIntoRe 1 sql with
  | None => None
  | Some m1 =>
      let tableName := replaceFirst false servmaskRe [] m1 in
      match matchGroup true valuesRe 1 sql with
      | None => None
      | Some valuesString =>
          let valueGroups := splitRegex false groupSepRe valuesString in
          Some (mkInsert tableName
                  (map (fun g => parseValues (cleanGroup g)) valueGroups))
      end
  end.

(** The test that skips a column-body segment (the same in both files):
    empty, a comment, a key definition, or the ENGINE clause. *)
Definition skipDefinition (trimmed : str) : bool :=
  (length trimmed =? 0)
  || startsWith (js "--") trimmed
  || startsWith (js "PRIMARY KEY") (toUpperCase trimmed)
  || startsWith (js "KEY ") (toUpperCase trimmed)
  || startsWith (js "UNIQUE KEY") (toUpperCase trimmed)
  || startsWith (js "FOREIGN KEY") (toUpperCase trimmed)
  || includes (js "ENGINE=") (toUpperCase trimmed).

(** The head of [parseCreateTable], identical in both files: the table
    name and the text between the first opening and the last closing
    parenthesis. *)
Definition tableHead (sql : str) : option (str * str) :=
  match matchGroup true createTableRe 1 sql with
  | None => None
  | Some m1 =>
      let tableName := replaceFirst false servmaskRe [] m1 in
      match indexOf "(" sql, lastIndexOf ")" sql with
      | Some startParen, Some endParen =>
          Some (tableName, substring (startParen + 1) endParen sql)
      | _, _ => None
      end
  end.

(** Running a per-segment step over the segments; [None] from the step
    stands for an exception, which the [catch] turns into [null]. *)
Fixpoint collectColumns (f : str -> option (option ColumnDefinition))
    (defs : list str) : option (list ColumnDefinition) :=
  match defs with
  | [] => Some []
  | d :: t =>
      match f d with
      | None => None
      | Some oc =>
          match collectColumns f t with
          | None => None
          | Some cs => Some (match oc with Some c => c :: cs | None => cs end)
          end
      end
  end.

(** *** The TypeScript class *)
Module Ts.

(** [/^`?([^`\s]+)`?\s+(.+)$/] *)
Definition columnRe : regex :=
  seq [Bol; Opt (Lit "`"); Grp 1 (Plus (Cls (noneOf ["`"]%char true)));
       Opt (Lit "`"); Plus (Cls cls_s); Grp 2 (Plus (Cls cls_dot)); Eol].

Record splitState := SplitState {
  columnDefs : list str;
  current : str;
  parenDepth : Z
}.

Definition splitStep (st : splitState) (char : ascii) : splitState :=
  if ch_eqb char "(" then
    SplitState (columnDefs st) (current st ++ [char]) (parenDepth st + 1)
  else if ch_eqb char ")" then
    SplitState (columnDefs st) (current st ++ [char]) (parenDepth st - 1)
  else if ch_eqb char "," && (parenDepth st =? 0)%Z then
    SplitState (columnDefs st ++ [trim (current st)]) [] (parenDepth st)
  else
    SplitState (columnDefs st) (current st ++ [char]) (parenDepth st).

Definition splitColumns (columnsPart : str) : list str :=
  let st := fold_left splitStep columnsPart (SplitState [] [] 0) in
  match trim (current st) with
  | [] => columnDefs st
  | _ :: _ => columnDefs st ++ [trim (current st)]
  end.

Definition columnOf (colDef : str) : option (option ColumnDefinition) :=
  let trimmed := trim colDef in
  if skipDefinition trimmed then Some None
  else
    match exec false columnRe trimmed with
    | None => Some None
    | Some (_, y) =>
        match capture 1 (caps y), capture 2 (caps y) with
        | Some columnName, Some g2 => Some (Some (mkColumn columnName (trim g2)))
        | _, _ => None
        end
    end.

Definition parseCreateTable (sql : str) : option TableInfo :=
  match tableHead sql with
  | None => None
  | Some (tableName, columnsPart) =>
      match collectColumns columnOf (splitColumns columnsPart) with
      | Some columns => Some (mkTable tableName columns [])
      | None => None
      end
  end.

End Ts.

(** *** [bin/cli.js] *)
Module Js.

(** [/^`([^`]+)`\s+(.+?)T?$/] where T is the non-capturing group [,\s*] *)
Definition columnRe : regex :=
  seq [Bol; Lit "`"; Grp 1 (Plus (Cls (noneOf ["`"]%char false)));
       Lit "`"; Plus (Cls cls_s); Grp 2 (PlusLazy (Cls cls_dot));
       Opt (seq [Lit ","; Star (Cls cls_s)]); Eol].

(** [/,$/] *)
Definition trailingCommaRe : regex := Cat (Lit ",") Eol.

Definition columnOf (line : str) : option (option ColumnDefinition) :=
  let trimmed := trim line in
  if skipDefinition trimmed then Some None
  else
    match exec false columnRe trimmed with
    | None => Some None
    | Some (_, y) =>
        match capture 1 (caps y), capture 2 (caps y) with
        | Some columnName, Some g2 =>
            Some (Some (mkColumn columnName
                          (replaceFirst false trailingCommaRe [] (trim g2))))
        | _, _ => None
        end
    end.

Definition parseCreateTable (sql : str) : option TableInfo :=
  match tableHead sql with
  | None => None
  | Some (tableName, columnsPart) =>
      let lines := splitChar "010" columnsPart in
      match collectColumns columnOf lines with
      | Some columns => Some (mkTable tableName columns [])
      | None => None
      end
  end.

End Js.

(** ** The converter object and [processStatement] *)

(** [this.tables] is created by [{}] and used as a dictionary.  Reading
    [this.tables[k]] consults the own properties first and then the
    prototype chain; writing the key [__proto__] replaces the prototype
    instead of adding a property.  [tables] holds the own properties and
    [tablesProto] the TableInfo installed as prototype, if any ([None]: the
    prototype is still [Object.prototype]).  The options that only drive
    logging and output are left out. *)
Record Converter := mkConverter {
  limit : option Z;
  processedStatements : Z;
  tables : gmap str TableInfo;
  tablesProto : option TableInfo;
  currentTable : option str;
  insideTransaction : bool
}.

(** [new SQLToJSONConverter({limit})]: [options.limit || null]. *)
Definition newConverter (optLimit : option Z) : Converter :=
  mkConverter
    (match optLimit with
     | Some n => if (n =? 0)%Z then None else Some n
     | None => None
     end)
    0 ∅ None None false.

Definition protoKey : str := js "__proto__".

(** The data properties of [Object.prototype] (all of them functions). *)
Definition objectPrototypeKeys : list str :=
  map js ["constructor"; "__defineGetter__"; "__defineSetter__";
          "hasOwnProperty"; "__lookupGetter__"; "__lookupSetter__";
          "isPrototypeOf"; "propertyIsEnumerable"; "toString"; "valueOf";
          "toLocaleString"]%string.

(** What [this.tables[k]] evaluates to. *)
Inductive property : Type :=
| PUndefined
| POwn (t : TableInfo)
| PProto (t : TableInfo)
| PForeign (truthy : bool).

Definition inObjectPrototype (k : str) : property :=
  if existsb (str_eqb k) objectPrototypeKeys then PForeign true else PUndefined.

Definition getTable (st : Converter) (k : str) : property :=
  match tables st !! k with
  | Some t => POwn t
  | None =>
      match tablesProto st with
      | None =>
          if str_eqb k protoKey then PForeign true else inObjectPrototype k
      | Some p =>
          if str_eqb k protoKey then PProto p
          else if str_eqb k (js "tableName")
          then PForeign (negb (length (tableName p) =? 0))
          else if str_eqb k (js "columns") || str_eqb k (js "data")
          then PForeign true
          else inObjectPrototype k
      end
  end.

(** [this.tables[k] = t] followed by [this.currentTable = k]. *)
Definition setTable (st : Converter) (k : str) (t : TableInfo) : Converter :=
  if str_eqb k protoKey && negb (bool_decide (is_Some (tables st !! k)))
  then mkConverter (limit st) (processedStatements st) (tables st) (Some t)
                   (Some k) (insideTransaction st)
  else mkConverter (limit st) (processedStatements st) (<[k := t]> (tables st))
                   (tablesProto st) (Some k) (insideTransaction st).

(** [obj[k] = v] on a row object: the key [__proto__] reaches the setter of
    [Object.prototype], which installs [null] as prototype and ignores any
    other primitive, unless the prototype is already [null]. *)
Definition setProp (obj : Row) (k : str) (v : jsval) : Row :=
  if str_eqb k protoKey && negb (nullProto obj)
     && negb (bool_decide (is_Some (props obj !! k)))
  then match v with
       | JNull => mkRow (props obj) true
       | _ => obj
       end
  else mkRow (<[k := v]> (props obj)) (nullProto obj).

Definition emptyRow : Row := mkRow ∅ false.

(** [table.columns.forEach((col, index) => { if (index < record.length)
    obj[col.name] = record[index]; })] *)
Fixpoint assignColumns (cols : list ColumnDefinition) (index : nat)
    (record : list jsval) (obj : Row) : Row :=
  match cols with
  | [] => obj
  | col :: t =>
      assignColumns t (S index) record
        (match record !! index with
         | Some v => setProp obj (name col) v
         | None => obj
         end)
  end.

Definition rowOf (cols : list ColumnDefinition) (record : list jsval) : Row :=
  assignColumns cols 0 record emptyRow.

Definition pushRows (table : TableInfo) (recs : list (list jsval)) : TableInfo :=
  mkTable (tableName table) (columns table)
          (data table ++ map (rowOf (columns table)) recs).

(** A call either returns a value or throws; the state reached is kept in
    both cases. *)
Inductive outcome (R : Type) : Type :=
| Returned (r : R) (st : Converter)
| Thrown (st : Converter).
Arguments Returned {R} r st.
Arguments Thrown {R} st.

Definition stateOf {R} (o : outcome R) : Converter :=
  match o with Returned _ st => st | Thrown st => st end.

Definition withCounter (st : Converter) (n : Z) : Converter :=
  mkConverter (limit st) n (tables st) (tablesProto st) (currentTable st)
              (insideTransaction st).

Definition withTransaction (st : Converter) (b : bool) : Converter :=
  mkConverter (limit st) (processedStatements st) (tables st) (tablesProto st)
              (currentTable st) b.

Definition limitReached (st : Converter) : bool :=
  match limit st with
  | Some l => negb (l =? 0)%Z && (l <? processedStatements st)%Z
  | None => false
  end.

Section Dispatch.
Variable parseCreateTable : str -> option TableInfo.

(** The INSERT branch.  Reading [table.columns] of a value that is not a
    TableInfo gives [undefined], and calling [forEach] on it throws. *)
Definition insertRows (st : Converter) (insertInfo : InsertInfo) : outcome bool :=
  match getTable st (insTableName insertInfo) with
  | PUndefined | PForeign false => Returned true st
  | POwn table =>
      Returned true
        (mkConverter (limit st) (processedStatements st)
           (<[insTableName insertInfo := pushRows table (records insertInfo)]>
              (tables st))
           (tablesProto st) (currentTable st) (insideTransaction st))
  | PProto table =>
      Returned true
        (mkConverter (limit st) (processedStatements st) (tables st)
           (Some (pushRows table (records insertInfo)))
           (currentTable st) (insideTransaction st))
  | PForeign true =>
      match records insertInfo with
      | [] => Returned true st
      | _ :: _ => Thrown st
      end
  end.

(** [processStatement] from [this.processedStatements++] on, for the
    trimmed, non-empty statement [sql]; the text is the same in both
    files. *)
Definition dispatch (sql : str) (st0 : Converter) : outcome bool :=
  let st := withCounter st0 (processedStatements st0 + 1) in
  if limitReached st then Returned false st
  else if startsWith (js "START TRANSACTION") sql
  then Returned true (withTransaction st true)
  else if startsWith (js "COMMIT") sql
  then Returned true (withTransaction st false)
  else if startsWith (js "DROP TABLE") (toUpperCase sql)
  then Returned true st
  else if startsWith (js "CREATE TABLE") (toUpperCase sql)
  then match parseCreateTable sql with
       | Some tableInfo => Returned true (setTable st (tableName tableInfo) tableInfo)
       | None => Returned true st
       end
  else if startsWith (js "INSERT INTO") (toUpperCase sql)
  then match parseInsertInto sql with
       | Some insertInfo => insertRows st insertInfo
       | None => Returned true st
       end
  else Returned true st.
End Dispatch.

Definition isEmpty (s : str) : bool := length s =? 0.

Module TsConverter.

(** [processStatement(sql)]: the empty statement returns [true] before
    anything else happens. *)
Definition processStatement (sql : str) (st : Converter) : outcome bool :=
  let sql := trim sql in
  if isEmpty sql then Returned true st
  else dispatch Ts.parseCreateTable sql st.

(** The loop of [sqlToJson] and [sqlToJsonFiles] over the statements. *)
Fixpoint runStatements (statements : list str) (st : Converter) : outcome unit :=
  match statements with
  | [] => Returned tt st
  | statement :: more =>
      if 0 <? length statement then
        match processStatement statement st with
        | Returned shouldContinue st' =>
            if shouldContinue then runStatements more st' else Returned tt st'
        | Thrown st' => Thrown st'
        end
      else runStatements more st
  end.

(** [content.split(';').map(s => s.trim()).filter(s => s &&
    !s.startsWith('--'))]; the byte-order mark removed first is outside
    the modelled code units. *)
Definition statementsOf (content : str) : list str :=
  filter (fun s => negb (isEmpty s) && negb (startsWith (js "--") s) = true)
         (map trim (splitChar ";" content)).

Definition sqlToJson (content : str) (st : Converter) : outcome unit :=
  runStatements (statementsOf content) st.

End TsConverter.

Module JsConverter.

(** [processStatement(sql)]: the empty statement returns [undefined]
    ([None]). *)
Definition processStatement (sql : str) (st : Converter) : outcome (option bool) :=
  let sql := trim sql in
  if isEmpty sql then Returned None st
  else match dispatch Js.parseCreateTable sql st with
       | Returned b st' => Returned (Some b) st'
       | Thrown st' => Thrown st'
       end.

Definition truthy (r : option bool) : bool :=
  match r with Some b => b | None => false end.

Fixpoint runStatements (statements : list str) (st : Converter) : outcome unit :=
  match statements with
  | [] => Returned tt st
  | statement :: more =>
      match processStatement statement st with
      | Returned shouldContinue st' =>
          if truthy shouldContinue then runStatements more st' else Returned tt st'
      | Thrown st' => Thrown st'
      end
  end.

(** [content.split(';').filter(s => s.trim())] *)
Definition statementsOf (content : str) : list str :=
  filter (fun s => negb (isEmpty (trim s)) = true) (splitChar ";" content).

Definition sqlToJson (content : str) (st : Converter) : outcome unit :=
  runStatements (statementsOf content) st.

End JsConverter.

(** * Specification-side definitions

    The definitions below do not translate program text: they phrase what
    the specification says, or serve the proofs, and are compared with the
    program in the theorems that follow. *)

(** ** The value tokenizer, in two passes *)

Definition isQuoteChar (c : ascii) : bool := ch_eqb c squote || ch_eqb c dquote.
Definition isOpenChar (c : ascii) : bool := ch_eqb c "(" || ch_eqb c "{".
Definition isCloseChar (c : ascii) : bool := ch_eqb c ")" || ch_eqb c "}".

(** First pass: which positions hold a separating comma.  [q] is the quote
    that opened the string the scan is in, if any; [lvl] the nesting depth;
    [prev] the preceding character.  Inside a string nothing separates, and
    the string ends at its opening quote unless a backslash precedes it;
    outside, brackets move the depth and a comma separates at depth 0. *)
Fixpoint separators (q : option ascii) (lvl : Z) (prev : option ascii)
    (s : str) : list bool :=
  match s with
  | [] => []
  | c :: t =>
      match q with
      | Some o =>
          false ::
          separators
            (if bool_decide (c = o) && negb (bool_decide (prev = Some backslash))
             then None else Some o)
            lvl (Some c) t
      | None =>
          if isQuoteChar c then false :: separators (Some c) lvl (Some c) t
          else if isOpenChar c then false :: separators None (lvl + 1) (Some c) t
          else if isCloseChar c then false :: separators None (lvl - 1) (Some c) t
          else (ch_eqb c "," && (lvl =? 0)%Z) :: separators None lvl (Some c) t
      end
  end.

(** Second pass: the segments between the marked positions. *)
Fixpoint cutAt (mask : list bool) (s : str) (cur : str) {struct s} : list str :=
  match s, mask with
  | c :: t, b :: m => if b then cur :: cutAt m t [] else cutAt m t (cur ++ [c])
  | _, _ => [cur]
  end.

(** The final segment is kept only when it is not empty. *)
Fixpoint dropEmptyLast (segs : list str) : list str :=
  match segs with
  | [] => []
  | [l] => match l with [] => [] | _ :: _ => [l] end
  | x :: more => x :: dropEmptyLast more
  end.

Definition specTokens (s : str) : list str :=
  dropEmptyLast (map trim (cutAt (separators None 0 None s) s [])).

(** Text free of quotes, brackets and commas, and the comma-joined text of
    a non-empty list of segments. *)
Definition plainChar (c : ascii) : bool :=
  negb (isQuoteChar c || isOpenChar c || isCloseChar c || ch_eqb c ",").

Definition plain (s : str) : Prop := forallb plainChar s = true.

Fixpoint joinComma (first : str) (more : list str) : str :=
  match more with
  | [] => first
  | x :: t => first ++ ","%char :: joinComma x t
  end.

(** ** The column splitter of the TypeScript class, in two passes *)

(** Which positions of the column body hold a separating comma: a comma
    at parenthesis depth 0. *)
Fixpoint parenSeparators (lvl : Z) (s : str) : list bool :=
  match s with
  | [] => []
  | c :: t =>
      if ch_eqb c "(" then false :: parenSeparators (lvl + 1) t
      else if ch_eqb c ")" then false :: parenSeparators (lvl - 1) t
      else (ch_eqb c "," && (lvl =? 0)%Z) :: parenSeparators lvl t
  end.

Definition specSegments (columnsPart : str) : list str :=
  dropEmptyLast (map trim (cutAt (parenSeparators 0 columnsPart) columnsPart [])).

Definition finishSplit (st : Ts.splitState) : list str :=
  match trim (Ts.current st) with
  | [] => Ts.columnDefs st
  | _ :: _ => Ts.columnDefs st ++ [trim (Ts.current st)]
  end.

(** ** The literal normalizer *)

Definition isNullWord (t : str) : bool :=
  match t with
  | [a; b; c; d] =>
      (ch_eqb a "N" || ch_eqb a "n") && (ch_eqb b "U" || ch_eqb b "u")
      && (ch_eqb c "L" || ch_eqb c "l") && (ch_eqb d "L" || ch_eqb d "l")
  | _ => false
  end.

(** The text starts and ends with the same quote character. *)
Definition isQuoted (t : str) : bool :=
  match t with
  | q :: _ => isQuoteChar q && bool_decide (last t = Some q)
  | [] => false
  end.

Definition stripOuter (t : str) : str := removelast (tl t).

(** A backslash followed by a quote becomes that quote; every other
    character, backslashes included, is kept. *)
Fixpoint unescapeQuotes (s : str) : str :=
  match s with
  | [] => []
  | c :: t =>
      match t with
      | q :: t' =>
          if ch_eqb c backslash && isQuoteChar q then q :: unescapeQuotes t'
          else c :: unescapeQuotes t
      | [] => [c]
      end
  end.

Definition allDigits (s : str) : bool :=
  negb (isEmpty s) && forallb isDigit s.

Definition unsigned (t : str) : str :=
  match t with
  | c :: t' => if ch_eqb c "-" then t' else t
  | [] => []
  end.

Definition signZ (t : str) : Z :=
  match t with
  | c :: _ => if ch_eqb c "-" then (-1)%Z else 1%Z
  | [] => 1%Z
  end.

(** An optional minus sign and one or more digits. *)
Definition isIntegerText (t : str) : bool := allDigits (unsigned t).

(** Digits, a point, digits. *)
Definition isDecimalBody (body : str) : bool :=
  let ip := takeDigits body in
  negb (isEmpty ip)
  && match skipn (length ip) body with
     | c :: fs => ch_eqb c "." && allDigits fs
     | [] => false
     end.

(** An optional minus sign, digits, a point, digits. *)
Definition isDecimalText (t : str) : bool := isDecimalBody (unsigned t).

(** The integer and the decimal that a text denotes, and the Numbers they
    yield: the nearest one, under the sign of the text. *)
Definition integerDenoted (t : str) : Z :=
  signZ t * digitsValue (unsigned t).

Definition integerValue (t : str) : number :=
  nearest (signZ t <? 0)%Z (digitsValue (unsigned t)) 0.

Definition decimalValue (t : str) : number :=
  let body := unsigned t in
  let ip := takeDigits body in
  let fs := skipn (S (length ip)) body in
  nearest (signZ t <? 0)%Z (digitsValue (ip ++ fs)) (length fs).

Definition normalizeSpec (token : str) : jsval :=
  let t := trim token in
  if isNullWord t then JNull
  else if isQuoted t then JStr (unescapeQuotes (stripOuter t))
  else if isIntegerText t then JNum (integerValue t)
  else if isDecimalText t then JNum (decimalValue t)
  else JStr t.

(** The claim's sentence on integers: the token yields the integer it
    denotes. *)
Definition yieldsItsInteger (token : str) : Prop :=
  exists n, cleanValue token = JNum n
            /\ integerOf n = Some (integerDenoted (trim token)).

(** A 1 followed by 309 zeros: an integer beyond the range of Numbers. *)
Definition hugeToken : str := "1"%char :: repeat "0"%char 309.

(** ** Proof devices for the matcher *)

(** A greedy run over a character class, without fuel: the longest run is
    tried first, then shorter ones, down to the empty run. *)
Fixpoint starCls (p : ascii -> bool) (n : nat) (s : str) (c : list (nat * str))
    (k : cont) : option mstate :=
  match s with
  | a :: t =>
      if p a then
        match starCls p (S n) t c k with
        | Some z => Some z
        | None => k (MState n s c)
        end
      else k (MState n s c)
  | [] => k (MState n [] c)
  end.

(** Replacing every occurrence of the two-character text [a b] by [rep],
    left to right. *)
Fixpoint replacePair (a b : ascii) (rep : str) (s : str) : str :=
  match s with
  | [] => []
  | x :: t =>
      match t with
      | y :: t' =>
          if ch_eqb x a && ch_eqb y b then rep ++ replacePair a b rep t'
          else x :: replacePair a b rep t
      | [] => [x]
      end
  end.

(** The continuation after the digits of the numeric patterns: the end
    of the input, then nothing more. *)
Definition eolK : cont :=
  fun y => rmatch false Eol y (fun y0 => rmatch false Eps y0 Some).

(** The numeric patterns after their optional sign, and the continuation
    after the integer digits of the decimal pattern. *)
Definition intTail : regex := seq [Plus (Cls cls_d); Eol].
Definition floatTail : regex :=
  seq [Plus (Cls cls_d); Lit "."; Plus (Cls cls_d); Eol].
Definition fracK : cont :=
  fun y => rmatch false (Lit ".") y
             (fun y1 => rmatch false (Plus (Cls cls_d)) y1 eolK).

(** The capture groups that take part in every match of a pattern. *)
Fixpoint mandatory (r : regex) : list nat :=
  match r with
  | Cat r1 r2 => mandatory r1 ++ mandatory r2
  | Plus r | PlusLazy r => mandatory r
  | Grp n r => n :: mandatory r
  | _ => []
  end.

Definition captured (n : nat) (cs : list (nat * str)) : Prop :=
  is_Some (capture n cs).

(** A matcher only succeeds through its continuation, and the state it
    hands over keeps the captures made so far and adds [extra]. *)
Definition keeps (x y : mstate) (extra : list nat) : Prop :=
  forall n, In n extra \/ captured n (caps x) -> captured n (caps y).

Definition sound (m : mstate -> cont -> option mstate) (extra : list nat) : Prop :=
  forall x k z, m x k = Some z -> exists y, k y = Some z /\ keeps x y extra.

(** ** The registry *)

(** The TableInfo that [this.tables[k]] denotes, if it denotes one. *)
Definition lookupTable (st : Converter) (k : str) : option TableInfo :=
  match getTable st k with
  | POwn t | PProto t => Some t
  | _ => None
  end.

(** Every key of a row is the name of a declared column. *)
Definition rowOk (cols : list ColumnDefinition) (r : Row) : Prop :=
  forall k, is_Some (props r !! k) -> In k (map name cols).

Definition tableOk (t : TableInfo) : Prop :=
  Forall (rowOk (columns t)) (data t).

Definition registryOk (st : Converter) : Prop :=
  (forall k t, tables st !! k = Some t -> tableOk t)
  /\ (forall p, tablesProto st = Some p -> tableOk p).

(** The claim's sentence on positions: the value at position [i] is the
    property of the row that column [i] names. *)
Definition positional (cols : list ColumnDefinition) (record : list jsval)
    : Prop :=
  forall i col v, cols !! i = Some col -> record !! i = Some v ->
                  props (rowOf cols record) !! name col = Some v.

(** A column beyond the values is not assigned. *)
Definition noFill (cols : list ColumnDefinition) (record : list jsval)
    : Prop :=
  forall i col, cols !! i = Some col -> record !! i = None ->
                props (rowOf cols record) !! name col = None.

(** The row that pairs the column names with the values of a record,
    position by position. *)
Definition columnNames (cols : list ColumnDefinition) : list str :=
  map name cols.

Definition writtenRow (cols : list ColumnDefinition) (record : list jsval)
    : Row :=
  mkRow (list_to_map (zip (columnNames cols) record)) false.

(** A table that declares one column name twice, and statements that
    create and fill it. *)
Definition dupColumns : list ColumnDefinition :=
  [mkColumn (js "a") (js "INT"); mkColumn (js "a") (js "INT")].

Definition stmtDupColumns : str :=
  js "CREATE TABLE t (a INT, a INT); INSERT INTO t VALUES (1, 2)".

(** Two states hold the same registry and flags; the statement counters
    may differ. *)
Definition sameData (a b : Converter) : Prop :=
  tables a = tables b /\ tablesProto a = tablesProto b
  /\ currentTable a = currentTable b
  /\ insideTransaction a = insideTransaction b.

(** ** Proof devices for the scan *)

Definition mapScan {A} (f : str -> A) (st : scanState str) : scanState A :=
  ScanState (map f (values st)) (current st) (inString st) (stringChar st)
            (depth st).

Definition finish {A} (emit : str -> A) (st : scanState A) : list A :=
  match trim (current st) with
  | [] => values st
  | _ :: _ => values st ++ [emit (trim (current st))]
  end.

(** The program's scan state and the state of the first pass agree. *)
Definition related {A} (st : scanState A) (q : option ascii) (lvl : Z) : Prop :=
  depth st = lvl
  /\ match q with
     | Some o => inString st = true /\ stringChar st = Some o
     | None => inString st = false
     end.

Definition lastOr (prev : option ascii) (a : str) : option ascii :=
  match last a with
  | Some c => Some c
  | None => prev
  end.

(** A statement that is not empty once trimmed, and the statement loop
    both drivers reduce to on such statements. *)
Definition nonblank (s : str) : Prop := isEmpty (trim s) = false.

Fixpoint runDispatch (parseCreateTable : str -> option TableInfo)
    (statements : list str) (st : Converter) : outcome unit :=
  match statements with
  | [] => Returned tt st
  | statement :: more =>
      match dispatch parseCreateTable (trim statement) st with
      | Returned shouldContinue st' =>
          if shouldContinue then runDispatch parseCreateTable more st'
          else Returned tt st'
      | Thrown st' => Thrown st'
      end
  end.

(** A text with every occurrence of one character, or of every quote and
    bracket, removed. *)
Definition without (c : ascii) (s : str) : str :=
  List.filter (fun x => negb (ch_eqb x c)) s.

Definition unbracketed (s : str) : str :=
  List.filter (fun x => negb (isQuoteChar x || isOpenChar x || isCloseChar x)) s.

Definition headNotSpace (s : str) : Prop :=
  match s with
  | c :: _ => isWhiteSpace c = false
  | [] => True
  end.

(** ** Inputs of the concrete runs *)

Definition lf : str := ["010"%char].

Definition stmtExample : str := js "CREATE TABLE t (a INT, b VARCHAR(10))".

Definition stmtBackticks : str :=
  js "CREATE TABLE `t` (`a` INT, `b` DECIMAL(10,2))".

Definition tableExample : TableInfo :=
  mkTable (js "t")
    [mkColumn (js "a") (js "INT"); mkColumn (js "b") (js "VARCHAR(10)")] [].

(** The CREATE TABLE statement of the README. *)
Definition stmtReadme : str :=
  js "CREATE TABLE users (" ++ lf
  ++ js "    id INT PRIMARY KEY AUTO_INCREMENT," ++ lf
  ++ js "    name VARCHAR(255) NOT NULL," ++ lf
  ++ js "    email VARCHAR(255) UNIQUE" ++ lf
  ++ js ")".

Definition orphanInsert : str := js "INSERT INTO constructor VALUES (1)".

(** A converter that holds table [t] with one row. *)
Definition stWithRows : Converter :=
  stateOf (TsConverter.sqlToJson
             (js "CREATE TABLE t (x INT); INSERT INTO t VALUES (7)")
             (newConverter None)).

(** ** The language of a pattern *)

(** The words a pattern can consume, anchors consuming nothing. *)
Fixpoint Matches (ci : bool) (r : regex) (w : str) : Prop :=
  match r with
  | Eps | Bol | Eol => w = []
  | Lit c => exists a, w = [a] /\ canon ci a = canon ci c
  | Cls p => exists a, w = [a] /\ p a = true
  | Cat r1 r2 =>
      exists w1 w2, w = w1 ++ w2 /\ Matches ci r1 w1 /\ Matches ci r2 w2
  | Opt r => w = [] \/ Matches ci r w
  | Star r => exists ws, w = concat ws /\ Forall (Matches ci r) ws
  | Plus r | PlusLazy r =>
      exists w1 ws,
        w = w1 ++ concat ws /\ Matches ci r w1 /\ Forall (Matches ci r) ws
  | Grp _ r => Matches ci r w
  end.

(** [Q n w] holds of every word the group [n] of the pattern can capture. *)
Fixpoint respects (ci : bool) (Q : nat -> str -> Prop) (r : regex) : Prop :=
  match r with
  | Cat r1 r2 => respects ci Q r1 /\ respects ci Q r2
  | Opt r | Star r | Plus r | PlusLazy r => respects ci Q r
  | Grp n r => (forall w, Matches ci r w -> Q n w) /\ respects ci Q r
  | _ => True
  end.

Definition capsOk (Q : nat -> str -> Prop) (cs : list (nat * str)) : Prop :=
  Forall (fun nv => Q (fst nv) (snd nv)) cs.

Definition consumes (x y : mstate) (w : str) : Prop :=
  rest x = w ++ rest y /\ pos y = pos x + length w.

(** A matcher succeeds only through its continuation, after consuming a
    word of the language [L], with captures that satisfy [Q]. *)
Definition wsound (Q : nat -> str -> Prop)
    (m : mstate -> cont -> option mstate) (L : str -> Prop) : Prop :=
  forall x k z,
    capsOk Q (caps x) -> m x k = Some z ->
    exists y w, k y = Some z /\ consumes x y w /\ L w /\ capsOk Q (caps y).

Definition starOf (L : str -> Prop) (w : str) : Prop :=
  exists ws, w = concat ws /\ Forall L ws.

(** The characters of a table name, of a column name of the TypeScript
    parser and of [bin/cli.js], and of a column type. *)
Definition tableNameChar (c : ascii) : Prop :=
  c <> "`"%char /\ c <> "("%char /\ isWhiteSpace c = false.

Definition columnNameChar (c : ascii) : Prop :=
  c <> "`"%char /\ isWhiteSpace c = false.

Definition sameLine (c : ascii) : Prop := isLineTerminator c = false.

Definition tableNameQ (n : nat) (w : str) : Prop :=
  n = 1 -> w <> [] /\ Forall tableNameChar w.

Definition tsColumnQ (n : nat) (w : str) : Prop :=
  (n = 1 -> w <> [] /\ Forall columnNameChar w)
  /\ (n = 2 -> Forall sameLine w).

Definition jsColumnQ (n : nat) (w : str) : Prop :=
  (n = 1 -> w <> [] /\ Forall (fun c => c <> "`"%char) w)
  /\ (n = 2 -> Forall sameLine w).

Definition whenSome {A} (P : A -> Prop) (o : option A) : Prop :=
  match o with
  | Some a => P a
  | None => True
  end.

Definition tsColumnOk (col : ColumnDefinition) : Prop :=
  name col <> [] /\ Forall columnNameChar (name col)
  /\ Forall sameLine (type col).

Definition jsColumnOk (col : ColumnDefinition) : Prop :=
  name col <> [] /\ Forall (fun c => c <> "`"%char) (name col)
  /\ Forall sameLine (type col).

(** ** Relations between converter states and between outcomes *)

(** Two states hold the same limit, counter and registry; the transaction
    flag and the current table may differ. *)
Definition sameRegistry (a b : Converter) : Prop :=
  limit a = limit b /\ processedStatements a = processedStatements b
  /\ tables a = tables b /\ tablesProto a = tablesProto b.

Definition sameOutcome {R} (o1 o2 : outcome R) : Prop :=
  match o1, o2 with
  | Returned r1 s1, Returned r2 s2 => r1 = r2 /\ sameRegistry s1 s2
  | Thrown s1, Thrown s2 => sameRegistry s1 s2
  | _, _ => False
  end.

(** The call did not ask the driver to stop. *)
Definition continues (o : outcome bool) : Prop :=
  match o with
  | Returned b _ => b = true
  | Thrown _ => True
  end.

(** ** Writing values back as SQL text *)

(** The text of a string literal: a backslash before every quote
    character, and the quote [q] around the whole. *)
Definition escapeQuotes (s : str) : str :=
  flat_map (fun c => if isQuoteChar c then [backslash; c] else [c]) s.

Definition quoteWith (q : ascii) (s : str) : str := q :: escapeQuotes s ++ [q].

Definition joinAll (l : list str) : str :=
  match l with
  | [] => []
  | x :: t => joinComma x t
  end.

(** ** The line loop of [processLargeSQL] *)

(** The loop over the lines that [readline] delivers and the statement
    left over after it, the same text in both files.  [processStatement]
    is the method of the file at hand and [goOn] the truth value of what
    it returns.  The loop returns the buffer [currentStatement]; a [break]
    leaves it empty. *)
Section LineLoop.
Context {R : Type}.
Variable processStatement : str -> Converter -> outcome R.
Variable goOn : R -> bool.

(** [!trimmedLine || trimmedLine.startsWith('--')] *)
Definition skipLine (line : str) : bool :=
  isEmpty (trim line) || startsWith (js "--") (trim line).

Fixpoint lineLoop (lines : list str) (currentStatement : str) (st : Converter)
    : outcome str :=
  match lines with
  | [] => Returned currentStatement st
  | line :: more =>
      if skipLine line then lineLoop more currentStatement st
      else
        let currentStatement := currentStatement ++ " "%char :: line in
        if endsWith [";"%char] (trim line) then
          match processStatement (trim currentStatement) st with
          | Returned shouldContinue st' =>
              if goOn shouldContinue then lineLoop more [] st'
              else Returned [] st'
          | Thrown st' => Thrown st'
          end
        else lineLoop more currentStatement st
  end.

Definition processLines (lines : list str) (st : Converter) : outcome unit :=
  match lineLoop lines [] st with
  | Returned currentStatement st' =>
      if isEmpty (trim currentStatement) then Returned tt st'
      else match processStatement (trim currentStatement) st' with
           | Returned _ st'' => Returned tt st''
           | Thrown st'' => Thrown st''
           end
  | Thrown st' => Thrown st'
  end.
End LineLoop.

Definition tsProcessLines : list str -> Converter -> outcome unit :=
  processLines TsConverter.processStatement (fun b => b).

Definition jsProcessLines : list str -> Converter -> outcome unit :=
  processLines JsConverter.processStatement JsConverter.truthy.

(** The lines that are part of a statement, and the text the loop builds
    from the lines of one statement. *)
Definition statementLines (lines : list str) : list str :=
  List.filter (fun l => negb (skipLine l)) lines.

Definition continuation (line : str) : Prop :=
  skipLine line = false /\ endsWith [";"%char] (trim line) = false.

Definition terminator (line : str) : Prop :=
  skipLine line = false /\ endsWith [";"%char] (trim line) = true.

Definition joined (lines : list str) : str :=
  flat_map (fun l => " "%char :: l) lines.

(** ** The totals of the metadata *)

(** [Object.keys(this.tables).length] *)
Definition totalTables (st : Converter) : nat := size (tables st).

(** [Object.values(this.tables).reduce((sum, table) => sum +
    table.data.length, 0)]; the order of the values does not matter to
    the sum. *)
Definition totalRecords (st : Converter) : nat :=
  map_fold (fun (_ : str) table sum => sum + length (data table)) 0 (tables st).

(** ** The command line *)

(** A digit of radix 16, if the character is one. *)
Definition hexVal (c : ascii) : option Z :=
  let n := code c in
  if (48 <=? n) && (n <=? 57) then Some (Z.of_nat (n - 48))
  else if (97 <=? n) && (n <=? 102) then Some (Z.of_nat (n - 87))
  else if (65 <=? n) && (n <=? 70) then Some (Z.of_nat (n - 55))
  else None.

Fixpoint takeHex (s : str) : list Z :=
  match s with
  | c :: t => match hexVal c with
              | Some d => d :: takeHex t
              | None => []
              end
  | [] => []
  end.

Definition hexValue (ds : list Z) : Z :=
  fold_left (fun acc d => (acc * 16 + d)%Z) ds 0%Z.

(** [parseInt(s)] without a radix: leading white space, a sign, then
    either hexadecimal digits after 0x or 0X, or decimal digits; the value
    is the Number nearest to that of the longest digit prefix, not a
    number when there is none. *)
Definition parseIntAuto (s : str) : number :=
  let '(sg, body) := signOf (trimStart s) in
  let decimal :=
    match takeDigits body with
    | [] => NaN
    | ds => nearest (sg <? 0)%Z (digitsValue ds) 0
    end in
  match body with
  | z :: x :: t =>
      if ch_eqb z "0" && (ch_eqb x "x" || ch_eqb x "X")
      then match takeHex t with
           | [] => NaN
           | ds => nearest (sg <? 0)%Z (hexValue ds) 0
           end
      else decimal
  | _ => decimal
  end.

(** [n || null]: the Number when it is truthy. *)
Definition truthyOrNull (n : number) : option number :=
  if truthyNumber n then Some n else None.

Module Cli.

Record CLIArgs := mkArgs {
  inputFile : str;
  outputFile : option str;
  outputDir : str;
  showMemory : bool;
  skipUnparsable : bool;
  isCombined : bool;
  batchSize : number;
  limit : option number
}.

(** [args.includes(x)] and [args.indexOf(x)] *)
Definition includes (x : str) (args : list str) : bool :=
  existsb (str_eqb x) args.

Fixpoint indexOf (x : str) (args : list str) : option nat :=
  match args with
  | [] => None
  | a :: t => if str_eqb a x then Some 0 else option_map S (indexOf x t)
  end.

(** [args[args.indexOf(x) + 1]] under the test [args.includes(x)]:
    [None] is [undefined], also when the option is absent and the
    assignment is not made. *)
Definition valueAfter (x : str) (args : list str) : option str :=
  if includes x args then
    match indexOf x args with
    | Some i => args !! (S i)
    | None => None
    end
  else None.

(** [parseInt(v)] of an argument that may be [undefined], whose text has
    no digit. *)
Definition parseIntArg (v : option str) : number :=
  match v with
  | Some s => parseIntAuto s
  | None => NaN
  end.

Definition orText (v : option str) (d : str) : str :=
  match v with
  | Some (c :: t) => c :: t
  | _ => d
  end.

(** [parseArgs(args)] of the TypeScript file; [main] of [bin/cli.js]
    computes the same values inline. *)
Definition parseArgs (args : list str) : CLIArgs :=
  mkArgs
    (orText (args !! 0) [])
    (valueAfter (js "--output") args)
    (if includes (js "--output-dir") args
     then orText (valueAfter (js "--output-dir") args) (js "json-output")
     else js "json-output")
    (includes (js "--memory") args || includes (js "-m") args)
    (includes (js "--skip-unparsable") args)
    (includes (js "--combined") args)
    (if includes (js "--batch-size") args
     then match truthyOrNull
                  (parseIntArg (valueAfter (js "--batch-size") args)) with
          | Some n => n
          | None => Dec 500 0
          end
     else Dec 500 0)
    (if includes (js "--limit") args
     then truthyOrNull (parseIntArg (valueAfter (js "--limit") args))
     else None).

End Cli.

(** The decimal numeral of an integer, and the text of a value: NULL, a
    string literal, or a numeral. *)
Definition digitChar (d : Z) : ascii := ascii_of_nat (48 + Z.to_nat d).

Fixpoint digitsOf (fuel : nat) (n : Z) : str :=
  match fuel with
  | 0 => []
  | S f =>
      if (n <? 10)%Z then [digitChar n]
      else digitsOf f (n / 10) ++ [digitChar (n mod 10)]
  end.

Definition numeral (z : Z) : str :=
  if (z <? 0)%Z then "-"%char :: digitsOf (S (Z.to_nat (- z))) (- z)
  else digitsOf (S (Z.to_nat z)) z.

Definition writeValue (q : ascii) (v : jsval) : str :=
  match v with
  | JNull => js "NULL"
  | JStr s => quoteWith q s
  | JNum n => match integerOf n with
              | Some z => numeral z
              | None => []
              end
  end.

(** The values that have such a text: null, the strings that do not end
    in a backslash, and the safe integers. *)
Definition writable (v : jsval) : Prop :=
  match v with
  | JNull => True
  | JStr s => last s <> Some backslash
  | JNum n => exists z, safeInteger z /\ n = Dec z 0
  end.

(** ** Invariants of the registry *)

(** Every table is stored under its own name, and no table is stored
    under the key [__proto__]. *)
Definition namesOk (st : Converter) : Prop :=
  forall k t, tables st !! k = Some t -> tableName t = k.

Definition noProtoKey (st : Converter) : Prop := tables st !! protoKey = None.

Definition healthy (st : Converter) : Prop :=
  registryOk st /\ namesOk st /\ noProtoKey st.

(** ** INSERT statements written from values *)

(** What is left of a text after a literal prefix, and a text at whose
    head a run over a class ends. *)
Fixpoint litsMatch (ci : bool) (p s : str) : option str :=
  match p with
  | [] => Some s
  | c :: p' =>
      match s with
      | a :: t =>
          if ch_eqb (canon ci a) (canon ci c) then litsMatch ci p' t else None
      | [] => None
      end
  end.

Definition stops (p : ascii -> bool) (t : str) : Prop :=
  match t with
  | a :: _ => p a = false
  | [] => True
  end.

(** The table name without one leading SERVMASK_PREFIX_. *)
Definition stripServmask (m : str) : str :=
  if startsWith (js "SERVMASK_PREFIX_") m then skipn 16 m else m.

(** ** CREATE TABLE statements written from columns *)

Definition columnText (col : ColumnDefinition) : str :=
  name col ++ " "%char :: type col.

Definition createText (tableName : str) (cols : list ColumnDefinition)
    (tail : str) : str :=
  js "CREATE TABLE " ++ tableName ++ js " ("
     ++ joinAll (map columnText cols) ++ ")"%char :: tail.

(** A text that holds no comma at parenthesis depth 0 and ends at depth
    0, read from depth [lvl]. *)
Fixpoint closed (lvl : Z) (s : str) : bool :=
  match s with
  | [] => (lvl =? 0)%Z
  | c :: t =>
      if ch_eqb c "(" then closed (lvl + 1) t
      else if ch_eqb c ")" then closed (lvl - 1) t
      else negb (ch_eqb c "," && (lvl =? 0)%Z) && closed lvl t
  end.

(** A text that is not empty and neither starts nor ends with white
    space. *)
Definition edgesOk (s : str) : Prop :=
  s <> [] /\ headNotSpace s /\ headNotSpace (rev s).

(** The columns that can be written: a name and a type of the shape the
    parser returns, a type that is trimmed, parentheses that are balanced
    with commas only inside them, and a text that is not taken for a key
    definition, a comment or the ENGINE clause. *)
Definition writableColumn (col : ColumnDefinition) : Prop :=
  tsColumnOk col /\ edgesOk (type col)
  /\ closed 0 (columnText col) = true
  /\ skipDefinition (columnText col) = false.

(** ** CREATE TABLE statements in the layout of a dump *)

(** One column per line: two spaces, the name between backticks, a
    space, the type, and a comma where [comma] says so. *)
Definition dumpCore (cb : ColumnDefinition * bool) : str :=
  "`"%char :: name (fst cb) ++ "`"%char :: " "%char :: type (fst cb)
     ++ (if snd cb then [","%char] else []).

Definition dumpLine (cb : ColumnDefinition * bool) : str :=
  js "  " ++ dumpCore cb.

Fixpoint linesBody (ls : list str) : str :=
  match ls with
  | [] => []
  | l :: t => l ++ lf ++ linesBody t
  end.

Definition dumpText (tableName : str) (cbs : list (ColumnDefinition * bool))
    (tail : str) : str :=
  js "CREATE TABLE `" ++ tableName ++ js "` (" ++ lf
     ++ linesBody (map dumpLine cbs) ++ ")"%char :: tail.

(** The columns that can be written this way. *)
Definition dumpColumn (cb : ColumnDefinition * bool) : Prop :=
  jsColumnOk (fst cb) /\ Forall sameLine (name (fst cb))
  /\ edgesOk (type (fst cb))
  /\ last (type (fst cb)) <> Some ","%char
  /\ skipDefinition (dumpCore cb) = false.

(** ** INSERT statements with several records *)

(** The records between parentheses, joined by commas: the text after
    the first opening parenthesis. *)
Fixpoint rowsTail (first : str) (more : list str) (sfx : str) : str :=
  match more with
  | [] => first ++ ")"%char :: sfx
  | r :: t => first ++ ")"%char :: ","%char :: "("%char :: rowsTail r t sfx
  end.

Definition insertRowsText (name : str) (first : str) (more : list str)
    (semi : bool) : str :=
  js "INSERT INTO " ++ name ++ js " VALUES ("
     ++ rowsTail first more (if semi then [";"%char] else []).

(** The pieces the separator pattern cuts the records into. *)
Fixpoint rowPieces (acc : str) (first : str) (more : list str) (sfx : str)
    : list str :=
  match more with
  | [] => [acc ++ first ++ ")"%char :: sfx]
  | r :: t => (acc ++ first) :: rowPieces [] r t sfx
  end.

(** The separator of two records starts the text: a closing parenthesis,
    a comma, white space, an opening parenthesis. *)
Definition sepMatchB (s : str) : bool :=
  match s with
  | a :: b :: t =>
      ch_eqb a ")" && ch_eqb b ","
      && match trimStart t with
         | c :: _ => ch_eqb c "("
         | [] => false
         end
  | _ => false
  end.

Definition noSep (r : str) : Prop := forall i, sepMatchB (skipn i r) = false.

Definition rowText (q : ascii) (vs : list jsval) : str :=
  joinAll (map (writeValue q) vs).

(** A text that does not start with an opening parenthesis, and a text
    whose last character is neither white space, a semicolon nor a
    closing parenthesis. *)
Definition leadFree (r : str) : Prop :=
  match r with
  | c :: _ => c <> "("%char
  | [] => True
  end.

Definition endOk (e : ascii) : Prop :=
  isWhiteSpace e = false /\ e <> ";"%char /\ e <> ")"%char.

Definition trailFree (r : str) : Prop :=
  match last r with
  | Some e => endOk e
  | None => True
  end.

(** ** Statements read line by line *)

(** A text without line feed; a table with at most one column, whose rows
    hold at most one field; a registry of such tables. *)
Definition oneLine (s : str) : Prop := Forall (fun c => c <> "010"%char) s.

Definition narrowTable (t : TableInfo) : Prop :=
  length (columns t) <= 1 /\ Forall (fun r => size (props r) <= 1) (data t).

Definition narrow (st : Converter) : Prop :=
  forall k t, tables st !! k = Some t -> narrowTable t.

Definition dumpLines : list str :=
  [js "CREATE TABLE `users` (";
   js "  `id` int(11) NOT NULL,";
   js "  `email` varchar(255) NOT NULL";
   js ") ENGINE=InnoDB;";
   js "INSERT INTO `users` VALUES (1,'a@b.c');"].

(** ** The column body of a dump, read by the TypeScript class *)

(** What stands between two separating commas of a column body: a column,
    its name between backticks or bare, or a text that the parser skips (a
    key definition, a comment, nothing). *)
Inductive segment : Type :=
| ColumnSeg (quoted : bool) (col : ColumnDefinition)
| SkippedSeg (text : str).

Definition quotedText (col : ColumnDefinition) : str :=
  "`"%char :: name col ++ "`"%char :: " "%char :: type col.

Definition segmentCore (sg : segment) : str :=
  match sg with
  | ColumnSeg true col => quotedText col
  | ColumnSeg false col => columnText col
  | SkippedSeg text => text
  end.

Fixpoint segmentColumns (sgs : list segment) : list ColumnDefinition :=
  match sgs with
  | [] => []
  | ColumnSeg _ col :: t => col :: segmentColumns t
  | SkippedSeg _ :: t => segmentColumns t
  end.

Definition segmentOk (sg : segment) : Prop :=
  match sg with
  | ColumnSeg _ col =>
      tsColumnOk col /\ edgesOk (type col)
      /\ skipDefinition (segmentCore sg) = false
  | SkippedSeg text => skipDefinition text = true
  end.

(** The text [s] holds the segment [sg]: white space around it, commas
    only inside parentheses, and these balanced. *)
Definition written (s : str) (sg : segment) : Prop :=
  trim s = segmentCore sg /\ closed 0 s = true /\ segmentOk sg.

Definition dumpStatement (tableName : str) (parts : list str) (tail : str)
    : str :=
  js "CREATE TABLE `" ++ tableName ++ js "` (" ++ joinAll parts
     ++ ")"%char :: tail.

(** * Proofs *)

(** ** Characters and strings *)

Lemma ch_eqb_eq a b : ch_eqb a b = true <-> a = b.
Proof. apply Ascii.eqb_eq. Qed.

Lemma ch_eqb_neq a b : ch_eqb a b = false <-> a <> b.
Proof. apply Ascii.eqb_neq. Qed.

Lemma ch_eqb_refl a : ch_eqb a a = true.
Proof. apply Ascii.eqb_refl. Qed.

Lemma str_eqb_eq (a b : str) : str_eqb a b = true <-> a = b.
Proof. unfold str_eqb. apply bool_decide_eq_true. Qed.

Lemma trimStart_head s : headNotSpace (trimStart s).
Proof.
  induction s as [|c t IH]; simpl; [exact I|].
  destruct (isWhiteSpace c) eqn:E; [exact IH | exact E].
Qed.

Lemma trimStart_fix s : headNotSpace s -> trimStart s = s.
Proof. destruct s as [|c t]; simpl; [reflexivity|]. intros ->. reflexivity. Qed.

Lemma trimStart_idem s : trimStart (trimStart s) = trimStart s.
Proof. apply trimStart_fix, trimStart_head. Qed.

Lemma trimStart_suffix s : exists pre, s = pre ++ trimStart s.
Proof.
  induction s as [|c t [pre IH]]; simpl.
  - exists []. reflexivity.
  - destruct (isWhiteSpace c).
    + exists (c :: pre). simpl. rewrite <- IH. reflexivity.
    + exists []. reflexivity.
Qed.

Lemma trimEnd_prefix s : exists suf, s = trimEnd s ++ suf.
Proof.
  unfold trimEnd. destruct (trimStart_suffix (rev s)) as [pre E].
  exists (rev pre). rewrite <- rev_app_distr, <- E, rev_involutive. reflexivity.
Qed.

Lemma trimEnd_head s : headNotSpace s -> headNotSpace (trimEnd s).
Proof.
  destruct (trimEnd_prefix s) as [suf E]. intros H.
  destruct (trimEnd s) as [|c r]; [exact I|].
  rewrite E in H. exact H.
Qed.

Lemma trimEnd_idem s : trimEnd (trimEnd s) = trimEnd s.
Proof. unfold trimEnd. rewrite rev_involutive, trimStart_idem. reflexivity. Qed.

Lemma trim_idem s : trim (trim s) = trim s.
Proof.
  unfold trim at 1.
  rewrite (trimStart_fix (trim s)) by (apply trimEnd_head, trimStart_head).
  unfold trim. apply trimEnd_idem.
Qed.

Lemma trim_ends q body :
  isWhiteSpace q = false -> forall e, isWhiteSpace e = false ->
  trim (q :: body ++ [e]) = q :: body ++ [e].
Proof.
  intros Hq e He. unfold trim. rewrite trimStart_fix by exact Hq.
  unfold trimEnd.
  assert (E : rev (q :: body ++ [e]) = e :: rev (q :: body)).
  { change (q :: body ++ [e]) with ((q :: body) ++ [e]).
    rewrite rev_app_distr. reflexivity. }
  rewrite E, trimStart_fix by exact He.
  rewrite <- E, rev_involutive. reflexivity.
Qed.

(** ** The value tokenizer *)

Lemma scanValues_finish {A} (emit : str -> A) s :
  scanValues emit s = finish emit (scanLoop emit scanInit None s).
Proof. reflexivity. Qed.

Lemma scanStep_map {A} (f : str -> A) st prev c :
  scanStep f (mapScan f st) prev c = mapScan f (scanStep (fun t => t) st prev c).
Proof.
  unfold scanStep, mapScan; simpl.
  destruct (inString st); simpl; [reflexivity|].
  repeat (match goal with |- context [if ?b then _ else _] => destruct b end;
          simpl; try reflexivity).
  rewrite map_app. reflexivity.
Qed.

Lemma scanLoop_map {A} (f : str -> A) s : forall st prev,
  scanLoop f (mapScan f st) prev s = mapScan f (scanLoop (fun t => t) st prev s).
Proof.
  induction s as [|c t IH]; intros st prev; simpl; [reflexivity|].
  rewrite scanStep_map. apply IH.
Qed.

Lemma scanValues_map {A} (f : str -> A) s :
  scanValues f s = map f (scanValues (fun t => t) s).
Proof.
  rewrite !scanValues_finish.
  change (@scanInit A) with (mapScan f scanInit).
  rewrite scanLoop_map. unfold finish, mapScan; simpl.
  destruct (trim (current _)); [reflexivity|].
  rewrite map_app. reflexivity.
Qed.

Lemma parseValues_tokenize s : parseValues s = map cleanValue (tokenize s).
Proof. apply scanValues_map. Qed.

Lemma cutAt_nonempty mask s cur : cutAt mask s cur <> [].
Proof.
  revert mask cur. induction s as [|c t IH]; intros mask cur; simpl.
  - intros E; discriminate E.
  - destruct mask as [|b m]; simpl; [intros E; discriminate E|].
    destruct b; [intros E; discriminate E | apply IH].
Qed.

Lemma dropEmptyLast_cons x more :
  more <> [] -> dropEmptyLast (x :: more) = x :: dropEmptyLast more.
Proof. destruct more; [congruence | reflexivity]. Qed.

Lemma finish_single (st : scanState str) :
  finish (fun t => t) st = values st ++ dropEmptyLast [trim (current st)].
Proof.
  unfold finish. simpl. destruct (trim (current st)); simpl.
  - rewrite app_nil_r. reflexivity.
  - reflexivity.
Qed.

Lemma scan_refines s : forall (st : scanState str) prev q lvl,
  related st q lvl ->
  finish (fun t => t) (scanLoop (fun t => t) st prev s)
  = values st
    ++ dropEmptyLast (map trim (cutAt (separators q lvl prev s) s (current st))).
Proof.
  induction s as [|c t IH]; intros st prev q lvl [Hd Hq].
  - simpl. apply finish_single.
  - simpl scanLoop. destruct q as [o|].
    + destruct Hq as [Hin Hsc].
      simpl separators. simpl cutAt.
      unfold scanStep at 1. rewrite Hin. simpl negb. cbv iota.
      rewrite Hsc.
      assert (Hbd : bool_decide (Some c = Some o) = bool_decide (c = o)).
      { apply bool_decide_ext. split; congruence. }
      rewrite Hbd.
      erewrite IH; [reflexivity|].
      split; [exact Hd|]. simpl.
      destruct (bool_decide (c = o) && negb (bool_decide (prev = Some backslash)));
        simpl; auto.
    + simpl separators. unfold scanStep at 1. rewrite Hq. simpl negb. cbv iota.
      unfold isQuoteChar, isOpenChar, isCloseChar.
      destruct (ch_eqb c squote || ch_eqb c dquote).
      { simpl cutAt. erewrite IH; [reflexivity|]. split; simpl; auto. }
      destruct (ch_eqb c "(" || ch_eqb c "{").
      { simpl cutAt. erewrite IH; [reflexivity|]. split; simpl; auto. lia. }
      destruct (ch_eqb c ")" || ch_eqb c "}").
      { simpl cutAt. erewrite IH; [reflexivity|]. split; simpl; auto. lia. }
      rewrite Hd.
      destruct (ch_eqb c "," && (lvl =? 0)%Z).
      { simpl cutAt. rewrite map_cons.
        rewrite dropEmptyLast_cons.
        2:{ intros E. apply map_eq_nil in E. exact (cutAt_nonempty _ _ _ E). }
        rewrite (IH _ _ None lvl); [|split; simpl; auto].
        simpl values. simpl current. rewrite <- app_assoc. reflexivity. }
      { simpl cutAt. erewrite IH; [reflexivity|]. split; simpl; auto. }
Qed.

Lemma tokenize_spec s : tokenize s = specTokens s.
Proof.
  unfold tokenize, specTokens. rewrite scanValues_finish.
  rewrite (scan_refines s scanInit None None 0%Z); [reflexivity|].
  split; reflexivity.
Qed.

Lemma scanLoop_app {A} (emit : str -> A) a : forall b st prev,
  scanLoop emit st prev (a ++ b)
  = scanLoop emit (scanLoop emit st prev a) (lastOr prev a) b.
Proof.
  induction a as [|c t IH]; intros b st prev; simpl; [reflexivity|].
  rewrite IH. f_equal. unfold lastOr.
  destruct t as [|d t']; [reflexivity|].
  change (last (c :: d :: t')) with (last (d :: t')).
  destruct (last (d :: t')) eqn:E; [reflexivity|].
  apply last_None in E. discriminate E.
Qed.

Lemma scan_plain {A} (emit : str -> A) seg : forall st prev,
  plain seg -> inString st = false ->
  scanLoop emit st prev seg
  = ScanState (values st) (current st ++ seg) false (stringChar st) (depth st).
Proof.
  unfold plain.
  induction seg as [|c t IH]; intros st prev Hp Hin; simpl.
  - rewrite app_nil_r. destruct st; simpl in *; subst; reflexivity.
  - simpl in Hp. apply andb_prop in Hp as [Hc Ht].
    unfold plainChar, isQuoteChar, isOpenChar, isCloseChar in Hc.
    apply negb_true_iff in Hc.
    repeat (apply orb_false_elim in Hc as [Hc ?]).
    assert (Hs : scanStep emit st prev c
                 = ScanState (values st) (current st ++ [c]) false
                             (stringChar st) (depth st)).
    { unfold scanStep. rewrite Hin. simpl.
      replace (ch_eqb c squote || ch_eqb c dquote) with false
        by (symmetry; destruct (ch_eqb c squote), (ch_eqb c dquote);
            simpl in *; congruence).
      rewrite H0, H1, H. simpl. reflexivity. }
    rewrite Hs, IH; simpl; auto.
    rewrite <- app_assoc. reflexivity.
Qed.

Lemma scan_joinComma more : forall first (st : scanState str) prev,
  plain first -> Forall plain more ->
  inString st = false -> depth st = 0%Z ->
  finish (fun t => t) (scanLoop (fun t => t) st prev (joinComma first more))
  = values st ++ dropEmptyLast (map trim ((current st ++ first) :: more)).
Proof.
  induction more as [|x t IH]; intros first st prev Hf Hm Hin Hd.
  - simpl joinComma. rewrite scan_plain by assumption. apply finish_single.
  - simpl joinComma. rewrite scanLoop_app.
    rewrite (scan_plain _ first) by assumption.
    inversion Hm as [|? ? Hx Ht]; subst.
    simpl scanLoop at 1.
    unfold scanStep at 1. simpl. rewrite Hd. simpl.
    rewrite IH by (simpl; auto). simpl values. simpl current.
    rewrite <- app_assoc. reflexivity.
Qed.

Lemma tokenize_joinComma first more :
  plain first -> Forall plain more ->
  tokenize (joinComma first more) = dropEmptyLast (map trim (first :: more)).
Proof.
  intros Hf Hm. unfold tokenize. rewrite scanValues_finish.
  rewrite scan_joinComma by (auto; reflexivity). reflexivity.
Qed.

Lemma without_notin c s : ~ In c (without c s).
Proof.
  unfold without. intros H. apply filter_In in H as [_ H].
  rewrite ch_eqb_refl in H. discriminate H.
Qed.

Lemma quote_not_space q : isQuoteChar q = true -> isWhiteSpace q = false.
Proof.
  unfold isQuoteChar. intros H. apply orb_prop in H as [H|H];
    apply ch_eqb_eq in H; subst q; reflexivity.
Qed.

Lemma scan_in_string {A} (emit : str -> A) q body : forall st prev,
  inString st = true -> stringChar st = Some q -> ~ In q body ->
  scanLoop emit st prev body
  = ScanState (values st) (current st ++ body) true (Some q) (depth st).
Proof.
  induction body as [|c t IH]; intros st prev Hin Hsc Hq; simpl.
  - rewrite app_nil_r. destruct st; simpl in *; subst; reflexivity.
  - assert (Hs : scanStep emit st prev c
                 = ScanState (values st) (current st ++ [c]) true (Some q)
                             (depth st)).
    { unfold scanStep. rewrite Hin, Hsc. simpl.
      rewrite bool_decide_eq_false_2; [reflexivity|].
      intros E. inversion E; subst. apply Hq. left. reflexivity. }
    rewrite Hs, IH; simpl; auto.
    + rewrite <- app_assoc. reflexivity.
    + intros H. apply Hq. right. exact H.
Qed.

Lemma tokenize_quoted q body :
  isQuoteChar q = true ->
  tokenize (q :: without q body ++ [q]) = [q :: without q body ++ [q]].
Proof.
  intros Hq. unfold tokenize. rewrite scanValues_finish.
  simpl scanLoop.
  assert (H0 : scanStep (fun t => t) scanInit None q
               = ScanState [] [q] true (Some q) 0%Z).
  { unfold scanStep, scanInit. simpl. unfold isQuoteChar in Hq. rewrite Hq.
    reflexivity. }
  rewrite H0, scanLoop_app.
  rewrite (scan_in_string _ q (without q body))
    by (first [reflexivity | apply without_notin]).
  simpl scanLoop. unfold scanStep at 1. simpl.
  unfold finish. simpl current. simpl values.
  rewrite trim_ends by (apply quote_not_space; exact Hq). reflexivity.
Qed.

Lemma scan_nested {A} (emit : str -> A) body : forall st prev,
  inString st = false -> depth st <> 0%Z ->
  scanLoop emit st prev (unbracketed body)
  = ScanState (values st) (current st ++ unbracketed body) false
              (stringChar st) (depth st).
Proof.
  induction body as [|c t IH]; intros st prev Hin Hd.
  - simpl. rewrite app_nil_r. destruct st; simpl in *; subst; reflexivity.
  - unfold unbracketed. simpl List.filter. fold (unbracketed t).
    destruct (isQuoteChar c || isOpenChar c || isCloseChar c) eqn:E; simpl negb;
      cbv iota.
    + apply IH; assumption.
    + repeat (apply orb_false_elim in E as [E ?]).
      simpl scanLoop.
      assert (Hs : scanStep emit st prev c
                   = ScanState (values st) (current st ++ [c]) false
                               (stringChar st) (depth st)).
      { unfold scanStep. rewrite Hin. simpl.
        unfold isQuoteChar, isOpenChar, isCloseChar in *.
        rewrite E, H1. simpl. rewrite H0, H.
        replace (depth st =? 0)%Z with false
          by (symmetry; apply Z.eqb_neq; exact Hd).
        rewrite andb_false_r. reflexivity. }
      rewrite Hs, IH; simpl; auto.
      rewrite <- app_assoc. reflexivity.
Qed.

Lemma tokenize_parenthesized body :
  tokenize ("("%char :: unbracketed body ++ [")"%char])
  = ["("%char :: unbracketed body ++ [")"%char]].
Proof.
  unfold tokenize. rewrite scanValues_finish.
  simpl scanLoop.
  change (scanStep (fun t => t) scanInit None "(")
    with (ScanState (@nil str) ["("%char] false None 1%Z).
  rewrite scanLoop_app.
  rewrite (scan_nested _ body) by (simpl; first [reflexivity | lia]).
  simpl scanLoop. unfold scanStep at 1. simpl.
  unfold finish. simpl current. simpl values.
  rewrite trim_ends by reflexivity. reflexivity.
Qed.

(** ** The matcher on the program's patterns *)

Ltac char_cases a := destruct a as [[] [] [] [] [] [] [] []].

Lemma digit_not_point a : isDigit a = true -> ch_eqb a "." = false.
Proof. char_cases a; vm_compute; congruence. Qed.

Lemma digit_not_minus a : isDigit a = true -> ch_eqb a "-" = false.
Proof. char_cases a; vm_compute; congruence. Qed.

Lemma digit_not_plus a : isDigit a = true -> ch_eqb a "+" = false.
Proof. char_cases a; vm_compute; congruence. Qed.

Lemma digit_not_space a : isDigit a = true -> isWhiteSpace a = false.
Proof. char_cases a; vm_compute; congruence. Qed.

Lemma repGreedy_class (m : mstate -> cont -> option mstate)
    (p : ascii -> bool) (k : cont) (s : str) :
  (forall x k0, m x k0 = match rest x with
                         | a :: t => if p a then k0 (step1 x t) else None
                         | [] => None
                         end) ->
  forall f n c, length s < f ->
  repGreedy m f (MState n s c) k = starCls p n s c k.
Proof.
  intros Hm.
  induction s as [|a t IH]; intros f n c Hf; destruct f as [|f];
    try (simpl in Hf; lia); cbn -[Nat.eqb]; rewrite Hm; cbn -[Nat.eqb].
  - reflexivity.
  - destruct (p a); [|reflexivity].
    replace (S n =? n) with false by (symmetry; apply Nat.eqb_neq; lia).
    unfold step1; cbn -[Nat.eqb].
    rewrite IH by (simpl in Hf; lia). reflexivity.
Qed.

Lemma repGreedy_cls ci p k s : forall f n c,
  length s < f ->
  repGreedy (rmatch ci (Cls p)) f (MState n s c) k = starCls p n s c k.
Proof. apply repGreedy_class. reflexivity. Qed.

Lemma rmatch_star_cls ci p x k :
  rmatch ci (Star (Cls p)) x k = starCls p (pos x) (rest x) (caps x) k.
Proof.
  destruct x as [n s c]. simpl rmatch.
  apply (repGreedy_cls ci p k s (S (length s)) n c). simpl. lia.
Qed.

Lemma rmatch_plus_cls ci p x k :
  rmatch ci (Plus (Cls p)) x k
  = match rest x with
    | a :: t => if p a then starCls p (S (pos x)) t (caps x) k else None
    | [] => None
    end.
Proof.
  destruct x as [n s c]. simpl.
  destruct s as [|a t]; [reflexivity|].
  destruct (p a); [|reflexivity].
  unfold step1; simpl.
  apply (repGreedy_cls ci p k t (S (length t)) (S n) c). lia.
Qed.

Lemma search_bol ci r s : forall p, 0 < p -> search ci (Cat Bol r) p s = None.
Proof.
  induction s as [|a t IH]; intros p Hp; simpl;
    unfold matchAt; cbn -[Nat.eqb];
    (replace (p =? 0) with false by (symmetry; apply Nat.eqb_neq; lia)).
  - reflexivity.
  - apply IH. lia.
Qed.

Lemma exec_bol ci r s :
  exec ci (Cat Bol r) s
  = match matchAt ci (Cat Bol r) 0 s with
    | Some y => Some (0, y)
    | None => None
    end.
Proof.
  unfold exec. destruct s as [|a t]; simpl;
    destruct (matchAt ci (Cat Bol r) 0 _); try reflexivity.
  apply search_bol. lia.
Qed.

Lemma starCls_eol p s : forall n c,
  starCls p n s c eolK
  = if forallb p s then Some (MState (n + length s) [] c) else None.
Proof.
  induction s as [|a t IH]; intros n c; simpl.
  - unfold eolK; simpl. rewrite Nat.add_0_r. reflexivity.
  - destruct (p a); simpl.
    + rewrite IH. destruct (forallb p t).
      * f_equal. f_equal. lia.
      * reflexivity.
    + reflexivity.
Qed.

Lemma plus_digits_eol n s c :
  rmatch false (Plus (Cls cls_d)) (MState n s c) eolK
  = if allDigits s then Some (MState (n + length s) [] c) else None.
Proof.
  rewrite rmatch_plus_cls. simpl. unfold allDigits.
  destruct s as [|a t]; [reflexivity|]. simpl.
  unfold cls_d. destruct (isDigit a); [|reflexivity].
  rewrite starCls_eol. simpl. destruct (forallb isDigit t); [|reflexivity].
  f_equal. f_equal. lia.
Qed.

Lemma test_bol ci r s :
  test ci (Cat Bol r) s
  = match matchAt ci (Cat Bol r) 0 s with Some _ => true | None => false end.
Proof.
  unfold test. rewrite exec_bol. destruct (matchAt ci (Cat Bol r) 0 s); reflexivity.
Qed.

Lemma opt_minus (K : cont) t :
  rmatch false (Opt (Lit "-")) (MState 0 t []) K
  = match t with
    | a :: t' =>
        if ch_eqb a "-" then
          match K (MState 1 t' []) with
          | Some z => Some z
          | None => K (MState 0 t [])
          end
        else K (MState 0 t [])
    | [] => K (MState 0 [] [])
    end.
Proof.
  destruct t as [|a t']; simpl; [reflexivity|].
  destruct (ch_eqb a "-"); reflexivity.
Qed.

Lemma int_tail n s c :
  rmatch false intTail (MState n s c) Some
  = if allDigits s then Some (MState (n + length s) [] c) else None.
Proof. exact (plus_digits_eol n s c). Qed.

Lemma test_intRe t : test false intRe t = isIntegerText t.
Proof.
  change intRe with (Cat Bol (Cat (Opt (Lit "-")) intTail)).
  rewrite test_bol.
  change (matchAt false (Cat Bol (Cat (Opt (Lit "-")) intTail)) 0 t)
    with (rmatch false (Opt (Lit "-")) (MState 0 t [])
            (fun y => rmatch false intTail y Some)).
  rewrite opt_minus. unfold isIntegerText, unsigned.
  destruct t as [|a t'].
  - rewrite int_tail. reflexivity.
  - destruct (ch_eqb a "-") eqn:Ea.
    + rewrite !int_tail. apply ch_eqb_eq in Ea. subst a.
      destruct (allDigits t'); reflexivity.
    + rewrite int_tail. destruct (allDigits (a :: t')); reflexivity.
Qed.

Lemma fracK_cons n a t c :
  fracK (MState n (a :: t) c)
  = if ch_eqb a "."
    then rmatch false (Plus (Cls cls_d)) (MState (S n) t c) eolK else None.
Proof. reflexivity. Qed.

Lemma starCls_frac s : forall n c,
  starCls isDigit n s c fracK
  = match skipn (length (takeDigits s)) s with
    | a :: fs =>
        if ch_eqb a "." && allDigits fs
        then Some (MState (n + length s) [] c) else None
    | [] => None
    end.
Proof.
  induction s as [|a t IH]; intros n c; [reflexivity|].
  simpl starCls. simpl takeDigits.
  destruct (isDigit a) eqn:Ed.
  - rewrite IH. rewrite fracK_cons, (digit_not_point a Ed). simpl.
    destruct (skipn (length (takeDigits t)) t) as [|b fs] eqn:Es; [reflexivity|].
    destruct (ch_eqb b "." && allDigits fs); [|reflexivity].
    f_equal. f_equal. lia.
  - rewrite fracK_cons.
    change (skipn (length (@nil ascii)) (a :: t)) with (a :: t).
    cbv beta iota.
    destruct (ch_eqb a ".") eqn:Ea; [|reflexivity].
    rewrite plus_digits_eol. simpl. destruct (allDigits t); [|reflexivity].
    f_equal. f_equal. lia.
Qed.

Lemma float_tail n s c :
  rmatch false floatTail (MState n s c) Some
  = if isDecimalBody s then Some (MState (n + length s) [] c) else None.
Proof.
  change (rmatch false floatTail (MState n s c) Some)
    with (rmatch false (Plus (Cls cls_d)) (MState n s c) fracK).
  rewrite rmatch_plus_cls. simpl. unfold isDecimalBody.
  destruct s as [|a t]; [reflexivity|]. simpl takeDigits.
  unfold cls_d. destruct (isDigit a); [|reflexivity].
  rewrite starCls_frac. simpl.
  destruct (skipn (length (takeDigits t)) t) as [|b fs]; [reflexivity|].
  destruct (ch_eqb b "." && allDigits fs); [|reflexivity].
  f_equal. f_equal. lia.
Qed.

Lemma isDecimalBody_minus t : isDecimalBody ("-"%char :: t) = false.
Proof. reflexivity. Qed.

Lemma test_floatRe t : test false floatRe t = isDecimalText t.
Proof.
  change floatRe with (Cat Bol (Cat (Opt (Lit "-")) floatTail)).
  rewrite test_bol.
  change (matchAt false (Cat Bol (Cat (Opt (Lit "-")) floatTail)) 0 t)
    with (rmatch false (Opt (Lit "-")) (MState 0 t [])
            (fun y => rmatch false floatTail y Some)).
  rewrite opt_minus. unfold isDecimalText, unsigned.
  destruct t as [|a t'].
  - rewrite float_tail. reflexivity.
  - destruct (ch_eqb a "-") eqn:Ea.
    + rewrite !float_tail. apply ch_eqb_eq in Ea. subst a.
      rewrite isDecimalBody_minus.
      destruct (isDecimalBody t'); reflexivity.
    + rewrite float_tail. destruct (isDecimalBody (a :: t')); reflexivity.
Qed.

(** ** Global replacement of a two-character text *)

Lemma search_ge ci r s : forall p q y,
  search ci r p s = Some (q, y) -> p <= q.
Proof.
  induction s as [|a t IH]; intros p q y; simpl;
    destruct (matchAt ci r p _); intros E; try (inversion E; subst; lia).
  apply IH in E. lia.
Qed.

Lemma replaceAll_go_skip f ci r rep p x s' :
  matchAt ci r p (x :: s') = None ->
  replaceAll_go (S f) ci r rep p (x :: s')
  = x :: replaceAll_go (S f) ci r rep (S p) s'.
Proof.
  intros Hm. simpl. rewrite Hm.
  destruct (search ci r (S p) s') as [[q y]|] eqn:E; [|reflexivity].
  pose proof (search_ge _ _ _ _ _ _ E) as Hq.
  replace (q - p) with (S (q - S p)) by lia. simpl.
  destruct (pos y =? q).
  - destruct (rest y); reflexivity.
  - reflexivity.
Qed.

Lemma matchAt_pair a b p s :
  matchAt false (Cat (Lit a) (Lit b)) p s
  = match s with
    | x :: y :: t =>
        if ch_eqb x a && ch_eqb y b then Some (MState (S (S p)) t []) else None
    | _ => None
    end.
Proof.
  unfold matchAt. destruct s as [|x [|y t]]; simpl.
  - reflexivity.
  - destruct (ch_eqb x a); reflexivity.
  - destruct (ch_eqb x a); simpl; [|reflexivity].
    destruct (ch_eqb y b); reflexivity.
Qed.

Lemma search_eq ci r p s :
  search ci r p s
  = match matchAt ci r p s with
    | Some y => Some (p, y)
    | None => match s with [] => None | _ :: t => search ci r (S p) t end
    end.
Proof. destruct s; reflexivity. Qed.

Lemma replaceAll_go_hit f ci r rep p s y :
  matchAt ci r p s = Some y -> pos y <> p ->
  replaceAll_go (S f) ci r rep p s
  = rep ++ replaceAll_go f ci r rep (pos y) (rest y).
Proof.
  intros Hm Hp. simpl. rewrite search_eq, Hm.
  replace (pos y =? p) with false by (symmetry; apply Nat.eqb_neq; lia).
  rewrite Nat.sub_diag. reflexivity.
Qed.

Lemma replaceAll_go_nil f ci r rep p :
  matchAt ci r p [] = None -> replaceAll_go (S f) ci r rep p [] = [].
Proof. intros Hm. simpl. rewrite Hm. reflexivity. Qed.

Lemma replaceAll_go_pair a b rep f : forall s p,
  length s < f ->
  replaceAll_go f false (Cat (Lit a) (Lit b)) rep p s = replacePair a b rep s.
Proof.
  induction f as [|f IHf]; intros s p Hf; [lia|].
  revert p. induction s as [|x t IHs]; intros p.
  - apply replaceAll_go_nil. rewrite matchAt_pair. reflexivity.
  - destruct t as [|y t'].
    + rewrite replaceAll_go_skip by (rewrite matchAt_pair; reflexivity).
      rewrite IHs by (simpl in *; lia). reflexivity.
    + destruct (ch_eqb x a && ch_eqb y b) eqn:E.
      * rewrite (replaceAll_go_hit f false _ rep p _ (MState (S (S p)) t' []))
          by (rewrite ?matchAt_pair, ?E; simpl; (reflexivity || lia)).
        simpl pos. simpl rest.
        rewrite IHf by (simpl in *; lia).
        simpl replacePair. rewrite E. reflexivity.
      * rewrite replaceAll_go_skip by (rewrite matchAt_pair, E; reflexivity).
        rewrite IHs by (simpl in *; lia).
        simpl replacePair. rewrite E. reflexivity.
Qed.

Lemma replaceAll_pair a b rep s :
  replaceAll false (Cat (Lit a) (Lit b)) rep s = replacePair a b rep s.
Proof. unfold replaceAll. apply replaceAll_go_pair. lia. Qed.

Lemma replacePair_cons_ne a b rep x s :
  ch_eqb x a = false ->
  replacePair a b rep (x :: s) = x :: replacePair a b rep s.
Proof.
  intros E. destruct s as [|y t]; simpl; [reflexivity|].
  rewrite E. reflexivity.
Qed.

Lemma replacePair_cons2_ne a b rep x y s :
  ch_eqb y b = false ->
  replacePair a b rep (x :: y :: s) = x :: replacePair a b rep (y :: s).
Proof.
  intros E. simpl. rewrite E, andb_false_r. reflexivity.
Qed.

Lemma replacePair_head a b r q t :
  ch_eqb q b = false ->
  exists h rest', replacePair a b [r] (q :: t) = h :: rest' /\ (h = q \/ h = r).
Proof.
  intros E. destruct t as [|y t']; simpl.
  - eauto.
  - destruct (ch_eqb q a && ch_eqb y b); simpl; eauto.
Qed.

Lemma unescape_pairs_len n : forall s,
  length s <= n ->
  replacePair backslash dquote [dquote] (replacePair backslash squote [squote] s)
  = unescapeQuotes s.
Proof.
  induction n as [|n IH]; intros s Hn.
  - destruct s; [reflexivity | simpl in Hn; lia].
  - destruct s as [|c [|q t']]; [reflexivity | reflexivity |].
    assert (Ht : length t' <= n) by (simpl in Hn; lia).
    assert (Hqt : length (q :: t') <= n) by (simpl in Hn |- *; lia).
    destruct (ch_eqb c backslash) eqn:Ec.
    + apply ch_eqb_eq in Ec. subst c.
      destruct (ch_eqb q squote) eqn:Es.
      { apply ch_eqb_eq in Es. subst q.
        change (replacePair backslash squote [squote] (backslash :: squote :: t'))
          with (squote :: replacePair backslash squote [squote] t').
        rewrite replacePair_cons_ne by reflexivity.
        rewrite IH by exact Ht. reflexivity. }
      destruct (ch_eqb q dquote) eqn:Ed.
      { apply ch_eqb_eq in Ed. subst q.
        rewrite replacePair_cons2_ne by reflexivity.
        rewrite (replacePair_cons_ne backslash squote _ dquote) by reflexivity.
        change (replacePair backslash dquote [dquote]
                  (backslash :: dquote :: replacePair backslash squote [squote] t'))
          with (dquote :: replacePair backslash dquote [dquote]
                            (replacePair backslash squote [squote] t')).
        rewrite IH by exact Ht. reflexivity. }
      rewrite replacePair_cons2_ne by exact Es.
      destruct (replacePair_head backslash squote squote q t' Es)
        as (h & rest' & Hh & Hcase).
      assert (Hhd : ch_eqb h dquote = false).
      { destruct Hcase; subst h; [exact Ed | reflexivity]. }
      pose proof (IH (q :: t') Hqt) as IHq. rewrite Hh in IHq |- *.
      rewrite replacePair_cons2_ne by exact Hhd. rewrite IHq.
      simpl unescapeQuotes at 2. unfold isQuoteChar. rewrite Es, Ed. reflexivity.
    + rewrite replacePair_cons_ne by exact Ec.
      rewrite replacePair_cons_ne by exact Ec.
      rewrite IH by exact Hqt.
      simpl unescapeQuotes at 2. rewrite Ec. reflexivity.
Qed.

Lemma unescape_pairs s :
  replaceAll false escDquoteRe [dquote] (replaceAll false escSquoteRe [squote] s)
  = unescapeQuotes s.
Proof.
  unfold escDquoteRe, escSquoteRe. rewrite !replaceAll_pair.
  apply (unescape_pairs_len (length s)). lia.
Qed.

(** ** The literal normalizer *)

Lemma upper_is_N a : ch_eqb (upper a) "N" = ch_eqb a "N" || ch_eqb a "n".
Proof. char_cases a; vm_compute; reflexivity. Qed.

Lemma upper_is_U a : ch_eqb (upper a) "U" = ch_eqb a "U" || ch_eqb a "u".
Proof. char_cases a; vm_compute; reflexivity. Qed.

Lemma upper_is_L a : ch_eqb (upper a) "L" = ch_eqb a "L" || ch_eqb a "l".
Proof. char_cases a; vm_compute; reflexivity. Qed.

Lemma str_eqb_cons x s y r :
  str_eqb (x :: s) (y :: r) = ch_eqb x y && str_eqb s r.
Proof.
  apply eq_true_iff_eq. rewrite andb_true_iff, !str_eqb_eq, ch_eqb_eq.
  split; [intros E; inversion E; auto | intros [-> ->]; reflexivity].
Qed.

Lemma str_eqb_nil_cons y r : str_eqb [] (y :: r) = false.
Proof. reflexivity. Qed.

Lemma str_eqb_cons_nil x s : str_eqb (x :: s) [] = false.
Proof. reflexivity. Qed.

Lemma null_word t : str_eqb (toUpperCase t) (js "NULL") = isNullWord t.
Proof.
  change (js "NULL") with ["N"; "U"; "L"; "L"]%char.
  destruct t as [|a [|b [|c [|d [|e t]]]]]; try reflexivity;
    unfold toUpperCase, isNullWord; simpl map;
    rewrite ?str_eqb_cons, ?str_eqb_cons_nil, ?str_eqb_nil_cons,
            ?upper_is_N, ?upper_is_U, ?upper_is_L, ?andb_false_r;
    try reflexivity.
  change (str_eqb [] []) with true. rewrite andb_true_r, !andb_assoc. reflexivity.
Qed.

Lemma startsWith_single q t :
  startsWith [q] t = match t with c :: _ => ch_eqb q c | [] => false end.
Proof. destruct t; simpl; [reflexivity | apply andb_true_r]. Qed.

Lemma endsWith_single q t : endsWith [q] t = bool_decide (last t = Some q).
Proof.
  unfold endsWith. simpl rev at 1. rewrite startsWith_single.
  destruct t as [|c t'] using rev_ind; [reflexivity|].
  rewrite rev_app_distr, last_snoc. simpl.
  apply eq_true_iff_eq. rewrite ch_eqb_eq, bool_decide_eq_true.
  split; congruence.
Qed.

Lemma quoted_test t :
  (startsWith [squote] t && endsWith [squote] t)
  || (startsWith [dquote] t && endsWith [dquote] t) = isQuoted t.
Proof.
  rewrite !endsWith_single, !startsWith_single. unfold isQuoted, isQuoteChar.
  destruct t as [|c t']; [reflexivity|].
  destruct (ch_eqb squote c) eqn:E1.
  - apply ch_eqb_eq in E1. subst c. simpl.
    destruct (bool_decide (last (squote :: t') = Some squote)); reflexivity.
  - destruct (ch_eqb dquote c) eqn:E2.
    + apply ch_eqb_eq in E2. subst c. reflexivity.
    + unfold ch_eqb in *. rewrite (Ascii.eqb_sym c squote), E1.
      rewrite (Ascii.eqb_sym c dquote), E2. reflexivity.
Qed.

Lemma slice_strip t : slice 1 (-1) t = stripOuter t.
Proof.
  unfold slice, stripOuter. destruct t as [|c t']; [reflexivity|].
  cbv zeta.
  change ((1 <? 0)%Z) with false. change ((-1 <? 0)%Z) with true. cbv iota.
  assert (H1 : Z.to_nat (Z.min 1 (Z.of_nat (length (c :: t')))) = 1)
    by (simpl length; lia).
  assert (H2 : Z.to_nat
                 (Z.max (Z.max (Z.of_nat (length (c :: t')) + -1) 0
                         - Z.min 1 (Z.of_nat (length (c :: t')))) 0)
               = pred (length t'))
    by (simpl length; lia).
  rewrite H1, H2. simpl. symmetry. apply removelast_firstn_len.
Qed.

Lemma takeDigits_all s : forallb isDigit s = true -> takeDigits s = s.
Proof.
  induction s as [|a t IH]; simpl; [reflexivity|].
  intros H. apply andb_prop in H as [Ha Ht]. rewrite Ha, IH; auto.
Qed.

Lemma allDigits_cons s :
  allDigits s = true -> exists a t, s = a :: t /\ isDigit a = true
                                   /\ forallb isDigit t = true.
Proof.
  unfold allDigits. destruct s as [|a t]; simpl; [discriminate|].
  intros H. apply andb_prop in H as [Ha Ht]. eauto.
Qed.

Lemma trimStart_nonspace a t : isWhiteSpace a = false -> trimStart (a :: t) = a :: t.
Proof. intros H. simpl. rewrite H. reflexivity. Qed.

Lemma signOf_digit a t :
  isDigit a = true -> signOf (a :: t) = (1%Z, a :: t).
Proof.
  intros H. unfold signOf. rewrite (digit_not_minus a H), (digit_not_plus a H).
  reflexivity.
Qed.

Lemma parseInt_body neg body :
  allDigits body = true ->
  match takeDigits body with
  | [] => NaN
  | ds => nearest neg (digitsValue ds) 0
  end = nearest neg (digitsValue body) 0.
Proof.
  intros H. destruct (allDigits_cons _ H) as (a & t & -> & Ha & Ht).
  rewrite takeDigits_all by (simpl; rewrite Ha, Ht; reflexivity). reflexivity.
Qed.

Lemma parseInt_integer t : isIntegerText t = true -> parseInt t = integerValue t.
Proof.
  unfold isIntegerText, parseInt, integerValue, unsigned, signZ.
  destruct t as [|c t']; [discriminate|].
  destruct (ch_eqb c "-") eqn:Ec; intros H.
  - apply ch_eqb_eq in Ec. subst c.
    rewrite trimStart_nonspace by reflexivity.
    change (signOf ("-"%char :: t')) with ((-1)%Z, t').
    exact (parseInt_body _ _ H).
  - destruct (allDigits_cons _ H) as (a & t & E & Ha & Ht).
    inversion E; subst a t.
    rewrite trimStart_nonspace by (apply digit_not_space; exact Ha).
    rewrite signOf_digit by exact Ha.
    exact (parseInt_body _ _ H).
Qed.

Lemma parseFloat_body neg body :
  isDecimalBody body = true ->
  (let ip := takeDigits body in
   let after := skipn (length ip) body in
   let fp := match after with
             | c :: t => if ch_eqb c "." then takeDigits t else []
             | [] => []
             end in
   match ip ++ fp with
   | [] => NaN
   | ds => nearest neg (digitsValue ds) (length fp)
   end)
  = (let ip := takeDigits body in
     let fs := skipn (S (length ip)) body in
     nearest neg (digitsValue (ip ++ fs)) (length fs)).
Proof.
  unfold isDecimalBody. cbv zeta.
  destruct (takeDigits body) as [|d ip] eqn:Eip; [discriminate|].
  simpl negb. rewrite andb_true_l.
  assert (Hs : skipn (S (length (d :: ip))) body
               = skipn 1 (skipn (length (d :: ip)) body)).
  { rewrite skipn_skipn. reflexivity. }
  rewrite Hs.
  destruct (skipn (length (d :: ip)) body) as [|c fs]; [discriminate|].
  intros H. apply andb_prop in H as [Hc Hfs]. rewrite Hc.
  unfold allDigits in Hfs. apply andb_prop in Hfs as [_ Hfs].
  rewrite takeDigits_all by exact Hfs. reflexivity.
Qed.

Lemma parseFloat_decimal t : isDecimalText t = true -> parseFloat t = decimalValue t.
Proof.
  unfold isDecimalText, parseFloat, decimalValue, unsigned, signZ.
  destruct t as [|c t']; [discriminate|].
  destruct (ch_eqb c "-") eqn:Ec; intros H.
  - apply ch_eqb_eq in Ec. subst c.
    rewrite trimStart_nonspace by reflexivity.
    change (signOf ("-"%char :: t')) with ((-1)%Z, t').
    exact (parseFloat_body _ _ H).
  - assert (Ha : isDigit c = true).
    { unfold isDecimalBody in H. simpl in H. destruct (isDigit c); [reflexivity|].
      discriminate H. }
    rewrite trimStart_nonspace by (apply digit_not_space; exact Ha).
    rewrite signOf_digit by exact Ha.
    exact (parseFloat_body _ _ H).
Qed.

(** ** Numbers *)

Lemma digits2_size p : digits2_pos p = Pos.size p.
Proof. induction p; simpl; congruence. Qed.

Lemma digits2_bound p n :
  (0 <= n)%Z -> (Zpos p < 2 ^ n)%Z -> (Zpos (digits2_pos p) <= n)%Z.
Proof.
  intros Hn H. rewrite digits2_size.
  assert (L : (Z.log2 (Zpos p) < n)%Z) by (apply Z.log2_lt_pow2; lia).
  destruct p; simpl in L |- *; lia.
Qed.

Lemma shiftl_pos p k : Z.shiftl (Zpos p) (Zpos k) = Zpos (Pos.iter xO p k).
Proof.
  unfold Z.shiftl. revert p. induction k using Pos.peano_ind; intros p.
  - reflexivity.
  - rewrite !Pos.iter_succ, IHk. reflexivity.
Qed.

Lemma digits2_iter p k :
  digits2_pos (Pos.iter xO p k) = (digits2_pos p + k)%positive.
Proof.
  induction k using Pos.peano_ind.
  - simpl. lia.
  - rewrite Pos.iter_succ. simpl. rewrite IHk. lia.
Qed.

Lemma iter_xO_value p k : Zpos (Pos.iter xO p k) = (Zpos p * 2 ^ Zpos k)%Z.
Proof. rewrite <- shiftl_pos. apply Z.shiftl_mul_pow2. lia. Qed.

Lemma iter_xO_head p k :
  exists r, Pos.iter xO p k = xO r /\ (Zpos r = Zpos p * 2 ^ (Zpos k - 1))%Z
            /\ (Zpos (digits2_pos r) = Zpos (digits2_pos p) + Zpos k - 1)%Z.
Proof.
  destruct (Pos.eq_dec k 1%positive) as [->|Hk].
  - exists p. simpl. split; [reflexivity|]. split; lia.
  - assert (E : k = Pos.succ (Pos.pred k)) by (rewrite Pos.succ_pred; auto).
    exists (Pos.iter xO p (Pos.pred k)). rewrite E at 1. rewrite Pos.iter_succ.
    split; [reflexivity|]. rewrite iter_xO_value, digits2_iter.
    split; [f_equal; f_equal; lia | lia].
Qed.

(** An integer of at most 53 bits is a Number: rounding shifts its bits
    to the top of the mantissa and loses none. *)
Lemma nearest_exact neg p :
  (Zpos p < 2 ^ 53)%Z ->
  exists r, nearest neg (Zpos p) 0
            = S754_finite neg r (Zpos (digits2_pos p) - 53)
            /\ (Zpos r = Zpos p * 2 ^ (53 - Zpos (digits2_pos p)))%Z.
Proof.
  intros H. pose proof (digits2_bound p 53 ltac:(lia) H) as Hd.
  set (d := digits2_pos p) in *.
  unfold nearest, SFdiv, SFdiv_core_binary.
  change (Z.to_pos (10 ^ Z.of_nat 0)) with 1%positive.
  cbn [Zdigits2 digits2_pos]. fold d.
  assert (E1 : Z.min (fexp 53 1024 (Zpos d + 0 - (1 + 0))) (0 - 0)
               = (Zpos d - 54)%Z).
  { unfold fexp, emin. lia. }
  rewrite E1.
  assert (E2 : (0 - 0 - (Zpos d - 54) = Zpos (54 - d))%Z) by lia.
  rewrite E2, shiftl_pos.
  destruct (iter_xO_head p (54 - d)) as (r & Er & Ev & Ed).
  rewrite Er.
  assert (E3 : Z.div_eucl (Zpos r~0) 1 = (Zpos r~0, 0%Z)).
  { pose proof (Z.div_1_r (Zpos r~0)) as A.
    pose proof (Z.mod_1_r (Zpos r~0)) as B.
    unfold Z.div, Z.modulo in A, B.
    destruct (Z.div_eucl (Zpos r~0) 1) as [q0 r0]. congruence. }
  rewrite E3.
  change (new_location 1 0) with loc_Exact.
  unfold binary_round_aux, shr_fexp.
  cbn [Zdigits2 digits2_pos shr_record_of_loc].
  assert (E4 : (fexp 53 1024 (Zpos (Pos.succ (digits2_pos r)) + (Zpos d - 54))
                - (Zpos d - 54) = 1)%Z).
  { unfold fexp, emin. lia. }
  rewrite E4.
  cbn [shr SpecFloat.iter_pos shr_1 shr_m loc_of_shr_record round_nearest_even
       shr_record_of_loc Zdigits2 orb].
  assert (E5 : (fexp 53 1024 (Zpos (digits2_pos r) + (Zpos d - 54 + 1))
                - (Zpos d - 54 + 1) = 0)%Z).
  { unfold fexp, emin. lia. }
  rewrite E5. cbn [shr shr_m].
  replace (Zpos d - 54 + 1 <=? 1024 - 53)%Z with true
    by (symmetry; apply Z.leb_le; lia).
  exists r. split.
  - rewrite xorb_false_r. f_equal. lia.
  - rewrite Ev. f_equal. f_equal. lia.
Qed.

Lemma integerOf_scaled s r p d :
  (Zpos d <= 53)%Z -> (Zpos r = Zpos p * 2 ^ (53 - Zpos d))%Z ->
  integerOf (S754_finite s r (Zpos d - 53))
  = Some (if s then Zneg p else Zpos p).
Proof.
  intros Hd Ev. unfold integerOf.
  assert (En : Zneg r = (Zneg p * 2 ^ (53 - Zpos d))%Z).
  { change (Zneg r) with (- Zpos r)%Z. rewrite Ev.
    change (Zneg p) with (- Zpos p)%Z. lia. }
  destruct (0 <=? Zpos d - 53)%Z eqn:E0.
  - apply Z.leb_le in E0.
    replace (53 - Zpos d)%Z with 0%Z in * by lia.
    replace (Zpos d - 53)%Z with 0%Z by lia.
    f_equal. destruct s; lia.
  - apply Z.leb_gt in E0.
    replace (- (Zpos d - 53))%Z with (53 - Zpos d)%Z by lia.
    rewrite Ev, Z.mod_mul by lia. cbn [Z.eqb].
    rewrite <- Ev. destruct s.
    + rewrite En, Z.div_mul by lia. reflexivity.
    + rewrite Ev, Z.div_mul by lia. reflexivity.
Qed.

(** The Number nearest to a magnitude below 2^53 is that integer, under
    the sign given. *)
Lemma nearest_integer neg m :
  (0 <= m < 2 ^ 53)%Z ->
  integerOf (nearest neg m 0) = Some (if neg then (- m)%Z else m).
Proof.
  intros [H0 H]. destruct m as [|p|p]; [destruct neg; reflexivity | | lia].
  destruct (nearest_exact neg p H) as (r & E & Ev). rewrite E.
  rewrite (integerOf_scaled neg r p); [destruct neg; reflexivity | | exact Ev].
  apply digits2_bound; [lia | exact H].
Qed.

Lemma safeInteger_bound z : safeInteger z -> (Z.abs z < 2 ^ 53)%Z.
Proof. unfold safeInteger. intros H. apply Z.leb_le in H. lia. Qed.

Lemma Dec_exact z : safeInteger z -> integerOf (Dec z 0) = Some z.
Proof.
  intros H. apply safeInteger_bound in H. unfold Dec.
  rewrite nearest_integer by lia.
  destruct (z <? 0)%Z eqn:E; [apply Z.ltb_lt in E | apply Z.ltb_ge in E];
    f_equal; lia.
Qed.

Lemma digitsValue_nonneg ds : (0 <= digitsValue ds)%Z.
Proof.
  unfold digitsValue.
  assert (G : forall acc, (0 <= acc)%Z ->
              (0 <= fold_left (fun a c => (a * 10 + digitVal c)%Z) ds acc)%Z).
  { induction ds as [|c t IH]; intros acc Ha; [exact Ha|].
    simpl. apply IH. unfold digitVal. lia. }
  apply G. lia.
Qed.

Lemma cleanValue_spec token : cleanValue token = normalizeSpec token.
Proof.
  unfold cleanValue, normalizeSpec.
  rewrite null_word, quoted_test, test_intRe, test_floatRe, slice_strip,
          unescape_pairs.
  destruct (isNullWord (trim token)); [reflexivity|].
  destruct (isQuoted (trim token)); [reflexivity|].
  destruct (isIntegerText (trim token)) eqn:Ei.
  { rewrite parseInt_integer by exact Ei. reflexivity. }
  destruct (isDecimalText (trim token)) eqn:Ef.
  { rewrite parseFloat_decimal by exact Ef. reflexivity. }
  reflexivity.
Qed.

Lemma integerText_plain t :
  isIntegerText t = true -> isNullWord t = false /\ isQuoted t = false.
Proof.
  unfold isIntegerText, unsigned. destruct t as [|c r]; [discriminate|].
  destruct (ch_eqb c "-") eqn:Ec; intros H.
  - apply ch_eqb_eq in Ec. subst c. split; [|reflexivity].
    destruct r as [|? [|? [|? [|? ?]]]]; reflexivity.
  - destruct (allDigits_cons _ H) as (a & t & E & Ha & _).
    inversion E; subst a t. split.
    + unfold isNullWord.
      replace (ch_eqb c "N" || ch_eqb c "n") with false.
      { destruct r as [|? [|? [|? [|? ?]]]]; reflexivity. }
      clear -Ha. revert Ha. char_cases c; vm_compute; congruence.
    + unfold isQuoted.
      replace (isQuoteChar c) with false; [reflexivity|].
      clear -Ha. revert Ha. char_cases c; vm_compute; congruence.
Qed.

Lemma signZ_cases t :
  (signZ t = 1%Z /\ (signZ t <? 0)%Z = false)
  \/ (signZ t = (-1)%Z /\ (signZ t <? 0)%Z = true).
Proof.
  unfold signZ. destruct t as [|c r]; [left; split; reflexivity|].
  destruct (ch_eqb c "-"); [right | left]; split; reflexivity.
Qed.

(** A token of digits that denotes a safe integer yields that integer. *)
Lemma cleanValue_integer token :
  isIntegerText (trim token) = true ->
  safeInteger (integerDenoted (trim token)) ->
  yieldsItsInteger token.
Proof.
  intros Hi Hs. exists (integerValue (trim token)). split.
  - rewrite cleanValue_spec. unfold normalizeSpec.
    destruct (integerText_plain _ Hi) as [-> ->]. rewrite Hi. reflexivity.
  - apply safeInteger_bound in Hs. unfold integerValue, integerDenoted in *.
    pose proof (digitsValue_nonneg (unsigned (trim token))) as H0.
    destruct (signZ_cases (trim token)) as [[E1 E2]|[E1 E2]];
      rewrite E1 in Hs; rewrite E2, E1;
      rewrite nearest_integer by lia; f_equal; lia.
Qed.

(** ** Capture groups of a successful match *)

Lemma keeps_refl x : keeps x x [].
Proof. intros n [[]|H]; exact H. Qed.

Lemma keeps_step x t : keeps x (step1 x t) [].
Proof. intros n [[]|H]; exact H. Qed.

Lemma keeps_trans x y z e1 e2 :
  keeps x y e1 -> keeps y z e2 -> keeps x z (e1 ++ e2).
Proof.
  intros H1 H2 n [Hin|Hc].
  - apply in_app_or in Hin as [Hin|Hin].
    + apply H2. right. apply H1. left. exact Hin.
    + apply H2. left. exact Hin.
  - apply H2. right. apply H1. right. exact Hc.
Qed.

Lemma keeps_weaken x y e : keeps x y e -> keeps x y [].
Proof. intros H n [[]|Hc]. apply H. right. exact Hc. Qed.

Lemma repGreedy_sound m e : sound m e -> forall f, sound (repGreedy m f) [].
Proof.
  intros Hm f. induction f as [|f IH]; intros x k z; simpl.
  - intros H. exists x. split; [exact H | apply keeps_refl].
  - destruct (m x _) as [z'|] eqn:E.
    + intros Hz. inversion Hz; subst z'. apply Hm in E as (y & Hy & Hk).
      destruct (pos y =? pos x); [discriminate|].
      apply IH in Hy as (y' & Hy' & Hk').
      exists y'. split; [exact Hy'|].
      apply (keeps_weaken _ _ (e ++ [])). eapply keeps_trans; eassumption.
    + intros H. exists x. split; [exact H | apply keeps_refl].
Qed.

Lemma repLazy_sound m e : sound m e -> forall f, sound (repLazy m f) [].
Proof.
  intros Hm f. induction f as [|f IH]; intros x k z; simpl.
  - intros H. exists x. split; [exact H | apply keeps_refl].
  - destruct (k x) as [z'|] eqn:E.
    + intros Hz. inversion Hz; subst z'.
      exists x. split; [exact E | apply keeps_refl].
    + intros H. apply Hm in H as (y & Hy & Hk).
      destruct (pos y =? pos x); [discriminate|].
      apply IH in Hy as (y' & Hy' & Hk').
      exists y'. split; [exact Hy'|].
      apply (keeps_weaken _ _ (e ++ [])). eapply keeps_trans; eassumption.
Qed.

Lemma rmatch_sound ci r : sound (rmatch ci r) (mandatory r).
Proof.
  induction r as [| c | p | | | r1 IH1 r2 IH2 | r IH | r IH | r IH | r IH | g r IH];
    intros x k z.
  - simpl. intros H. exists x. split; [exact H | apply keeps_refl].
  - simpl. destruct (rest x) as [|a t]; [discriminate|].
    destruct (ch_eqb _ _); [|discriminate].
    intros H. exists (step1 x t). split; [exact H | apply keeps_step].
  - simpl. destruct (rest x) as [|a t]; [discriminate|].
    destruct (p a); [|discriminate].
    intros H. exists (step1 x t). split; [exact H | apply keeps_step].
  - simpl. destruct (pos x =? 0); [|discriminate].
    intros H. exists x. split; [exact H | apply keeps_refl].
  - simpl. destruct (rest x); [|discriminate].
    intros H. exists x. split; [exact H | apply keeps_refl].
  - simpl. intros H. apply IH1 in H as (y1 & H1 & K1).
    apply IH2 in H1 as (y2 & H2 & K2).
    exists y2. split; [exact H2 | eapply keeps_trans; eassumption].
  - simpl. destruct (rmatch ci r x _) as [z'|] eqn:E.
    + intros Hz. inversion Hz; subst z'. apply IH in E as (y & Hy & Hk).
      destruct (pos y =? pos x); [discriminate|].
      exists y. split; [exact Hy | eapply keeps_weaken; exact Hk].
    + intros H. exists x. split; [exact H | apply keeps_refl].
  - intros H.
    exact (repGreedy_sound _ _ IH (S (length (rest x))) x k z H).
  - intros H.
    change (rmatch ci r x
              (fun y => repGreedy (rmatch ci r) (S (length (rest y))) y k)
            = Some z) in H.
    apply IH in H as (y1 & H1 & K1).
    apply (repGreedy_sound _ _ IH) in H1 as (y2 & H2 & K2).
    exists y2. split; [exact H2|].
    change (mandatory (Plus r)) with (mandatory r).
    rewrite <- (app_nil_r (mandatory r)). eapply keeps_trans; eassumption.
  - intros H.
    change (rmatch ci r x
              (fun y => repLazy (rmatch ci r) (S (length (rest y))) y k)
            = Some z) in H.
    apply IH in H as (y1 & H1 & K1).
    apply (repLazy_sound _ _ IH) in H1 as (y2 & H2 & K2).
    exists y2. split; [exact H2|].
    change (mandatory (PlusLazy r)) with (mandatory r).
    rewrite <- (app_nil_r (mandatory r)). eapply keeps_trans; eassumption.
  - simpl. intros H. apply IH in H as (y & Hy & Hk).
    eexists. split; [exact Hy|].
    intros n Hn. unfold captured. simpl.
    destruct (n =? g) eqn:Eg; [eexists; reflexivity|].
    apply Hk. destruct Hn as [[Hn|Hn]|Hn]; auto.
    apply Nat.eqb_neq in Eg. congruence.
Qed.

Lemma search_sound ci r s : forall p q y,
  search ci r p s = Some (q, y) ->
  forall n, In n (mandatory r) -> captured n (caps y).
Proof.
  induction s as [|a t IH]; intros p q y; simpl;
    destruct (matchAt ci r p _) as [y'|] eqn:E; intros H;
    try discriminate;
    try (inversion H; subst y' q;
         unfold matchAt in E; apply rmatch_sound in E as (y0 & Hy0 & Hk);
         inversion Hy0; subst y0; intros n Hn; apply Hk; left; exact Hn).
  eapply IH; exact H.
Qed.

Lemma exec_captures ci r s q y n :
  exec ci r s = Some (q, y) -> In n (mandatory r) -> captured n (caps y).
Proof. intros H. exact (search_sound ci r s 0 q y H n). Qed.

Lemma ts_columnOf_total d : exists oc, Ts.columnOf d = Some oc.
Proof.
  unfold Ts.columnOf. destruct (skipDefinition _); [eauto|].
  destruct (exec false Ts.columnRe (trim d)) as [[q y]|] eqn:E; [|eauto].
  destruct (exec_captures _ _ _ _ _ 1 E) as [v1 H1]; [simpl; auto|].
  destruct (exec_captures _ _ _ _ _ 2 E) as [v2 H2]; [simpl; auto|].
  rewrite H1, H2. eauto.
Qed.

Lemma js_columnOf_total d : exists oc, Js.columnOf d = Some oc.
Proof.
  unfold Js.columnOf. destruct (skipDefinition _); [eauto|].
  destruct (exec false Js.columnRe (trim d)) as [[q y]|] eqn:E; [|eauto].
  destruct (exec_captures _ _ _ _ _ 1 E) as [v1 H1]; [simpl; auto|].
  destruct (exec_captures _ _ _ _ _ 2 E) as [v2 H2]; [simpl; auto 10|].
  rewrite H1, H2. eauto.
Qed.

Lemma collectColumns_total f defs :
  (forall d, exists oc, f d = Some oc) ->
  exists cs, collectColumns f defs = Some cs.
Proof.
  intros Hf. induction defs as [|d t [cs IH]]; simpl; [eauto|].
  destruct (Hf d) as [oc ->]. rewrite IH. eauto.
Qed.

Lemma ts_parseCreateTable_head sql :
  exists cols,
    Ts.parseCreateTable sql
    = match tableHead sql with
      | Some (tableName, _) => Some (mkTable tableName cols [])
      | None => None
      end.
Proof.
  unfold Ts.parseCreateTable. destruct (tableHead sql) as [[nm part]|].
  - destruct (collectColumns_total Ts.columnOf (Ts.splitColumns part)
                ts_columnOf_total) as [cs ->]. eauto.
  - exists []. reflexivity.
Qed.

Lemma js_parseCreateTable_head sql :
  exists cols,
    Js.parseCreateTable sql
    = match tableHead sql with
      | Some (tableName, _) => Some (mkTable tableName cols [])
      | None => None
      end.
Proof.
  unfold Js.parseCreateTable. destruct (tableHead sql) as [[nm part]|].
  - destruct (collectColumns_total Js.columnOf (splitChar "010" part)
                js_columnOf_total) as [cs ->]. eauto.
  - exists []. reflexivity.
Qed.

Lemma ts_parse_data sql ti : Ts.parseCreateTable sql = Some ti -> data ti = [].
Proof.
  destruct (ts_parseCreateTable_head sql) as [cols ->].
  destruct (tableHead sql) as [[nm part]|]; [|discriminate].
  intros E; inversion E; reflexivity.
Qed.

Lemma js_parse_data sql ti : Js.parseCreateTable sql = Some ti -> data ti = [].
Proof.
  destruct (js_parseCreateTable_head sql) as [cols ->].
  destruct (tableHead sql) as [[nm part]|]; [|discriminate].
  intros E; inversion E; reflexivity.
Qed.

(** ** Rows *)

Lemma setProp_keys obj k v k' :
  is_Some (props (setProp obj k v) !! k') ->
  k' = k \/ is_Some (props obj !! k').
Proof.
  unfold setProp.
  destruct (str_eqb k protoKey && negb (nullProto obj)
            && negb (bool_decide (is_Some (props obj !! k)))).
  - destruct v; simpl; auto.
  - simpl. destruct (decide (k = k')) as [->|Hne]; [auto|].
    rewrite lookup_insert_ne by exact Hne. auto.
Qed.

Lemma assignColumns_keys cols : forall index record obj k,
  is_Some (props (assignColumns cols index record obj) !! k) ->
  In k (map name cols) \/ is_Some (props obj !! k).
Proof.
  induction cols as [|col t IH]; intros index record obj k H; simpl in *.
  - auto.
  - apply IH in H as [H|H]; [auto|].
    destruct (record !! index) as [v|]; [|auto].
    apply setProp_keys in H as [->|H]; auto.
Qed.

Lemma rowOf_ok cols record : rowOk cols (rowOf cols record).
Proof.
  intros k H. apply assignColumns_keys in H as [H|H]; [exact H|].
  simpl in H. rewrite lookup_empty in H. destruct H as [? H]. discriminate H.
Qed.

Lemma assignColumns_zip cols : forall index record obj,
  assignColumns cols index record obj
  = fold_left (fun o cv => setProp o (name (fst cv)) (snd cv))
              (zip cols (drop index record)) obj.
Proof.
  induction cols as [|col t IH]; intros index record obj; simpl.
  - reflexivity.
  - rewrite IH. destruct (record !! index) as [v|] eqn:E.
    + rewrite (drop_S record v index E). reflexivity.
    + apply lookup_ge_None in E.
      rewrite (drop_ge record index) by exact E.
      rewrite (drop_ge record (S index)) by lia.
      destruct t; reflexivity.
Qed.

Lemma rowOf_zip cols record :
  rowOf cols record
  = fold_left (fun o cv => setProp o (name (fst cv)) (snd cv))
              (zip cols record) emptyRow.
Proof. unfold rowOf. rewrite assignColumns_zip. reflexivity. Qed.

Lemma setProp_other obj k v k' :
  k' <> k -> props (setProp obj k v) !! k' = props obj !! k'.
Proof.
  intros Hne. unfold setProp. destruct (_ && _).
  - destruct v; reflexivity.
  - simpl. apply lookup_insert_ne. congruence.
Qed.

Lemma setProp_same obj k v :
  k <> protoKey -> props (setProp obj k v) !! k = Some v.
Proof.
  intros Hne. unfold setProp.
  replace (str_eqb k protoKey) with false
    by (symmetry; apply bool_decide_eq_false; exact Hne).
  simpl. apply lookup_insert_eq.
Qed.

Lemma assignColumns_other cols : forall index record obj k,
  ~ In k (map name cols) ->
  props (assignColumns cols index record obj) !! k = props obj !! k.
Proof.
  induction cols as [|col t IH]; intros index record obj k Hk; simpl.
  - reflexivity.
  - rewrite IH by (intros H; apply Hk; right; exact H).
    destruct (record !! index); [|reflexivity].
    apply setProp_other. intros E. apply Hk. left. congruence.
Qed.

Lemma assignColumns_lookup cols : forall index record obj i col v,
  NoDup (map name cols) -> ~ In protoKey (map name cols) ->
  cols !! i = Some col -> record !! (index + i) = Some v ->
  props (assignColumns cols index record obj) !! name col = Some v.
Proof.
  induction cols as [|c t IH]; intros index record obj i col v Hnd Hp Hc Hr;
    [discriminate Hc|].
  simpl in Hnd. apply NoDup_cons in Hnd as [Hc_t Hnd].
  destruct i as [|i'].
  - inversion Hc; subst col. simpl assignColumns.
    rewrite assignColumns_other
      by (intros H; apply Hc_t; apply list_elem_of_In; exact H).
    rewrite Nat.add_0_r in Hr. rewrite Hr.
    apply setProp_same. intros E. apply Hp. left. exact E.
  - simpl in Hc. simpl assignColumns.
    apply (IH (S index) record _ i' col v); auto.
    + intros H. apply Hp. right. exact H.
    + rewrite <- Hr. f_equal. lia.
Qed.

(** With distinct column names, none of them [__proto__], the value at
    position [i] is the property named by column [i]. *)
Lemma rowOf_lookup cols record i col v :
  NoDup (map name cols) -> ~ In protoKey (map name cols) ->
  cols !! i = Some col -> record !! i = Some v ->
  props (rowOf cols record) !! name col = Some v.
Proof.
  intros Hnd Hp Hc Hr. unfold rowOf.
  apply (assignColumns_lookup cols 0 record emptyRow i col v); auto.
Qed.

Lemma zip_keys_notin (ks : list str) (vs : list jsval) k :
  k ∉ ks -> k ∉ (zip ks vs).*1.
Proof.
  intros H X. apply H. apply list_elem_of_fmap in X as ([k' v] & -> & X).
  exact (elem_of_zip_l _ _ _ _ X).
Qed.

(** With distinct column names, none of them [__proto__], the assignment
    adds exactly the pairs of the zipped names and values. *)
Lemma assignColumns_exact cols : forall index record obj,
  NoDup (map name cols) -> ~ In protoKey (map name cols) ->
  assignColumns cols index record obj
  = mkRow (list_to_map (zip (map name cols) (drop index record)) ∪ props obj)
          (nullProto obj).
Proof.
  induction cols as [|c t IH]; intros index record obj Hnd Hp.
  - simpl. rewrite (left_id_L ∅ (∪)). destruct obj; reflexivity.
  - simpl in Hnd. apply NoDup_cons in Hnd as [Hc_t Hnd].
    assert (Hp' : ~ In protoKey (map name t))
      by (intros H; apply Hp; right; exact H).
    simpl assignColumns. rewrite (IH _ _ _ Hnd Hp').
    destruct (record !! index) as [v|] eqn:E.
    + rewrite (drop_S _ _ _ E). cbn [map zip_with]. rewrite list_to_map_cons.
      unfold setProp.
      replace (str_eqb (name c) protoKey) with false
        by (symmetry; apply bool_decide_eq_false; intros X; apply Hp; left;
            exact X).
      cbn [andb props nullProto]. f_equal.
      rewrite <- insert_union_l. symmetry. apply insert_union_r.
      apply not_elem_of_list_to_map_1, zip_keys_notin, Hc_t.
    + apply lookup_ge_None in E.
      rewrite !drop_ge by lia. cbn [map]. rewrite !zip_with_nil_r.
      reflexivity.
Qed.

Lemma rowOf_exact cols record :
  NoDup (map name cols) -> ~ In protoKey (map name cols) ->
  rowOf cols record = mkRow (list_to_map (zip (map name cols) record)) false.
Proof.
  intros Hnd Hp. unfold rowOf. rewrite (assignColumns_exact cols 0 record _ Hnd Hp).
  cbn [emptyRow props nullProto drop]. rewrite (right_id_L ∅ (∪)). reflexivity.
Qed.

(** A column beyond the values is not assigned. *)
Lemma rowOf_absent cols record i col :
  NoDup (map name cols) -> ~ In protoKey (map name cols) ->
  cols !! i = Some col -> record !! i = None ->
  props (rowOf cols record) !! name col = None.
Proof.
  intros Hnd Hp Hc Hr. rewrite (rowOf_exact cols record Hnd Hp). cbn [props].
  apply not_elem_of_list_to_map_1. intros X.
  apply list_elem_of_fmap in X as ([k v] & Ek & X). simpl in Ek. subst k.
  apply list_elem_of_lookup in X as [j Hj].
  apply lookup_zip_with_Some in Hj as (x & y & Exy & Hx & Hy).
  inversion Exy; subst x y.
  assert (Hi : map name cols !! i = Some (name col))
    by (rewrite list_lookup_fmap, Hc; reflexivity).
  pose proof (NoDup_lookup _ _ _ _ Hnd Hi Hx) as ->.
  rewrite Hr in Hy. discriminate Hy.
Qed.

(** ** The registry *)

Lemma getTable_own st k t : getTable st k = POwn t -> tables st !! k = Some t.
Proof.
  unfold getTable, inObjectPrototype.
  destruct (tables st !! k); [intros E; inversion E; reflexivity|].
  destruct (tablesProto st);
    repeat (match goal with |- context [if ?b then _ else _] => destruct b end);
    discriminate.
Qed.

Lemma getTable_proto st k p : getTable st k = PProto p -> tablesProto st = Some p.
Proof.
  unfold getTable, inObjectPrototype.
  destruct (tables st !! k); [discriminate|].
  destruct (tablesProto st);
    repeat (match goal with |- context [if ?b then _ else _] => destruct b end);
    try discriminate.
  intros E; inversion E; reflexivity.
Qed.

Lemma lookupTable_setTable st k t : lookupTable (setTable st k t) k = Some t.
Proof.
  unfold lookupTable, getTable, setTable.
  destruct (str_eqb k protoKey) eqn:Ek; simpl.
  - destruct (bool_decide (is_Some (tables st !! k))) eqn:Eo; simpl.
    + rewrite lookup_insert_eq. reflexivity.
    + apply bool_decide_eq_false in Eo.
      destruct (tables st !! k) eqn:El; [exfalso; apply Eo; eauto|].
      reflexivity.
  - rewrite lookup_insert_eq. reflexivity.
Qed.

Lemma tables_setTable_other st k t k' :
  k' <> k -> tables (setTable st k t) !! k' = tables st !! k'.
Proof.
  intros Hne. unfold setTable.
  destruct (str_eqb k protoKey && _); simpl; [reflexivity|].
  apply lookup_insert_ne. congruence.
Qed.

Lemma registryOk_same st st' :
  tables st' = tables st -> tablesProto st' = tablesProto st ->
  registryOk st -> registryOk st'.
Proof. intros Ht Hp [H1 H2]. split; rewrite ?Ht, ?Hp; assumption. Qed.

Lemma registryOk_setTable st k t :
  data t = [] -> registryOk st -> registryOk (setTable st k t).
Proof.
  intros Hd [H1 H2]. assert (Hok : tableOk t) by (unfold tableOk; rewrite Hd; constructor).
  unfold setTable. destruct (str_eqb k protoKey && _); split; simpl.
  - exact H1.
  - intros p E; inversion E; subst; exact Hok.
  - intros k' t' E. apply lookup_insert_Some in E as [[_ <-]|[_ E]]; eauto.
  - exact H2.
Qed.

Lemma tableOk_pushRows t recs : tableOk t -> tableOk (pushRows t recs).
Proof.
  unfold tableOk, pushRows. simpl. intros H. apply Forall_app. split; [exact H|].
  apply Forall_forall. intros r Hr. apply list_elem_of_In in Hr.
  apply in_map_iff in Hr as (rec & <- & _). apply rowOf_ok.
Qed.

Section DispatchFacts.
Variable parseCreateTable : str -> option TableInfo.
Hypothesis parse_data :
  forall sql ti, parseCreateTable sql = Some ti -> data ti = [].

Lemma insertRows_ok st insertInfo :
  registryOk st -> registryOk (stateOf (insertRows st insertInfo)).
Proof.
  intros Hok. unfold insertRows.
  destruct (getTable st (insTableName insertInfo)) as [|t|p|[]] eqn:E; simpl;
    try exact Hok.
  - apply getTable_own in E. destruct Hok as [H1 H2]. split; simpl.
    + intros k t' Ek. apply lookup_insert_Some in Ek as [[_ <-]|[_ Ek]]; eauto.
      apply tableOk_pushRows. eauto.
    + exact H2.
  - apply getTable_proto in E. destruct Hok as [H1 H2]. split; simpl.
    + exact H1.
    + intros p' Ep; inversion Ep; subst. apply tableOk_pushRows. eauto.
  - destruct (records insertInfo); exact Hok.
Qed.

Lemma insertRows_counter st insertInfo :
  limit (stateOf (insertRows st insertInfo)) = limit st
  /\ processedStatements (stateOf (insertRows st insertInfo))
     = processedStatements st.
Proof.
  unfold insertRows.
  destruct (getTable st (insTableName insertInfo)) as [|t|p|[]]; simpl; auto.
  destruct (records insertInfo); auto.
Qed.

Lemma setTable_counter st k t :
  limit (setTable st k t) = limit st
  /\ processedStatements (setTable st k t) = processedStatements st.
Proof. unfold setTable. destruct (_ && _); simpl; auto. Qed.

Lemma dispatch_ok sql st :
  registryOk st -> registryOk (stateOf (dispatch parseCreateTable sql st)).
Proof.
  intros Hok.
  assert (Hc : registryOk (withCounter st (processedStatements st + 1)))
    by (eapply registryOk_same; [| |exact Hok]; reflexivity).
  unfold dispatch.
  repeat (match goal with
          | |- context [if ?b then _ else _] => destruct b
          end; simpl; try exact Hc;
          try (eapply registryOk_same; [| |exact Hc]; reflexivity)).
  - destruct (parseCreateTable sql) as [ti|] eqn:E; simpl; [|exact Hc].
    apply registryOk_setTable; [eapply parse_data; exact E | exact Hc].
  - destruct (parseInsertInto sql) as [ii|]; simpl; [|exact Hc].
    apply insertRows_ok. exact Hc.
Qed.

Lemma dispatch_counter sql st :
  limit (stateOf (dispatch parseCreateTable sql st)) = limit st
  /\ processedStatements (stateOf (dispatch parseCreateTable sql st))
     = (processedStatements st + 1)%Z.
Proof.
  unfold dispatch.
  repeat (match goal with
          | |- context [if ?b then _ else _] => destruct b
          end; simpl; auto).
  - destruct (parseCreateTable sql) as [ti|]; simpl; auto.
    apply (setTable_counter (withCounter st (processedStatements st + 1))).
  - destruct (parseInsertInto sql) as [ii|]; simpl; auto.
    apply (insertRows_counter (withCounter st (processedStatements st + 1))).
Qed.

Lemma dispatch_limit sql st :
  limitReached (withCounter st (processedStatements st + 1)) = true ->
  dispatch parseCreateTable sql st
  = Returned false (withCounter st (processedStatements st + 1)).
Proof. intros H. unfold dispatch. rewrite H. reflexivity. Qed.
End DispatchFacts.

(** ** Dispatch on the leading keyword *)

Lemma create_not_others sql :
  startsWith (js "CREATE TABLE") (toUpperCase sql) = true ->
  startsWith (js "START TRANSACTION") sql = false
  /\ startsWith (js "COMMIT") sql = false
  /\ startsWith (js "DROP TABLE") (toUpperCase sql) = false.
Proof.
  destruct sql as [|c1 [|c2 t]];
    unfold js; cbn [startsWith toUpperCase map list_ascii_of_string];
    intros H; try discriminate H.
  { apply andb_prop in H as [_ H]. discriminate H. }
  apply andb_prop in H as [H1 H]. apply andb_prop in H as [H2 _].
  repeat split.
  - destruct (ch_eqb "S" c1) eqn:E; [|reflexivity].
    apply ch_eqb_eq in E. subst c1. vm_compute in H1. discriminate H1.
  - destruct (ch_eqb "O" c2) eqn:E; [|apply andb_false_r].
    apply ch_eqb_eq in E. subst c2. vm_compute in H2. discriminate H2.
  - apply ch_eqb_eq in H1. rewrite <- H1. reflexivity.
Qed.

Lemma insert_not_others sql :
  startsWith (js "INSERT INTO") (toUpperCase sql) = true ->
  startsWith (js "START TRANSACTION") sql = false
  /\ startsWith (js "COMMIT") sql = false
  /\ startsWith (js "DROP TABLE") (toUpperCase sql) = false
  /\ startsWith (js "CREATE TABLE") (toUpperCase sql) = false.
Proof.
  destruct sql as [|c1 t];
    unfold js; cbn [startsWith toUpperCase map list_ascii_of_string];
    intros H; try discriminate H.
  apply andb_prop in H as [H1 _].
  repeat split.
  - destruct (ch_eqb "S" c1) eqn:E; [|reflexivity].
    apply ch_eqb_eq in E. subst c1. vm_compute in H1. discriminate H1.
  - destruct (ch_eqb "C" c1) eqn:E; [|reflexivity].
    apply ch_eqb_eq in E. subst c1. vm_compute in H1. discriminate H1.
  - apply ch_eqb_eq in H1. rewrite <- H1. reflexivity.
  - apply ch_eqb_eq in H1. rewrite <- H1. reflexivity.
Qed.

Lemma dispatch_create pct sql st ti :
  startsWith (js "CREATE TABLE") (toUpperCase sql) = true ->
  limitReached (withCounter st (processedStatements st + 1)) = false ->
  pct sql = Some ti ->
  dispatch pct sql st
  = Returned true
      (setTable (withCounter st (processedStatements st + 1)) (tableName ti) ti).
Proof.
  intros Hk Hl Hp. destruct (create_not_others sql Hk) as (H1 & H2 & H3).
  unfold dispatch. rewrite Hl, H1, H2, H3, Hk, Hp. reflexivity.
Qed.

Lemma dispatch_insert pct sql st :
  startsWith (js "INSERT INTO") (toUpperCase sql) = true ->
  limitReached (withCounter st (processedStatements st + 1)) = false ->
  dispatch pct sql st
  = match parseInsertInto sql with
    | Some insertInfo =>
        insertRows (withCounter st (processedStatements st + 1)) insertInfo
    | None => Returned true (withCounter st (processedStatements st + 1))
    end.
Proof.
  intros Hk Hl. destruct (insert_not_others sql Hk) as (H1 & H2 & H3 & H4).
  unfold dispatch. rewrite Hl, H1, H2, H3, H4, Hk. reflexivity.
Qed.

Lemma insertRows_unregistered st insertInfo :
  getTable st (insTableName insertInfo) = PUndefined ->
  insertRows st insertInfo = Returned true st.
Proof. intros H. unfold insertRows. rewrite H. reflexivity. Qed.

(** ** The statement loop under a limit *)

Lemma trim_nil : trim [] = [].
Proof. reflexivity. Qed.

Lemma nonblank_length s : nonblank s -> (0 <? length s) = true.
Proof.
  unfold nonblank. destruct s; [rewrite trim_nil; discriminate | reflexivity].
Qed.

Lemma ts_run_dispatch ss : forall st,
  Forall nonblank ss ->
  TsConverter.runStatements ss st = runDispatch Ts.parseCreateTable ss st.
Proof.
  induction ss as [|s more IH]; intros st H; [reflexivity|].
  inversion H as [|? ? Hs Hmore]; subst.
  simpl. rewrite (nonblank_length s Hs).
  unfold TsConverter.processStatement. unfold nonblank in Hs. rewrite Hs.
  destruct (dispatch Ts.parseCreateTable (trim s) st) as [[] st'|st'];
    try reflexivity.
  apply IH. exact Hmore.
Qed.

Lemma js_run_dispatch ss : forall st,
  Forall nonblank ss ->
  JsConverter.runStatements ss st = runDispatch Js.parseCreateTable ss st.
Proof.
  induction ss as [|s more IH]; intros st H; [reflexivity|].
  inversion H as [|? ? Hs Hmore]; subst.
  simpl. unfold JsConverter.processStatement. unfold nonblank in Hs. rewrite Hs.
  destruct (dispatch Js.parseCreateTable (trim s) st) as [[] st'|st'];
    try reflexivity.
  simpl. apply IH. exact Hmore.
Qed.

Lemma ts_statements_nonblank content :
  Forall nonblank (TsConverter.statementsOf content).
Proof.
  unfold TsConverter.statementsOf. apply Forall_forall. intros s Hs.
  apply list_elem_of_filter in Hs as [Hp Hin].
  apply list_elem_of_In, in_map_iff in Hin as (x & <- & _).
  apply andb_prop in Hp as [Hp _]. apply negb_true_iff in Hp.
  unfold nonblank. rewrite trim_idem. exact Hp.
Qed.

Lemma js_statements_nonblank content :
  Forall nonblank (JsConverter.statementsOf content).
Proof.
  unfold JsConverter.statementsOf. apply Forall_forall. intros s Hs.
  apply list_elem_of_filter in Hs as [Hp _].
  apply negb_true_iff in Hp. exact Hp.
Qed.

Lemma sameData_refl st : sameData st st.
Proof. repeat split. Qed.

Lemma limitReached_at st N :
  limit st = Some N -> N <> 0%Z ->
  limitReached st = (N <? processedStatements st)%Z.
Proof.
  intros Hl Hn. unfold limitReached. rewrite Hl.
  replace (N =? 0)%Z with false by (symmetry; apply Z.eqb_neq; exact Hn).
  reflexivity.
Qed.

Lemma runDispatch_limit pct ss : forall st N,
  limit st = Some N -> (0 < N)%Z ->
  (0 <= processedStatements st <= N)%Z ->
  sameData (stateOf (runDispatch pct ss st))
           (stateOf (runDispatch pct
                       (take (Z.to_nat (N - processedStatements st)) ss) st))
  /\ (processedStatements (stateOf (runDispatch pct ss st)) <= N + 1)%Z.
Proof.
  induction ss as [|s more IH]; intros st N Hl HN Hc.
  - rewrite take_nil. simpl. split; [apply sameData_refl | lia].
  - destruct (Z.eq_dec (processedStatements st) N) as [Heq|Hne].
    + replace (Z.to_nat (N - processedStatements st)) with 0 by lia.
      simpl. rewrite dispatch_limit.
      2:{ rewrite (limitReached_at _ N) by (simpl; auto; lia).
          simpl. apply Z.ltb_lt. lia. }
      simpl. split; [repeat split | lia].
    + replace (Z.to_nat (N - processedStatements st))
        with (S (Z.to_nat (N - (processedStatements st + 1)))) by lia.
      simpl.
      destruct (dispatch_counter pct (trim s) st) as [Hl' Hc'].
      destruct (dispatch pct (trim s) st) as [[] st'|st']; simpl in *.
      * rewrite <- Hc'. apply IH; [congruence | exact HN | lia].
      * split; [apply sameData_refl | lia].
      * split; [apply sameData_refl | lia].
Qed.

(** ** The column splitter of the TypeScript class *)

Lemma ts_split_refines s : forall st,
  finishSplit (fold_left Ts.splitStep s st)
  = Ts.columnDefs st
    ++ dropEmptyLast
         (map trim (cutAt (parenSeparators (Ts.parenDepth st) s) s (Ts.current st))).
Proof.
  induction s as [|c t IH]; intros st.
  - simpl. unfold finishSplit. destruct (trim (Ts.current st)); simpl;
      [rewrite app_nil_r|]; reflexivity.
  - simpl fold_left. simpl parenSeparators. rewrite IH. unfold Ts.splitStep.
    destruct (ch_eqb c "("); [reflexivity|].
    destruct (ch_eqb c ")"); [reflexivity|].
    destruct (ch_eqb c "," && (Ts.parenDepth st =? 0)%Z); [|reflexivity].
    simpl cutAt. rewrite map_cons, dropEmptyLast_cons.
    2:{ intros E. apply map_eq_nil in E. exact (cutAt_nonempty _ _ _ E). }
    simpl. rewrite <- app_assoc. reflexivity.
Qed.

Lemma ts_splitColumns_spec part : Ts.splitColumns part = specSegments part.
Proof. exact (ts_split_refines part (Ts.SplitState [] [] 0)). Qed.

Lemma ts_example : Ts.parseCreateTable stmtExample = Some tableExample.
Proof. vm_compute. reflexivity. Qed.

Lemma js_example :
  Js.parseCreateTable stmtExample = Some (mkTable (js "t") [] []).
Proof. vm_compute. reflexivity. Qed.

(** * The claims *)

(** C1.  The TypeScript parser splits the column body only at commas at
    parenthesis depth 0 and returns the columns a INT and b VARCHAR(10) of
    the example statement, with or without backticks around the names;
    [bin/cli.js] returns no column at all for the same statement, nor for
    the CREATE TABLE statement of the README. *)
Theorem C1_create_table_columns (columnsPart : str) :
  Ts.splitColumns columnsPart = specSegments columnsPart
  /\ Ts.parseCreateTable stmtExample = Some tableExample
  /\ Ts.parseCreateTable stmtBackticks
     = Some (mkTable (js "t")
               [mkColumn (js "a") (js "INT");
                mkColumn (js "b") (js "DECIMAL(10,2)")] [])
  /\ Ts.parseCreateTable stmtReadme
     = Some (mkTable (js "users")
               [mkColumn (js "id") (js "INT PRIMARY KEY AUTO_INCREMENT");
                mkColumn (js "name") (js "VARCHAR(255) NOT NULL");
                mkColumn (js "email") (js "VARCHAR(255) UNIQUE")] [])
  /\ Js.parseCreateTable stmtExample = Some (mkTable (js "t") [] [])
  /\ Js.parseCreateTable stmtReadme = Some (mkTable (js "users") [] []).
Proof.
  split; [apply ts_splitColumns_spec|].
  split; [apply ts_example|].
  split; [vm_compute; reflexivity|].
  split; [vm_compute; reflexivity|].
  split; [apply js_example | vm_compute; reflexivity].
Qed.

(** C2.  The two parsers share the head of the statement: for every
    statement they agree on whether a result is returned, on the table
    name and on the empty data.  The column lists are not the same: on the
    statement of the claim C1 and on the statement of the README the
    TypeScript parser returns the declared columns and [bin/cli.js]
    returns none. *)
Theorem C2_column_lists_differ (sql : str) :
  option_map tableName (Js.parseCreateTable sql)
  = option_map tableName (Ts.parseCreateTable sql)
  /\ option_map data (Js.parseCreateTable sql)
     = option_map data (Ts.parseCreateTable sql)
  /\ Ts.parseCreateTable stmtExample = Some tableExample
  /\ Js.parseCreateTable stmtExample = Some (mkTable (js "t") [] [])
  /\ Js.parseCreateTable stmtExample <> Ts.parseCreateTable stmtExample
  /\ Js.parseCreateTable stmtReadme <> Ts.parseCreateTable stmtReadme.
Proof.
  destruct (js_parseCreateTable_head sql) as [cj ->].
  destruct (ts_parseCreateTable_head sql) as [ct ->].
  split; [destruct (tableHead sql) as [[nm part]|]; reflexivity|].
  split; [destruct (tableHead sql) as [[nm part]|]; reflexivity|].
  split; [apply ts_example|].
  split; [apply js_example|].
  split.
  - rewrite js_example, ts_example. intros E. discriminate E.
  - vm_compute. intros E. discriminate E.
Qed.

(** C3.  The tokens are the trimmed segments between the commas that lie
    outside quoted strings at bracket depth 0, the last segment being
    emitted only when it is not empty; [parseValues] normalizes exactly
    these tokens.  A quoted text without its own quote character inside
    and a parenthesized text without further brackets or quotes are one
    token whatever commas they hold; the example text has the three tokens
    of the claim, and a quote after a backslash does not end a string. *)
Theorem C3_tokenizer (valueString body : str) :
  tokenize valueString = specTokens valueString
  /\ parseValues valueString = map cleanValue (tokenize valueString)
  /\ tokenize (squote :: without squote body ++ [squote])
     = [squote :: without squote body ++ [squote]]
  /\ tokenize (dquote :: without dquote body ++ [dquote])
     = [dquote :: without dquote body ++ [dquote]]
  /\ tokenize ("("%char :: unbracketed body ++ [")"%char])
     = ["("%char :: unbracketed body ++ [")"%char]]
  /\ tokenize (js "1, 'a,b', (2,3)") = [js "1"; js "'a,b'"; js "(2,3)"]
  /\ tokenize (js "'a\',b', 2") = [js "'a\',b'"; js "2"].
Proof.
  split; [apply tokenize_spec|].
  split; [apply parseValues_tokenize|].
  split; [apply tokenize_quoted; reflexivity|].
  split; [apply tokenize_quoted; reflexivity|].
  split; [apply tokenize_parenthesized|].
  split; vm_compute; reflexivity.
Qed.

(** C4 as stated fails: a token of digits does not always yield an
    integer, and when it does, not always the one it denotes.  The token of
    310 digits yields Infinity; 9007199254740993 yields 9007199254740992,
    as the token 9007199254740992 does. *)
Lemma C4_counterexample :
  test false intRe hugeToken = true
  /\ cleanValue hugeToken = JNum (S754_infinity false)
  /\ ~ yieldsItsInteger hugeToken
  /\ test false intRe (js "9007199254740993") = true
  /\ cleanValue (js "9007199254740993") = cleanValue (js "9007199254740992")
  /\ ~ yieldsItsInteger (js "9007199254740993").
Proof.
  assert (A : cleanValue hugeToken = JNum (S754_infinity false))
    by (vm_compute; reflexivity).
  assert (B : cleanValue (js "9007199254740993")
              = JNum (S754_finite false 4503599627370496 1))
    by (vm_compute; reflexivity).
  split; [vm_compute; reflexivity|].
  split; [exact A|].
  split.
  { intros (n & E & I). rewrite A in E. inversion E; subst n.
    discriminate I. }
  split; [vm_compute; reflexivity|].
  split; [vm_compute; reflexivity|].
  intros (n & E & I). rewrite B in E. inversion E; subst n.
  vm_compute in I. discriminate I.
Qed.

(** C4, amended.  [cleanValue] follows the precedence of the claim: NULL
    in any case, then a quoted text with its two escapes rewritten and
    every other backslash kept, then an integer, then a decimal, then the
    text itself.  The integer and the decimal come out as the Number
    nearest to what the token denotes, under the sign of the token; a
    token that denotes a safe integer yields that integer. *)
Theorem C4_normalizer (token : str) :
  cleanValue token = normalizeSpec token
  /\ (isIntegerText (trim token) = true ->
      safeInteger (integerDenoted (trim token)) -> yieldsItsInteger token)
  /\ cleanValue (js "NULL") = JNull
  /\ cleanValue (js "'5'") = JStr (js "5")
  /\ cleanValue (js "5") = JNum (Dec 5 0)
  /\ integerOf (Dec 5 0) = Some 5%Z
  /\ cleanValue (js "5.5") = JNum (Dec 55 1)
  /\ cleanValue (js "'O\'Brien'") = JStr (js "O'Brien")
  /\ cleanValue (dquote :: js "a\" ++ dquote :: js "b\n" ++ [dquote])
     = JStr (js "a" ++ dquote :: js "b\n").
Proof.
  split; [apply cleanValue_spec|].
  split; [apply cleanValue_integer|].
  repeat split; vm_compute; reflexivity.
Qed.

(** C5.  A CREATE TABLE statement that is dispatched and parsed installs
    the parsed TableInfo under its name: afterwards the name denotes the
    new columns with empty data, whatever the registry held before, and
    the other entries are untouched.  Both implementations. *)
Theorem C5_create_replaces (st : Converter) (sql : str) (ti tj : TableInfo) :
  startsWith (js "CREATE TABLE") (toUpperCase (trim sql)) = true ->
  limitReached (withCounter st (processedStatements st + 1)) = false ->
  Ts.parseCreateTable (trim sql) = Some ti ->
  Js.parseCreateTable (trim sql) = Some tj ->
  (exists st',
      TsConverter.processStatement sql st = Returned true st'
      /\ lookupTable st' (tableName ti) = Some ti
      /\ data ti = []
      /\ forall k, k <> tableName ti -> tables st' !! k = tables st !! k)
  /\ (exists st',
      JsConverter.processStatement sql st = Returned (Some true) st'
      /\ lookupTable st' (tableName tj) = Some tj
      /\ data tj = []
      /\ forall k, k <> tableName tj -> tables st' !! k = tables st !! k).
Proof.
  intros Hk Hl Ht Hj.
  assert (Hne : isEmpty (trim sql) = false).
  { destruct (trim sql); [discriminate Hk | reflexivity]. }
  split.
  - eexists. unfold TsConverter.processStatement. rewrite Hne.
    rewrite (dispatch_create _ _ _ ti Hk Hl Ht).
    split; [reflexivity|]. split; [apply lookupTable_setTable|].
    split; [exact (ts_parse_data _ _ Ht)|].
    intros k Hkne. rewrite tables_setTable_other by exact Hkne. reflexivity.
  - eexists. unfold JsConverter.processStatement. rewrite Hne.
    rewrite (dispatch_create _ _ _ tj Hk Hl Hj).
    split; [reflexivity|]. split; [apply lookupTable_setTable|].
    split; [exact (js_parse_data _ _ Hj)|].
    intros k Hkne. rewrite tables_setTable_other by exact Hkne. reflexivity.
Qed.

Lemma C5_create_replaces_witness :
  (exists old, lookupTable stWithRows (js "t") = Some old /\ length (data old) = 1)
  /\ (exists st',
        TsConverter.processStatement stmtExample stWithRows = Returned true st'
        /\ lookupTable st' (tableName tableExample) = Some tableExample
        /\ data tableExample = []
        /\ forall k, k <> tableName tableExample ->
                     tables st' !! k = tables stWithRows !! k).
Proof.
  split.
  - eexists. split; vm_compute; reflexivity.
  - apply (C5_create_replaces stWithRows stmtExample tableExample
             (mkTable (js "t") [] [])); vm_compute; reflexivity.
Defined.

(** An INSERT whose table name denotes nothing in the registry object is
    ignored: only the statement counter moves. *)
Lemma orphan_insert_ignored st sql insertInfo :
  startsWith (js "INSERT INTO") (toUpperCase (trim sql)) = true ->
  limitReached (withCounter st (processedStatements st + 1)) = false ->
  parseInsertInto (trim sql) = Some insertInfo ->
  getTable st (insTableName insertInfo) = PUndefined ->
  TsConverter.processStatement sql st
  = Returned true (withCounter st (processedStatements st + 1))
  /\ JsConverter.processStatement sql st
     = Returned (Some true) (withCounter st (processedStatements st + 1)).
Proof.
  intros Hk Hl Hp Hg.
  assert (Hne : isEmpty (trim sql) = false).
  { destruct (trim sql); [discriminate Hk | reflexivity]. }
  unfold TsConverter.processStatement, JsConverter.processStatement.
  rewrite Hne, !(dispatch_insert _ _ _ Hk Hl), Hp.
  rewrite insertRows_unregistered by exact Hg. split; reflexivity.
Qed.

(** C6.  The table name [constructor] is not registered in a fresh
    converter, yet an INSERT into it does not return: reading
    [this.tables["constructor"]] yields the function inherited from
    [Object.prototype], and the row loop throws.  Both implementations. *)
Theorem C6_orphan_insert_throws :
  tables (newConverter None) !! js "constructor" = None
  /\ lookupTable (newConverter None) (js "constructor") = None
  /\ TsConverter.processStatement orphanInsert (newConverter None)
     = Thrown (withCounter (newConverter None) 1)
  /\ JsConverter.processStatement orphanInsert (newConverter None)
     = Thrown (withCounter (newConverter None) 1).
Proof. repeat split; vm_compute; reflexivity. Qed.

(** C7.  With a limit N, a statement met when the counter already stands
    at N or more only increments the counter and returns false, leaving
    the registry and the flags as they are; [sqlToJson] on a fresh
    converter leaves the registry that the first N statements of the
    content build, and the counter never passes N + 1.  Both
    implementations. *)
Theorem C7_statement_limit (st : Converter) (sql content : str) (N : Z) :
  limit st = Some N -> (0 < N)%Z -> nonblank sql ->
  (N < processedStatements st + 1)%Z ->
  let st1 := withCounter st (processedStatements st + 1) in
  let st0 := newConverter (Some N) in
  let n := Z.to_nat N in
  TsConverter.processStatement sql st = Returned false st1
  /\ JsConverter.processStatement sql st = Returned (Some false) st1
  /\ sameData st1 st
  /\ sameData (stateOf (TsConverter.sqlToJson content st0))
              (stateOf (TsConverter.runStatements
                          (take n (TsConverter.statementsOf content)) st0))
  /\ (processedStatements (stateOf (TsConverter.sqlToJson content st0)) <= N + 1)%Z
  /\ sameData (stateOf (JsConverter.sqlToJson content st0))
              (stateOf (JsConverter.runStatements
                          (take n (JsConverter.statementsOf content)) st0))
  /\ (processedStatements (stateOf (JsConverter.sqlToJson content st0)) <= N + 1)%Z.
Proof.
  intros Hl HN Hs Hc st1 st0 n.
  assert (Hr : limitReached st1 = true).
  { subst st1. rewrite (limitReached_at _ N) by (simpl; auto; lia).
    simpl. apply Z.ltb_lt. exact Hc. }
  assert (Hl0 : limit st0 = Some N).
  { subst st0. simpl.
    replace (N =? 0)%Z with false by (symmetry; apply Z.eqb_neq; lia).
    reflexivity. }
  pose proof (ts_statements_nonblank content) as Hts.
  pose proof (js_statements_nonblank content) as Hjs.
  assert (Htt : Forall nonblank (take n (TsConverter.statementsOf content)))
    by (apply Forall_take; exact Hts).
  assert (Hjt : Forall nonblank (take n (JsConverter.statementsOf content)))
    by (apply Forall_take; exact Hjs).
  assert (Hn : n = Z.to_nat (N - processedStatements st0))
    by (subst n st0; simpl; f_equal; lia).
  unfold nonblank in Hs.
  unfold TsConverter.processStatement, JsConverter.processStatement.
  rewrite Hs, !dispatch_limit by exact Hr.
  split; [reflexivity|]. split; [reflexivity|]. split; [repeat split|].
  unfold TsConverter.sqlToJson, JsConverter.sqlToJson.
  rewrite !ts_run_dispatch, !js_run_dispatch by assumption.
  rewrite Hn.
  destruct (runDispatch_limit Ts.parseCreateTable
              (TsConverter.statementsOf content) st0 N Hl0 HN) as [A B];
    [subst st0; simpl; lia|].
  destruct (runDispatch_limit Js.parseCreateTable
              (JsConverter.statementsOf content) st0 N Hl0 HN) as [C D];
    [subst st0; simpl; lia|].
  auto.
Qed.

Lemma C7_statement_limit_witness :
  TsConverter.processStatement (js "COMMIT")
    (withCounter (newConverter (Some 1%Z)) 1%Z)
  = Returned false (withCounter (newConverter (Some 1%Z)) 2%Z)
  /\ sameData
       (stateOf (TsConverter.sqlToJson
                   (js "CREATE TABLE t (a INT); INSERT INTO t VALUES (1)")
                   (newConverter (Some 1%Z))))
       (stateOf (TsConverter.runStatements
                   [js "CREATE TABLE t (a INT)"] (newConverter (Some 1%Z)))).
Proof.
  destruct (C7_statement_limit (withCounter (newConverter (Some 1%Z)) 1%Z)
              (js "COMMIT")
              (js "CREATE TABLE t (a INT); INSERT INTO t VALUES (1)") 1%Z)
    as (A & _ & _ & B & _).
  - reflexivity.
  - lia.
  - vm_compute. reflexivity.
  - simpl. lia.
  - split; [exact A | exact B].
Defined.

(** C8 as stated fails: the empty statement leaves the counter at 0. *)
Lemma C8_counterexample :
  processedStatements
    (stateOf (TsConverter.processStatement [] (newConverter None)))
  <> (processedStatements (newConverter None) + 1)%Z.
Proof. vm_compute. intros E. discriminate E. Qed.

(** C8, amended.  A statement that is empty once trimmed returns before
    the counter is incremented: the whole state, counter included, is
    unchanged, and the TypeScript class returns true. *)
Theorem C8_empty_statement (st : Converter) (sql : str) :
  trim sql = [] ->
  TsConverter.processStatement sql st = Returned true st
  /\ stateOf (JsConverter.processStatement sql st) = st.
Proof.
  intros H. unfold TsConverter.processStatement, JsConverter.processStatement.
  rewrite H. split; reflexivity.
Qed.

Lemma C8_empty_statement_witness :
  TsConverter.processStatement (js "  ") stWithRows = Returned true stWithRows
  /\ stateOf (JsConverter.processStatement (js "  ") stWithRows) = stWithRows.
Proof. apply (C8_empty_statement stWithRows (js "  ")). reflexivity. Defined.

(** C9 as stated fails: with a column name declared twice the value at
    the first position is not the property that the first column names.
    The statements create such a table and fill it; the row holds the
    second value only. *)
Lemma C9_counterexample :
  tables (stateOf (TsConverter.sqlToJson stmtDupColumns (newConverter None)))
    !! js "t"
  = Some (mkTable (js "t") dupColumns
            [rowOf dupColumns [JNum (Dec 1 0); JNum (Dec 2 0)]])
  /\ props (rowOf dupColumns [JNum (Dec 1 0); JNum (Dec 2 0)]) !! js "a"
     = Some (JNum (Dec 2 0))
  /\ ~ positional dupColumns [JNum (Dec 1 0); JNum (Dec 2 0)].
Proof.
  split; [vm_compute; reflexivity|].
  split; [vm_compute; reflexivity|].
  intros H.
  specialize (H 0 (mkColumn (js "a") (js "INT")) (JNum (Dec 1 0))
                eq_refl eq_refl).
  vm_compute in H. discriminate H.
Qed.

(** C9, amended.  In a fresh converter and after every statement, in both
    implementations, every key of every stored row is the name of a
    declared column of its table.  A row is built by assigning the values
    to the column names position by position over the zipped columns and
    values, so that columns beyond the values and values beyond the
    columns play no part.  When the column names are pairwise distinct and
    none of them is [__proto__], the value at position [i] is the property
    that column [i] names, a column beyond the values is no property of
    the row, and the row holds nothing else. *)
Theorem C9_rows_within_columns (st : Converter) (sql : str)
    (optLimit : option Z) (cols : list ColumnDefinition) (record : list jsval) :
  registryOk st ->
  registryOk (newConverter optLimit)
  /\ registryOk (stateOf (TsConverter.processStatement sql st))
  /\ registryOk (stateOf (JsConverter.processStatement sql st))
  /\ rowOk cols (rowOf cols record)
  /\ rowOf cols record
     = fold_left (fun o cv => setProp o (name (fst cv)) (snd cv))
                 (zip cols record) emptyRow
  /\ rowOf cols record = rowOf (take (length record) cols) record
  /\ rowOf cols record = rowOf cols (take (length cols) record)
  /\ (NoDup (map name cols) -> ~ In protoKey (map name cols) ->
      positional cols record
      /\ noFill cols record
      /\ rowOf cols record
         = mkRow (list_to_map (zip (map name cols) record)) false).
Proof.
  intros Hok.
  split.
  { split; simpl.
    - intros k t E. rewrite lookup_empty in E. discriminate E.
    - intros p E. discriminate E. }
  split.
  { unfold TsConverter.processStatement.
    destruct (isEmpty (trim sql)); [exact Hok|].
    apply (dispatch_ok _ ts_parse_data). exact Hok. }
  split.
  { unfold JsConverter.processStatement.
    destruct (isEmpty (trim sql)); [exact Hok|].
    pose proof (dispatch_ok _ js_parse_data (trim sql) st Hok) as H.
    destruct (dispatch Js.parseCreateTable (trim sql) st); exact H. }
  split; [apply rowOf_ok|].
  split; [apply rowOf_zip|].
  split; [rewrite !rowOf_zip, zip_with_take_l; reflexivity|].
  split; [rewrite !rowOf_zip, zip_with_take_r; reflexivity|].
  intros Hnd Hp. split; [|split].
  - intros i col v Hc Hr. exact (rowOf_lookup cols record i col v Hnd Hp Hc Hr).
  - intros i col Hc Hr. exact (rowOf_absent cols record i col Hnd Hp Hc Hr).
  - exact (rowOf_exact cols record Hnd Hp).
Qed.

Lemma C9_rows_within_columns_witness :
  registryOk stWithRows
  /\ registryOk (stateOf (TsConverter.processStatement
                            (js "INSERT INTO t VALUES (1, 2)") stWithRows))
  /\ props (rowOf [mkColumn (js "x") (js "INT"); mkColumn (js "y") (js "INT")]
                  [JNum (Dec 7 0)]) !! js "x" = Some (JNum (Dec 7 0))
  /\ props (rowOf [mkColumn (js "x") (js "INT"); mkColumn (js "y") (js "INT")]
                  [JNum (Dec 7 0)]) !! js "y" = None.
Proof.
  assert (H0 : registryOk (newConverter None)).
  { split; simpl.
    - intros k t E. rewrite lookup_empty in E. discriminate E.
    - intros p E. discriminate E. }
  assert (H1 : registryOk (stateOf (TsConverter.processStatement
                                      (js "CREATE TABLE t (x INT)")
                                      (newConverter None)))).
  { exact (proj1 (proj2 (C9_rows_within_columns (newConverter None)
                           (js "CREATE TABLE t (x INT)") None [] [] H0))). }
  assert (H2 : registryOk stWithRows).
  { exact (proj1 (proj2 (C9_rows_within_columns _
                           (js " INSERT INTO t VALUES (7)") None [] [] H1))). }
  destruct (C9_rows_within_columns stWithRows
              (js "INSERT INTO t VALUES (1, 2)") None
              [mkColumn (js "x") (js "INT"); mkColumn (js "y") (js "INT")]
              [JNum (Dec 7 0)] H2)
    as (_ & A & _ & _ & _ & _ & _ & P).
  destruct P as (Pp & Pn & _).
  { simpl. apply NoDup_cons. split; [|apply NoDup_singleton].
    intros E. apply list_elem_of_singleton in E. discriminate E. }
  { intros [E|[E|E]]; [discriminate E | discriminate E | destruct E]. }
  split; [exact H2|]. split; [exact A|]. split.
  - exact (Pp 0 (mkColumn (js "x") (js "INT")) (JNum (Dec 7 0))
              eq_refl eq_refl).
  - exact (Pn 1 (mkColumn (js "y") (js "INT")) eq_refl eq_refl).
Defined.

(** C10.  In a text of comma-separated segments free of quotes and
    brackets every segment but the last yields a value, empty or not, and
    the last one only when it is not empty: 1,,2 gives three values with
    the empty string in the middle, 1,2, gives two. *)
Theorem C10_empty_slots (first : str) (more : list str) :
  plain first -> Forall plain more ->
  parseValues (joinComma first more)
  = map cleanValue (dropEmptyLast (map trim (first :: more)))
  /\ cleanValue [] = JStr []
  /\ parseValues (js "1,,2") = [JNum (Dec 1 0); JStr []; JNum (Dec 2 0)]
  /\ parseValues (js "1,2,") = [JNum (Dec 1 0); JNum (Dec 2 0)].
Proof.
  intros Hf Hm. split.
  - rewrite parseValues_tokenize, tokenize_joinComma by assumption. reflexivity.
  - repeat split; vm_compute; reflexivity.
Qed.

Lemma C10_empty_slots_witness :
  parseValues (joinComma (js "1") [js ""; js "2"])
  = map cleanValue (dropEmptyLast (map trim [js "1"; js ""; js "2"]))
  /\ parseValues (joinComma (js "1") [js "2"; js ""])
     = map cleanValue (dropEmptyLast (map trim [js "1"; js "2"; js ""])).
Proof.
  split.
  - apply (C10_empty_slots (js "1") [js ""; js "2"]).
    + reflexivity.
    + repeat constructor.
  - apply (C10_empty_slots (js "1") [js "2"; js ""]).
    + reflexivity.
    + repeat constructor.
Defined.

(** * Further properties *)

(** ** Words consumed by the matcher *)

Lemma consumes_refl x : consumes x x [].
Proof. split; simpl; [reflexivity | lia]. Qed.

Lemma consumes_trans x y z w1 w2 :
  consumes x y w1 -> consumes y z w2 -> consumes x z (w1 ++ w2).
Proof.
  intros [R1 P1] [R2 P2]. split.
  - rewrite R1, R2, app_assoc. reflexivity.
  - rewrite P2, P1, length_app. lia.
Qed.

Lemma consumes_step x a t : rest x = a :: t -> consumes x (step1 x t) [a].
Proof. intros E. split; simpl; [exact E | lia]. Qed.

Lemma consumes_firstn x y w :
  consumes x y w -> firstn (pos y - pos x) (rest x) = w.
Proof.
  intros [R P]. rewrite R, P.
  replace (pos x + length w - pos x) with (length w) by lia.
  rewrite firstn_app, Nat.sub_diag, firstn_all. simpl. apply app_nil_r.
Qed.

Lemma repGreedy_wsound Q m L :
  wsound Q m L -> forall f, wsound Q (repGreedy m f) (starOf L).
Proof.
  intros Hm f. induction f as [|f IH]; intros x k z Hc; simpl.
  - intros H. exists x, []. split; [exact H|].
    split; [apply consumes_refl|]. split; [exists []; split; [reflexivity | constructor] | exact Hc].
  - destruct (m x _) as [z'|] eqn:E.
    + intros Hz. inversion Hz; subst z'.
      apply Hm in E as (y & w & Hy & Hxy & Hw & Hcy); [|exact Hc].
      destruct (pos y =? pos x); [discriminate|].
      apply IH in Hy as (y' & w' & Hy' & Hyy & (ws & -> & Hws) & Hcy');
        [|exact Hcy].
      exists y', (w ++ concat ws). split; [exact Hy'|].
      split; [eapply consumes_trans; eassumption|].
      split; [|exact Hcy'].
      exists (w :: ws). split; [reflexivity | constructor; assumption].
    + intros H. exists x, []. split; [exact H|].
      split; [apply consumes_refl|].
      split; [exists []; split; [reflexivity | constructor] | exact Hc].
Qed.

Lemma repLazy_wsound Q m L :
  wsound Q m L -> forall f, wsound Q (repLazy m f) (starOf L).
Proof.
  intros Hm f. induction f as [|f IH]; intros x k z Hc; simpl.
  - intros H. exists x, []. split; [exact H|].
    split; [apply consumes_refl|]. split; [exists []; split; [reflexivity | constructor] | exact Hc].
  - destruct (k x) as [z'|] eqn:E.
    + intros Hz. inversion Hz; subst z'. exists x, []. split; [exact E|].
      split; [apply consumes_refl|].
      split; [exists []; split; [reflexivity | constructor] | exact Hc].
    + intros H.
      apply Hm in H as (y & w & Hy & Hxy & Hw & Hcy); [|exact Hc].
      destruct (pos y =? pos x); [discriminate|].
      apply IH in Hy as (y' & w' & Hy' & Hyy & (ws & -> & Hws) & Hcy');
        [|exact Hcy].
      exists y', (w ++ concat ws). split; [exact Hy'|].
      split; [eapply consumes_trans; eassumption|].
      split; [|exact Hcy'].
      exists (w :: ws). split; [reflexivity | constructor; assumption].
Qed.

Lemma rmatch_wsound ci Q r :
  respects ci Q r -> wsound Q (rmatch ci r) (Matches ci r).
Proof.
  induction r as [| c | p | | | r1 IH1 r2 IH2 | r IH | r IH | r IH | r IH | g r IH];
    intros Hr x k z Hc.
  - simpl. intros H. exists x, []. split; [exact H|].
    split; [apply consumes_refl|]. split; [reflexivity | exact Hc].
  - simpl. destruct (rest x) as [|a t] eqn:Er; [discriminate|].
    destruct (ch_eqb _ _) eqn:Ea; [|discriminate].
    intros H. exists (step1 x t), [a]. split; [exact H|].
    split; [apply consumes_step; exact Er|].
    split; [|exact Hc]. exists a. split; [reflexivity|].
    apply ch_eqb_eq. exact Ea.
  - simpl. destruct (rest x) as [|a t] eqn:Er; [discriminate|].
    destruct (p a) eqn:Ea; [|discriminate].
    intros H. exists (step1 x t), [a]. split; [exact H|].
    split; [apply consumes_step; exact Er|].
    split; [|exact Hc]. exists a. split; [reflexivity | exact Ea].
  - simpl. destruct (pos x =? 0); [|discriminate].
    intros H. exists x, []. split; [exact H|].
    split; [apply consumes_refl|]. split; [reflexivity | exact Hc].
  - simpl. destruct (rest x); [|discriminate].
    intros H. exists x, []. split; [exact H|].
    split; [apply consumes_refl|]. split; [reflexivity | exact Hc].
  - destruct Hr as [Hr1 Hr2]. simpl. intros H.
    apply (IH1 Hr1) in H as (y1 & w1 & H1 & C1 & M1 & K1); [|exact Hc].
    apply (IH2 Hr2) in H1 as (y2 & w2 & H2 & C2 & M2 & K2); [|exact K1].
    exists y2, (w1 ++ w2). split; [exact H2|].
    split; [eapply consumes_trans; eassumption|].
    split; [|exact K2]. exists w1, w2. auto.
  - simpl in Hr. simpl. destruct (rmatch ci r x _) as [z'|] eqn:E.
    + intros Hz. inversion Hz; subst z'.
      apply (IH Hr) in E as (y & w & Hy & Cy & My & Ky); [|exact Hc].
      destruct (pos y =? pos x); [discriminate|].
      exists y, w. split; [exact Hy|]. split; [exact Cy|].
      split; [right; exact My | exact Ky].
    + intros H. exists x, []. split; [exact H|].
      split; [apply consumes_refl|]. split; [left; reflexivity | exact Hc].
  - simpl in Hr. intros H.
    exact (repGreedy_wsound Q _ _ (IH Hr) (S (length (rest x))) x k z Hc H).
  - simpl in Hr. intros H.
    change (rmatch ci r x
              (fun y => repGreedy (rmatch ci r) (S (length (rest y))) y k)
            = Some z) in H.
    apply (IH Hr) in H as (y1 & w1 & H1 & C1 & M1 & K1); [|exact Hc].
    apply (repGreedy_wsound Q _ _ (IH Hr)) in H1
      as (y2 & w2 & H2 & C2 & (ws & -> & Hws) & K2); [|exact K1].
    exists y2, (w1 ++ concat ws). split; [exact H2|].
    split; [eapply consumes_trans; eassumption|].
    split; [|exact K2]. exists w1, ws. auto.
  - simpl in Hr. intros H.
    change (rmatch ci r x
              (fun y => repLazy (rmatch ci r) (S (length (rest y))) y k)
            = Some z) in H.
    apply (IH Hr) in H as (y1 & w1 & H1 & C1 & M1 & K1); [|exact Hc].
    apply (repLazy_wsound Q _ _ (IH Hr)) in H1
      as (y2 & w2 & H2 & C2 & (ws & -> & Hws) & K2); [|exact K1].
    exists y2, (w1 ++ concat ws). split; [exact H2|].
    split; [eapply consumes_trans; eassumption|].
    split; [|exact K2]. exists w1, ws. auto.
  - destruct Hr as [Hg Hr]. simpl. intros H.
    apply (IH Hr) in H as (y & w & Hy & Cy & My & Ky); [|exact Hc].
    eexists. exists w. split; [exact Hy|].
    split; [exact Cy|]. split; [exact My|].
    constructor; [|exact Ky]. simpl.
    rewrite (consumes_firstn _ _ _ Cy). apply Hg. exact My.
Qed.

(** A successful search: the input is the skipped text, a word of the
    pattern, and the text left over; the captures satisfy [Q]. *)
Lemma search_word ci Q r s : forall p q y,
  respects ci Q r ->
  search ci r p s = Some (q, y) ->
  exists pre w,
    s = pre ++ w ++ rest y /\ q = p + length pre
    /\ Matches ci r w /\ capsOk Q (caps y).
Proof.
  induction s as [|a t IH]; intros p q y Hr; rewrite search_eq;
    destruct (matchAt ci r p _) as [y'|] eqn:E; intros H;
    try discriminate;
    try (inversion H; subst y' q; unfold matchAt in E;
         apply (rmatch_wsound ci Q r Hr) in E
           as (y0 & w & Hy0 & [R P] & Mw & Kw); [|constructor];
         inversion Hy0; subst y0; simpl in R;
         exists [], w; simpl; repeat split; auto; try lia).
  apply (IH _ _ _ Hr) in H as (pre & w & -> & -> & Mw & Kw).
  exists (a :: pre), w. simpl. repeat split; auto; try lia.
Qed.

Lemma exec_word ci Q r s q y :
  respects ci Q r -> exec ci r s = Some (q, y) ->
  exists pre w,
    s = pre ++ w ++ rest y /\ q = length pre
    /\ Matches ci r w /\ capsOk Q (caps y).
Proof. intros Hr H. exact (search_word ci Q r s 0 q y Hr H). Qed.

Lemma capture_ok Q cs n v : capsOk Q cs -> capture n cs = Some v -> Q n v.
Proof.
  induction cs as [|[m u] t IH]; simpl; intros Hc H; [discriminate|].
  inversion Hc as [|? ? Hq Ht]; subst.
  destruct (n =? m) eqn:E.
  - apply Nat.eqb_eq in E. inversion H; subst. exact Hq.
  - apply IH; assumption.
Qed.

Lemma matchGroup_ok ci Q r n s v :
  respects ci Q r -> matchGroup ci r n s = Some v -> Q n v.
Proof.
  intros Hr. unfold matchGroup.
  destruct (exec ci r s) as [[q y]|] eqn:E; [|discriminate].
  destruct (exec_word ci Q r s q y Hr E) as (_ & _ & _ & _ & _ & Kc).
  apply capture_ok. exact Kc.
Qed.

(** ** Names produced by the parsers *)

Lemma respects_trivial ci r : respects ci (fun _ _ => True) r.
Proof. induction r; simpl; auto. Qed.

Lemma respects_lits ci Q s : respects ci Q (lits s).
Proof. induction s; simpl; auto. Qed.

Lemma Forall_concat_singletons (P : ascii -> Prop) (L : str -> Prop) ws :
  (forall w, L w -> Forall P w) -> Forall L ws -> Forall P (concat ws).
Proof.
  intros HL H. induction H as [|w ws Hw _ IH]; simpl; [constructor|].
  apply Forall_app. split; [apply HL; exact Hw | exact IH].
Qed.

Lemma Matches_cls ci p w :
  Matches ci (Cls p) w -> Forall (fun c => p c = true) w.
Proof. intros (a & -> & Ha). repeat constructor. exact Ha. Qed.

Lemma Matches_plus_cls ci p w :
  Matches ci (Plus (Cls p)) w -> w <> [] /\ Forall (fun c => p c = true) w.
Proof.
  intros (w1 & ws & -> & M1 & Hws). split.
  - destruct M1 as (a & -> & _). intros E. discriminate E.
  - apply Forall_app. split; [exact (Matches_cls ci p w1 M1)|].
    apply (Forall_concat_singletons _ (Matches ci (Cls p))); [|exact Hws].
    apply Matches_cls.
Qed.

Lemma tableNameChar_of c :
  noneOf ["`"; "("]%char true c = true -> tableNameChar c.
Proof.
  unfold noneOf, tableNameChar. simpl. intros H.
  apply negb_true_iff in H.
  apply orb_false_elim in H as [H Hw].
  apply orb_false_elim in H as [H1 H].
  apply orb_false_elim in H as [H2 _].
  repeat split; [apply ch_eqb_neq; exact H1 | apply ch_eqb_neq; exact H2 | exact Hw].
Qed.

Lemma columnNameChar_of c : noneOf ["`"]%char true c = true -> columnNameChar c.
Proof.
  unfold noneOf, columnNameChar. simpl. intros H.
  apply negb_true_iff in H.
  apply orb_false_elim in H as [H Hw].
  apply orb_false_elim in H as [H1 _].
  split; [apply ch_eqb_neq; exact H1 | exact Hw].
Qed.

Lemma notBacktick_of c : noneOf ["`"]%char false c = true -> c <> "`"%char.
Proof.
  unfold noneOf. simpl. intros H.
  apply negb_true_iff in H.
  apply orb_false_elim in H as [H _].
  apply orb_false_elim in H as [H1 _].
  apply ch_eqb_neq; exact H1.
Qed.

Lemma tableName_group w :
  Matches true (Plus (Cls (noneOf ["`"; "("]%char true))) w -> tableNameQ 1 w.
Proof.
  intros M _. apply Matches_plus_cls in M as [Hne Hall]. split; [exact Hne|].
  eapply Forall_impl; [exact Hall|]. intros c. apply tableNameChar_of.
Qed.

Ltac split_respects :=
  repeat match goal with
         | |- _ /\ _ => split
         | |- True => exact I
         end.

Lemma createTableRe_respects : respects true tableNameQ createTableRe.
Proof.
  unfold createTableRe, js. cbn [respects seq lits list_ascii_of_string].
  split_respects. apply tableName_group.
Qed.

Lemma insertIntoRe_respects : respects true tableNameQ insertIntoRe.
Proof.
  unfold insertIntoRe, js. cbn [respects seq lits list_ascii_of_string].
  split_respects. apply tableName_group.
Qed.

Lemma replaceFirst_Forall (P : ascii -> Prop) ci r rep s :
  Forall P s -> Forall P rep -> Forall P (replaceFirst ci r rep s).
Proof.
  intros Hs Hrep. unfold replaceFirst.
  destruct (exec ci r s) as [[q y]|] eqn:E; [|exact Hs].
  destruct (exec_word ci _ r s q y (respects_trivial ci r) E)
    as (pre & w & Es & -> & _ & _).
  rewrite Es in Hs |- *. rewrite firstn_app, Nat.sub_diag, firstn_all.
  simpl. rewrite app_nil_r.
  apply Forall_app in Hs as [Hpre Hs]. apply Forall_app in Hs as [_ Hrest].
  apply Forall_app. split; [exact Hpre|].
  apply Forall_app. split; assumption.
Qed.

Lemma Forall_trim (P : ascii -> Prop) s : Forall P s -> Forall P (trim s).
Proof.
  intros H. unfold trim.
  destruct (trimStart_suffix s) as [pre E]. rewrite E in H.
  apply Forall_app in H as [_ H].
  destruct (trimEnd_prefix (trimStart s)) as [suf E']. rewrite E' in H.
  apply Forall_app in H as [H _]. exact H.
Qed.

Lemma tableHead_name sql nm part :
  tableHead sql = Some (nm, part) -> Forall tableNameChar nm.
Proof.
  unfold tableHead.
  destruct (matchGroup true createTableRe 1 sql) as [m1|] eqn:E; [|discriminate].
  destruct (indexOf "(" sql); [|discriminate].
  destruct (lastIndexOf ")" sql); [|discriminate].
  intros H; inversion H; subst.
  apply replaceFirst_Forall; [|constructor].
  apply (matchGroup_ok _ _ _ _ _ _ createTableRe_respects E). reflexivity.
Qed.

Lemma collectColumns_Forall (P : ColumnDefinition -> Prop) f defs : forall cs,
  (forall d c, f d = Some (Some c) -> P c) ->
  collectColumns f defs = Some cs -> Forall P cs.
Proof.
  induction defs as [|d t IH]; intros cs Hf; simpl.
  - intros E; inversion E; constructor.
  - destruct (f d) as [oc|] eqn:Ed; [|discriminate].
    destruct (collectColumns f t) as [cs'|]; [|discriminate].
    intros E; inversion E; subst.
    destruct oc as [c|]; [constructor; eauto|]; eauto.
Qed.

Lemma tsColumnRe_respects : respects false tsColumnQ Ts.columnRe.
Proof.
  unfold Ts.columnRe. cbn [respects seq].
  split_respects; intros w M; apply Matches_plus_cls in M as [Hne Hall];
    (split; [intros E | intros E; try discriminate E]).
  - split; [exact Hne|].
    eapply Forall_impl; [exact Hall|]. intros c. apply columnNameChar_of.
  - discriminate E.
  - eapply Forall_impl; [exact Hall|]. intros c Hc. unfold sameLine.
    apply negb_true_iff. exact Hc.
Qed.

Lemma Matches_pluslazy_cls ci p w :
  Matches ci (PlusLazy (Cls p)) w -> w <> [] /\ Forall (fun c => p c = true) w.
Proof. exact (Matches_plus_cls ci p w). Qed.

Lemma jsColumnRe_respects : respects false jsColumnQ Js.columnRe.
Proof.
  unfold Js.columnRe. cbn [respects seq].
  split_respects; intros w M.
  - apply Matches_plus_cls in M as [Hne Hall].
    split; [intros _ | intros E; discriminate E].
    split; [exact Hne|].
    eapply Forall_impl; [exact Hall|]. intros c. apply notBacktick_of.
  - apply Matches_pluslazy_cls in M as [Hne Hall].
    split; [intros E; discriminate E | intros _].
    eapply Forall_impl; [exact Hall|]. intros c Hc. unfold sameLine.
    apply negb_true_iff. exact Hc.
Qed.

Lemma ts_columnOf_ok d c : Ts.columnOf d = Some (Some c) -> tsColumnOk c.
Proof.
  unfold Ts.columnOf. destruct (skipDefinition _); [discriminate|].
  destruct (exec false Ts.columnRe (trim d)) as [[q y]|] eqn:E; [|discriminate].
  destruct (exec_word _ _ _ _ _ _ tsColumnRe_respects E)
    as (_ & _ & _ & _ & _ & Kc).
  destruct (capture 1 (caps y)) as [v1|] eqn:E1; [|discriminate].
  destruct (capture 2 (caps y)) as [v2|] eqn:E2; [|discriminate].
  intros H; inversion H; subst c. unfold tsColumnOk. simpl.
  destruct (capture_ok _ _ _ _ Kc E1) as [[Hne Hall] _]; [reflexivity|].
  destruct (capture_ok _ _ _ _ Kc E2) as [_ Hty].
  repeat split; auto. apply Forall_trim. apply Hty. reflexivity.
Qed.

Lemma js_columnOf_ok d c : Js.columnOf d = Some (Some c) -> jsColumnOk c.
Proof.
  unfold Js.columnOf. destruct (skipDefinition _); [discriminate|].
  destruct (exec false Js.columnRe (trim d)) as [[q y]|] eqn:E; [|discriminate].
  destruct (exec_word _ _ _ _ _ _ jsColumnRe_respects E)
    as (_ & _ & _ & _ & _ & Kc).
  destruct (capture 1 (caps y)) as [v1|] eqn:E1; [|discriminate].
  destruct (capture 2 (caps y)) as [v2|] eqn:E2; [|discriminate].
  intros H; inversion H; subst c. unfold jsColumnOk. simpl.
  destruct (capture_ok _ _ _ _ Kc E1) as [[Hne Hall] _]; [reflexivity|].
  destruct (capture_ok _ _ _ _ Kc E2) as [_ Hty].
  repeat split; auto.
  apply replaceFirst_Forall; [|constructor].
  apply Forall_trim. apply Hty. reflexivity.
Qed.

(** X1.  The table name returned by either [parseCreateTable] and by
    [parseInsertInto] never holds a backtick, an opening parenthesis or a
    whitespace character. *)
Theorem X1_table_name_characters (sql : str) :
  whenSome (fun ti => Forall tableNameChar (tableName ti)) (Ts.parseCreateTable sql)
  /\ whenSome (fun ti => Forall tableNameChar (tableName ti)) (Js.parseCreateTable sql)
  /\ whenSome (fun ii => Forall tableNameChar (insTableName ii)) (parseInsertInto sql).
Proof.
  split; [|split].
  - destruct (ts_parseCreateTable_head sql) as [cols ->].
    destruct (tableHead sql) as [[nm part]|] eqn:E; simpl; [|exact I].
    exact (tableHead_name _ _ _ E).
  - destruct (js_parseCreateTable_head sql) as [cols ->].
    destruct (tableHead sql) as [[nm part]|] eqn:E; simpl; [|exact I].
    exact (tableHead_name _ _ _ E).
  - unfold parseInsertInto.
    destruct (matchGroup true insertIntoRe 1 sql) as [m1|] eqn:E; [|exact I].
    destruct (matchGroup true valuesRe 1 sql); [|exact I]. simpl.
    apply replaceFirst_Forall; [|constructor].
    apply (matchGroup_ok _ _ _ _ _ _ insertIntoRe_respects E). reflexivity.
Qed.

(** X2.  Every column returned by the TypeScript [parseCreateTable] has a
    non-empty name without backtick or whitespace and a type without line
    break; every column returned by [bin/cli.js] has a non-empty name
    without backtick and a type without line break. *)
Theorem X2_column_shape (sql : str) :
  whenSome (fun ti => Forall tsColumnOk (columns ti)) (Ts.parseCreateTable sql)
  /\ whenSome (fun ti => Forall jsColumnOk (columns ti)) (Js.parseCreateTable sql).
Proof.
  split.
  - unfold Ts.parseCreateTable. destruct (tableHead sql) as [[nm part]|]; [|exact I].
    destruct (collectColumns Ts.columnOf _) as [cs|] eqn:E; [|exact I]. simpl.
    eapply collectColumns_Forall; [|exact E]. apply ts_columnOf_ok.
  - unfold Js.parseCreateTable. destruct (tableHead sql) as [[nm part]|]; [|exact I].
    destruct (collectColumns Js.columnOf _) as [cs|] eqn:E; [|exact I]. simpl.
    eapply collectColumns_Forall; [|exact E]. apply js_columnOf_ok.
Qed.

(** ** When the parsers return nothing *)

Lemma upper_paren a : upper a = "("%char -> a = "("%char.
Proof. char_cases a; vm_compute; intros E; first [reflexivity | discriminate E]. Qed.

Lemma Matches_cat_In ci r1 r2 c w :
  (forall w2, Matches ci r2 w2 -> In c w2) ->
  Matches ci (Cat r1 r2) w -> In c w.
Proof.
  intros H (w1 & w2 & -> & _ & M2). apply in_or_app. right. apply H. exact M2.
Qed.

Lemma createTableRe_paren w : Matches true createTableRe w -> In "("%char w.
Proof.
  unfold createTableRe. cbn [seq].
  do 6 (apply Matches_cat_In; intros ?).
  intros (u1 & u2 & -> & (a & -> & Ha) & _). left.
  apply upper_paren. exact Ha.
Qed.

Lemma indexOf_In c s : In c s -> indexOf c s <> None.
Proof.
  induction s as [|a t IH]; simpl; [intros []|].
  intros [->|H].
  - rewrite ch_eqb_refl. discriminate.
  - destruct (ch_eqb a c); [discriminate|].
    destruct (indexOf c t); [discriminate | exfalso; exact (IH H eq_refl)].
Qed.

Lemma test_exec ci r s : test ci r s = false <-> exec ci r s = None.
Proof.
  unfold test. destruct (exec ci r s); split; intros H; congruence.
Qed.

Lemma matchGroup_none ci r n s :
  In n (mandatory r) -> (matchGroup ci r n s = None <-> exec ci r s = None).
Proof.
  intros Hn. unfold matchGroup.
  destruct (exec ci r s) as [[q y]|] eqn:E; [|tauto].
  destruct (exec_captures _ _ _ _ _ n E Hn) as [v Hv]. rewrite Hv.
  split; intros H; discriminate H.
Qed.

Lemma tableHead_none sql :
  tableHead sql = None
  <-> test true createTableRe sql = false \/ lastIndexOf ")" sql = None.
Proof.
  rewrite test_exec. unfold tableHead.
  destruct (matchGroup true createTableRe 1 sql) as [m1|] eqn:E.
  - assert (Hex : exec true createTableRe sql <> None).
    { intros H. apply (matchGroup_none true createTableRe 1 sql) in H;
        [congruence | simpl; auto]. }
    destruct (exec true createTableRe sql) as [[q y]|] eqn:Ee; [|congruence].
    destruct (exec_word _ _ _ _ _ _ (respects_trivial _ _) Ee)
      as (pre & w & Es & _ & Mw & _).
    assert (Hin : In "("%char sql).
    { rewrite Es. apply in_or_app. right. apply in_or_app. left.
      apply createTableRe_paren. exact Mw. }
    apply indexOf_In in Hin.
    destruct (indexOf "(" sql); [|congruence].
    destruct (lastIndexOf ")" sql); split; intros H; auto;
      try discriminate H; destruct H as [H|H]; discriminate H.
  - apply matchGroup_none in E; [|simpl; auto]. tauto.
Qed.

(** X3.  Either [parseCreateTable] returns nothing exactly when the head
    pattern (CREATE TABLE, a name, an opening parenthesis) occurs nowhere
    in the statement or the statement holds no closing parenthesis; the
    test for a missing opening parenthesis and the [catch] never decide. *)
Theorem X3_create_table_failure (sql : str) :
  (Ts.parseCreateTable sql = None
   <-> test true createTableRe sql = false \/ lastIndexOf ")" sql = None)
  /\ (Js.parseCreateTable sql = None
      <-> test true createTableRe sql = false \/ lastIndexOf ")" sql = None).
Proof.
  rewrite <- tableHead_none.
  destruct (ts_parseCreateTable_head sql) as [ct ->].
  destruct (js_parseCreateTable_head sql) as [cj ->].
  destruct (tableHead sql) as [[nm part]|]; split; split; intros H;
    first [reflexivity | discriminate H].
Qed.

Lemma rmatch_lits_complete ci p : forall v x k t,
  Matches ci (lits p) v -> rest x = v ++ t ->
  rmatch ci (lits p) x k = k (MState (pos x + length v) t (caps x)).
Proof.
  induction p as [|c p' IH]; intros v x k t M Hr.
  - simpl in M. subst v. simpl in *. rewrite Nat.add_0_r.
    destruct x; simpl in *; subst; reflexivity.
  - destruct M as (w1 & w2 & -> & (a & -> & Ha) & M2).
    simpl in Hr. simpl lits. cbn [rmatch]. rewrite Hr.
    rewrite Ha, ch_eqb_refl.
    rewrite (IH w2 (step1 x (w2 ++ t)) k t M2 eq_refl).
    simpl. f_equal. f_equal. lia.
Qed.

Lemma starCls_total p k s : forall n c,
  (forall y, is_Some (k y)) -> is_Some (starCls p n s c k).
Proof.
  induction s as [|a t IH]; intros n c Hk; simpl; [apply Hk|].
  destruct (p a); [|apply Hk].
  destruct (IH (S n) c Hk) as [z ->]. eauto.
Qed.

Lemma rmatch_cat ci r1 r2 x k :
  rmatch ci (Cat r1 r2) x k = rmatch ci r1 x (fun y => rmatch ci r2 y k).
Proof. reflexivity. Qed.

Lemma rmatch_grp ci g r x k :
  rmatch ci (Grp g r) x k
  = rmatch ci r x (fun y =>
      k (MState (pos y) (rest y)
           ((g, firstn (pos y - pos x) (rest x)) :: caps y))).
Proof. reflexivity. Qed.

Lemma valuesRe_at v t n :
  Matches true (lits (js "VALUES")) v ->
  is_Some (matchAt true valuesRe n (v ++ t)).
Proof.
  intros M. unfold matchAt, valuesRe. cbn [seq].
  rewrite rmatch_cat.
  rewrite (rmatch_lits_complete true (js "VALUES") v
             (MState n (v ++ t) []) _ t M eq_refl).
  rewrite rmatch_cat, rmatch_star_cls. apply starCls_total. intros y.
  rewrite rmatch_cat, rmatch_grp, rmatch_star_cls.
  apply starCls_total. intros y'. simpl. eauto.
Qed.

Lemma search_complete ci r pre : forall s p,
  is_Some (matchAt ci r (p + length pre) s) ->
  is_Some (search ci r p (pre ++ s)).
Proof.
  induction pre as [|a t IH]; intros s p H; rewrite search_eq.
  - simpl in *. rewrite Nat.add_0_r in H. destruct H as [y ->]. eauto.
  - destruct (matchAt ci r p ((a :: t) ++ s)); [eauto|].
    simpl. apply IH. simpl in H.
    replace (S p + length t) with (p + S (length t)) by lia. exact H.
Qed.

Lemma Matches_cat_suffix ci r1 r2 (P : str -> Prop) w :
  (forall w2, Matches ci r2 w2 -> exists w0 v, w2 = w0 ++ v /\ P v) ->
  Matches ci (Cat r1 r2) w -> exists w0 v, w = w0 ++ v /\ P v.
Proof.
  intros H (w1 & w2 & -> & _ & M2).
  destruct (H w2 M2) as (w0 & v & -> & Hv).
  exists (w1 ++ w0), v. rewrite app_assoc. auto.
Qed.

Lemma insertIntoRe_values w :
  Matches true insertIntoRe w ->
  exists w0 v, w = w0 ++ v /\ Matches true (lits (js "VALUES")) v.
Proof.
  unfold insertIntoRe. cbn [seq].
  do 8 (apply Matches_cat_suffix; intros ?).
  intros (v & e & -> & Mv & He). simpl in He. subst e.
  exists [], v. rewrite app_nil_r. auto.
Qed.

Lemma values_follow_insert sql :
  exec true insertIntoRe sql <> None -> matchGroup true valuesRe 1 sql <> None.
Proof.
  intros H. destruct (exec true insertIntoRe sql) as [[q y]|] eqn:E; [|congruence].
  destruct (exec_word _ _ _ _ _ _ (respects_trivial _ _) E)
    as (pre & w & Es & _ & Mw & _).
  destruct (insertIntoRe_values w Mw) as (w0 & v & -> & Mv).
  intros Hn. apply matchGroup_none in Hn; [|simpl; auto].
  assert (Hs : is_Some (exec true valuesRe sql)).
  { unfold exec. rewrite Es.
    replace (pre ++ (w0 ++ v) ++ rest y) with ((pre ++ w0) ++ v ++ rest y)
      by (rewrite <- !app_assoc; reflexivity).
    apply search_complete. apply valuesRe_at. exact Mv. }
  rewrite Hn in Hs. destruct Hs as [? Hs]. discriminate Hs.
Qed.

Lemma splitRegex_go_nonempty fuel ci r : forall acc q s,
  splitRegex_go fuel ci r acc q s <> [].
Proof.
  induction fuel as [|f IH]; intros acc q s; simpl; [discriminate|].
  destruct s as [|c t]; [discriminate|].
  destruct (matchAt ci r q (c :: t)); [|apply IH].
  destruct (_ && _); [apply IH | discriminate].
Qed.

Lemma valueGroups_nonempty s : splitRegex false groupSepRe s <> [].
Proof.
  unfold splitRegex. destruct s; [discriminate | apply splitRegex_go_nonempty].
Qed.

(** X4.  [parseInsertInto] returns nothing exactly when the head pattern
    (INSERT INTO, a name, an optional column list, VALUES) occurs nowhere
    in the statement: its second [return null] is never taken.  A parsed
    statement always carries at least one record. *)
Theorem X4_insert_failure (sql : str) :
  (parseInsertInto sql = None <-> test true insertIntoRe sql = false)
  /\ whenSome (fun ii => records ii <> []) (parseInsertInto sql).
Proof.
  rewrite test_exec. unfold parseInsertInto.
  destruct (matchGroup true insertIntoRe 1 sql) as [m1|] eqn:E.
  - assert (Hex : exec true insertIntoRe sql <> None).
    { intros H. apply (matchGroup_none true insertIntoRe 1 sql) in H;
        [congruence | simpl; auto]. }
    pose proof (values_follow_insert sql Hex) as Hv.
    destruct (matchGroup true valuesRe 1 sql) as [vs|]; [|congruence].
    split; [split; intros H; first [discriminate H | congruence]|].
    simpl. intros En. apply map_eq_nil in En.
    exact (valueGroups_nonempty vs En).
  - apply matchGroup_none in E; [|simpl; auto].
    split; [tauto | exact I].
Qed.

(** ** Statements and the registry *)

Lemma getTable_lookup st k t : tables st !! k = Some t -> getTable st k = POwn t.
Proof. intros H. unfold getTable. rewrite H. reflexivity. Qed.

(** X5.  An INSERT into a registered table appends one row per value
    group, in order, after the rows already stored; the table keeps its
    name and columns, and every other entry of the registry is untouched.
    Both implementations. *)
Theorem X5_insert_appends (st : Converter) (sql : str) (ii : InsertInfo)
    (t : TableInfo) :
  startsWith (js "INSERT INTO") (toUpperCase (trim sql)) = true ->
  limitReached (withCounter st (processedStatements st + 1)) = false ->
  parseInsertInto (trim sql) = Some ii ->
  tables st !! insTableName ii = Some t ->
  exists st',
    TsConverter.processStatement sql st = Returned true st'
    /\ JsConverter.processStatement sql st = Returned (Some true) st'
    /\ tables st' !! insTableName ii
       = Some (mkTable (tableName t) (columns t)
                 (data t ++ map (rowOf (columns t)) (records ii)))
    /\ (forall k, k <> insTableName ii -> tables st' !! k = tables st !! k)
    /\ tablesProto st' = tablesProto st.
Proof.
  intros Hk Hl Hp Ht.
  assert (Hne : isEmpty (trim sql) = false).
  { destruct (trim sql); [discriminate Hk | reflexivity]. }
  unfold TsConverter.processStatement, JsConverter.processStatement.
  rewrite Hne, !(dispatch_insert _ _ _ Hk Hl), Hp.
  unfold insertRows.
  rewrite (getTable_lookup (withCounter st (processedStatements st + 1)) _ t Ht).
  eexists. split; [reflexivity|]. split; [reflexivity|]. simpl.
  split; [apply lookup_insert_eq|]. split; [|reflexivity].
  intros k Hkne. apply lookup_insert_ne. congruence.
Qed.

Lemma X5_insert_appends_witness :
  exists st',
    TsConverter.processStatement (js "INSERT INTO t VALUES (1),(2)") stWithRows
    = Returned true st'
    /\ (forall k, k <> js "t" -> tables st' !! k = tables stWithRows !! k).
Proof.
  destruct (X5_insert_appends stWithRows (js "INSERT INTO t VALUES (1),(2)")
              (mkInsert (js "t") [[JNum (Dec 1 0)]; [JNum (Dec 2 0)]])
              (mkTable (js "t") [mkColumn (js "x") (js "INT")]
                 [rowOf [mkColumn (js "x") (js "INT")] [JNum (Dec 7 0)]]))
    as (st' & A & _ & _ & B & _).
  - vm_compute. reflexivity.
  - vm_compute. reflexivity.
  - vm_compute. reflexivity.
  - vm_compute. reflexivity.
  - exists st'. split; [exact A | exact B].
Defined.

Lemma insertRows_keys st ii k :
  is_Some (tables st !! k) -> is_Some (tables (stateOf (insertRows st ii)) !! k).
Proof.
  intros H. unfold insertRows.
  destruct (getTable st (insTableName ii)) as [|t|p|[]]; simpl; auto.
  - destruct (decide (insTableName ii = k)) as [->|Hne].
    + rewrite lookup_insert_eq. eauto.
    + rewrite lookup_insert_ne by exact Hne. exact H.
  - destruct (records ii); exact H.
Qed.

Lemma setTable_keys st name t k :
  is_Some (tables st !! k) -> is_Some (tables (setTable st name t) !! k).
Proof.
  intros H. unfold setTable. destruct (_ && _); simpl; [exact H|].
  destruct (decide (name = k)) as [->|Hne].
  - rewrite lookup_insert_eq. eauto.
  - rewrite lookup_insert_ne by exact Hne. exact H.
Qed.

Lemma dispatch_keys pct sql st k :
  is_Some (tables st !! k) ->
  is_Some (tables (stateOf (dispatch pct sql st)) !! k).
Proof.
  intros H. unfold dispatch.
  repeat (match goal with
          | |- context [if ?b then _ else _] => destruct b
          end; simpl; try exact H).
  - destruct (pct sql) as [ti|]; simpl; [|exact H].
    apply setTable_keys. exact H.
  - destruct (parseInsertInto sql) as [ii|]; simpl; [|exact H].
    apply insertRows_keys. exact H.
Qed.

(** X6.  No statement removes a table: a name registered before a call of
    [processStatement] is registered after it, whatever the statement and
    whether the call returns or throws.  Both implementations. *)
Theorem X6_tables_never_removed (st : Converter) (sql k : str) :
  is_Some (tables st !! k) ->
  is_Some (tables (stateOf (TsConverter.processStatement sql st)) !! k)
  /\ is_Some (tables (stateOf (JsConverter.processStatement sql st)) !! k).
Proof.
  intros H. unfold TsConverter.processStatement, JsConverter.processStatement.
  destruct (isEmpty (trim sql)); [split; exact H|].
  pose proof (dispatch_keys Ts.parseCreateTable (trim sql) st k H) as A.
  pose proof (dispatch_keys Js.parseCreateTable (trim sql) st k H) as B.
  split; [exact A|].
  destruct (dispatch Js.parseCreateTable (trim sql) st); exact B.
Qed.

Lemma X6_tables_never_removed_witness :
  is_Some (tables (stateOf (TsConverter.processStatement
                              (js "DROP TABLE t") stWithRows)) !! js "t").
Proof.
  apply (X6_tables_never_removed stWithRows (js "DROP TABLE t") (js "t")).
  vm_compute. eauto.
Defined.

Lemma drop_not_others sql :
  startsWith (js "DROP TABLE") (toUpperCase sql) = true ->
  startsWith (js "START TRANSACTION") sql = false
  /\ startsWith (js "COMMIT") sql = false.
Proof.
  destruct sql as [|c1 t];
    unfold js; cbn [startsWith toUpperCase map list_ascii_of_string];
    intros H; try discriminate H.
  apply andb_prop in H as [H1 _].
  split.
  - destruct (ch_eqb "S" c1) eqn:E; [|reflexivity].
    apply ch_eqb_eq in E. subst c1. vm_compute in H1. discriminate H1.
  - destruct (ch_eqb "C" c1) eqn:E; [|reflexivity].
    apply ch_eqb_eq in E. subst c1. vm_compute in H1. discriminate H1.
Qed.

(** X7.  A DROP TABLE statement, in any letter case, changes nothing but
    the statement counter: the registry, the transaction flag and the
    current table are as before, and the table named stays registered with
    its rows.  Both implementations. *)
Theorem X7_drop_table_ignored (st : Converter) (sql : str) :
  startsWith (js "DROP TABLE") (toUpperCase (trim sql)) = true ->
  sameData (stateOf (TsConverter.processStatement sql st)) st
  /\ sameData (stateOf (JsConverter.processStatement sql st)) st
  /\ processedStatements (stateOf (TsConverter.processStatement sql st))
     = (processedStatements st + 1)%Z
  /\ processedStatements (stateOf (JsConverter.processStatement sql st))
     = (processedStatements st + 1)%Z.
Proof.
  intros Hk. destruct (drop_not_others _ Hk) as [H1 H2].
  assert (Hne : isEmpty (trim sql) = false).
  { destruct (trim sql); [discriminate Hk | reflexivity]. }
  unfold TsConverter.processStatement, JsConverter.processStatement.
  rewrite Hne. unfold dispatch. rewrite H1, H2, Hk.
  destruct (limitReached _); simpl; repeat split.
Qed.

Lemma X7_drop_table_ignored_witness :
  sameData (stateOf (TsConverter.processStatement (js "drop table t;") stWithRows))
           stWithRows.
Proof.
  apply (X7_drop_table_ignored stWithRows (js "drop table t;")).
  vm_compute. reflexivity.
Defined.

(** ** Fields that are written and never read *)

Lemma sameRegistry_refl st : sameRegistry st st.
Proof. repeat split. Qed.

Lemma getTable_same a b k :
  sameRegistry a b -> getTable a k = getTable b k.
Proof.
  intros (_ & _ & Ht & Hp). unfold getTable. rewrite Ht, Hp. reflexivity.
Qed.

Lemma setTable_same a b k t :
  sameRegistry a b -> sameRegistry (setTable a k t) (setTable b k t).
Proof.
  intros (Hl & Hc & Ht & Hp). unfold setTable. rewrite Ht.
  destruct (_ && _); repeat split; simpl; congruence.
Qed.

Lemma insertRows_same a b ii :
  sameRegistry a b -> sameOutcome (insertRows a ii) (insertRows b ii).
Proof.
  intros H. unfold insertRows. rewrite (getTable_same a b _ H).
  destruct H as (Hl & Hc & Ht & Hp).
  destruct (getTable b (insTableName ii)) as [|t|p|[]]; simpl;
    try (repeat split; simpl; congruence).
  destruct (records ii); simpl; repeat split; assumption.
Qed.

Lemma dispatch_same pct sql a b :
  sameRegistry a b -> sameOutcome (dispatch pct sql a) (dispatch pct sql b).
Proof.
  intros H.
  assert (Hc : sameRegistry (withCounter a (processedStatements a + 1))
                            (withCounter b (processedStatements b + 1))).
  { destruct H as (Hl & Hc & Ht & Hp). repeat split; simpl; congruence. }
  assert (Hr : limitReached (withCounter a (processedStatements a + 1))
               = limitReached (withCounter b (processedStatements b + 1))).
  { destruct Hc as (Hl & Hc & _). unfold limitReached. rewrite Hl, Hc.
    reflexivity. }
  unfold dispatch. cbv zeta. rewrite Hr. clear Hr.
  destruct (limitReached (withCounter b _)); [split; [reflexivity | exact Hc]|].
  destruct (startsWith (js "START TRANSACTION") sql).
  { destruct Hc as (? & ? & ? & ?). repeat split; assumption. }
  destruct (startsWith (js "COMMIT") sql).
  { destruct Hc as (? & ? & ? & ?). repeat split; assumption. }
  destruct (startsWith (js "DROP TABLE") (toUpperCase sql));
    [split; [reflexivity | exact Hc]|].
  destruct (startsWith (js "CREATE TABLE") (toUpperCase sql)).
  { destruct (pct sql) as [ti|]; (split; [reflexivity|]);
      [apply setTable_same; exact Hc | exact Hc]. }
  destruct (startsWith (js "INSERT INTO") (toUpperCase sql));
    [|split; [reflexivity | exact Hc]].
  destruct (parseInsertInto sql) as [ii|]; [|split; [reflexivity | exact Hc]].
  apply insertRows_same. exact Hc.
Qed.

Lemma ts_process_same sql a b :
  sameRegistry a b ->
  sameOutcome (TsConverter.processStatement sql a)
              (TsConverter.processStatement sql b).
Proof.
  intros H. unfold TsConverter.processStatement.
  destruct (isEmpty (trim sql)); [split; [reflexivity | exact H]|].
  apply dispatch_same. exact H.
Qed.

Lemma js_process_same sql a b :
  sameRegistry a b ->
  sameOutcome (JsConverter.processStatement sql a)
              (JsConverter.processStatement sql b).
Proof.
  intros H. unfold JsConverter.processStatement.
  destruct (isEmpty (trim sql)); [split; [reflexivity | exact H]|].
  pose proof (dispatch_same Js.parseCreateTable (trim sql) a b H) as D.
  destruct (dispatch Js.parseCreateTable (trim sql) a) as [ra sa|sa],
           (dispatch Js.parseCreateTable (trim sql) b) as [rb sb|sb];
    simpl in *; try contradiction; [|exact D].
  destruct D as [-> D]. split; [reflexivity | exact D].
Qed.

Lemma ts_run_same ss : forall a b,
  sameRegistry a b ->
  sameOutcome (TsConverter.runStatements ss a) (TsConverter.runStatements ss b).
Proof.
  induction ss as [|s more IH]; intros a b H; [split; [reflexivity | exact H]|].
  simpl. destruct (0 <? length s); [|apply IH; exact H].
  pose proof (ts_process_same s a b H) as D.
  destruct (TsConverter.processStatement s a) as [ra sa|sa],
           (TsConverter.processStatement s b) as [rb sb|sb];
    simpl in D; try contradiction; [|exact D].
  destruct D as [-> D]. destruct rb; [apply IH; exact D|].
  split; [reflexivity | exact D].
Qed.

Lemma js_run_same ss : forall a b,
  sameRegistry a b ->
  sameOutcome (JsConverter.runStatements ss a) (JsConverter.runStatements ss b).
Proof.
  induction ss as [|s more IH]; intros a b H; [split; [reflexivity | exact H]|].
  simpl.
  pose proof (js_process_same s a b H) as D.
  destruct (JsConverter.processStatement s a) as [ra sa|sa],
           (JsConverter.processStatement s b) as [rb sb|sb];
    simpl in D; try contradiction; [|exact D].
  destruct D as [-> D]. destruct (JsConverter.truthy rb); [apply IH; exact D|].
  split; [reflexivity | exact D].
Qed.

(** X8.  The transaction flag and the current table are written and never
    read: two converters that differ only in these two fields return the
    same value (or both throw) on every statement and on every content,
    and end with the same registry, counter and limit.  Both
    implementations. *)
Theorem X8_flags_never_read (a b : Converter) (sql content : str) :
  sameRegistry a b ->
  sameOutcome (TsConverter.processStatement sql a)
              (TsConverter.processStatement sql b)
  /\ sameOutcome (JsConverter.processStatement sql a)
                 (JsConverter.processStatement sql b)
  /\ sameOutcome (TsConverter.sqlToJson content a)
                 (TsConverter.sqlToJson content b)
  /\ sameOutcome (JsConverter.sqlToJson content a)
                 (JsConverter.sqlToJson content b).
Proof.
  intros H.
  split; [apply ts_process_same; exact H|].
  split; [apply js_process_same; exact H|].
  split; [apply ts_run_same; exact H | apply js_run_same; exact H].
Qed.

Lemma X8_flags_never_read_witness :
  sameOutcome
    (TsConverter.sqlToJson (js "INSERT INTO t VALUES (1)") stWithRows)
    (TsConverter.sqlToJson (js "INSERT INTO t VALUES (1)")
       (mkConverter (limit stWithRows) (processedStatements stWithRows)
          (tables stWithRows) (tablesProto stWithRows) None true)).
Proof.
  apply (X8_flags_never_read stWithRows
           (mkConverter (limit stWithRows) (processedStatements stWithRows)
              (tables stWithRows) (tablesProto stWithRows) None true)
           [] (js "INSERT INTO t VALUES (1)")).
  repeat split.
Defined.

(** ** Runs without a limit *)

Lemma dispatch_nolimit pct sql st :
  limit st = None -> continues (dispatch pct sql st).
Proof.
  intros Hl. unfold dispatch, limitReached. simpl. rewrite Hl.
  repeat (match goal with
          | |- context [if ?b then _ else _] => destruct b
          | |- context [match ?o with Some _ => _ | None => _ end] => destruct o
          end; simpl; try reflexivity).
  all: unfold insertRows;
    destruct (getTable _ _) as [| | |[]]; simpl; try reflexivity;
    destruct (records _); simpl; reflexivity.
Qed.

Lemma runDispatch_count pct ss : forall st st',
  limit st = None ->
  runDispatch pct ss st = Returned tt st' ->
  processedStatements st'
  = (processedStatements st + Z.of_nat (length ss))%Z.
Proof.
  induction ss as [|s more IH]; intros st st' Hl H.
  - simpl in H. inversion H; subst. simpl. lia.
  - simpl in H.
    pose proof (dispatch_nolimit pct (trim s) st Hl) as C.
    destruct (dispatch_counter pct (trim s) st) as [Hl' Hc'].
    destruct (dispatch pct (trim s) st) as [r s1|s1]; [|discriminate H].
    simpl in C, Hl', Hc'. subst r.
    rewrite (IH s1 st') by (congruence || exact H).
    rewrite Hc'. simpl length. lia.
Qed.

(** X9.  Without a limit (the state of a converter built with no limit or
    with the limit 0) no statement asks the driver to stop, and a run of
    [sqlToJson] that returns has counted every statement of the content.
    Both implementations. *)
Theorem X9_no_limit (st : Converter) (sql content : str) :
  limit st = None ->
  continues (TsConverter.processStatement sql st)
  /\ (forall st', JsConverter.processStatement sql st <> Returned (Some false) st')
  /\ (forall st', TsConverter.sqlToJson content st = Returned tt st' ->
        processedStatements st'
        = (processedStatements st
           + Z.of_nat (length (TsConverter.statementsOf content)))%Z)
  /\ (forall st', JsConverter.sqlToJson content st = Returned tt st' ->
        processedStatements st'
        = (processedStatements st
           + Z.of_nat (length (JsConverter.statementsOf content)))%Z).
Proof.
  intros Hl. split; [|split; [|split]].
  - unfold TsConverter.processStatement.
    destruct (isEmpty (trim sql)); [reflexivity|].
    apply dispatch_nolimit. exact Hl.
  - intros st'. unfold JsConverter.processStatement.
    destruct (isEmpty (trim sql)); [intros E; discriminate E|].
    pose proof (dispatch_nolimit Js.parseCreateTable (trim sql) st Hl) as C.
    destruct (dispatch Js.parseCreateTable (trim sql) st) as [r s1|s1];
      [|intros E; discriminate E].
    simpl in C. subst r. intros E. discriminate E.
  - intros st'. unfold TsConverter.sqlToJson.
    rewrite ts_run_dispatch by apply ts_statements_nonblank.
    apply runDispatch_count. exact Hl.
  - intros st'. unfold JsConverter.sqlToJson.
    rewrite js_run_dispatch by apply js_statements_nonblank.
    apply runDispatch_count. exact Hl.
Qed.

Lemma X9_no_limit_witness :
  limit (newConverter (Some 0%Z)) = None
  /\ continues (TsConverter.processStatement (js "COMMIT") (newConverter (Some 0%Z))).
Proof.
  split; [reflexivity|].
  apply (X9_no_limit (newConverter (Some 0%Z)) (js "COMMIT") []). reflexivity.
Defined.

(** ** Splitting the content at semicolons *)

Lemma splitChar_go_app c a b : forall cur,
  splitChar_go c cur (a ++ c :: b) = splitChar_go c cur a ++ splitChar_go c [] b.
Proof.
  induction a as [|x a IH]; intros cur; simpl.
  - rewrite ch_eqb_refl. reflexivity.
  - destruct (ch_eqb x c); [rewrite IH; reflexivity | apply IH].
Qed.

Lemma splitChar_app c a b :
  splitChar c (a ++ c :: b) = splitChar c a ++ splitChar c b.
Proof. apply splitChar_go_app. Qed.

Lemma splitChar_go_none c s : forall cur,
  Forall (fun x => x <> c) s -> splitChar_go c cur s = [cur ++ s].
Proof.
  induction s as [|x s IH]; intros cur H; simpl.
  - rewrite app_nil_r. reflexivity.
  - inversion H as [|? ? Hx Hs]; subst.
    apply ch_eqb_neq in Hx. rewrite Hx, IH by exact Hs.
    rewrite <- app_assoc. reflexivity.
Qed.

Lemma splitChar_none c s : Forall (fun x => x <> c) s -> splitChar c s = [s].
Proof. apply splitChar_go_none. Qed.

Lemma ts_statementsOf_app a b :
  TsConverter.statementsOf (a ++ ";"%char :: b)
  = TsConverter.statementsOf a ++ TsConverter.statementsOf b.
Proof.
  unfold TsConverter.statementsOf.
  rewrite splitChar_app, map_app, filter_app. reflexivity.
Qed.

Lemma js_statementsOf_app a b :
  JsConverter.statementsOf (a ++ ";"%char :: b)
  = JsConverter.statementsOf a ++ JsConverter.statementsOf b.
Proof.
  unfold JsConverter.statementsOf. rewrite splitChar_app, filter_app.
  reflexivity.
Qed.

Lemma runDispatch_app pct xs ys : forall st,
  limit st = None ->
  runDispatch pct (xs ++ ys) st
  = match runDispatch pct xs st with
    | Returned _ st' => runDispatch pct ys st'
    | Thrown st' => Thrown st'
    end.
Proof.
  induction xs as [|s more IH]; intros st Hl; [reflexivity|].
  simpl.
  pose proof (dispatch_nolimit pct (trim s) st Hl) as C.
  destruct (dispatch_counter pct (trim s) st) as [Hl' _].
  destruct (dispatch pct (trim s) st) as [r s1|s1]; [|reflexivity].
  simpl in C, Hl'. subst r. apply IH. congruence.
Qed.

(** X10.  The statements of [a;b] are those of [a] followed by those of
    [b]; without a limit, converting [a;b] is converting [a] and then [b]
    with the same converter, and throws where the first of the two
    throws.  Both implementations. *)
Theorem X10_content_composes (st : Converter) (a b : str) :
  limit st = None ->
  TsConverter.statementsOf (a ++ ";"%char :: b)
  = TsConverter.statementsOf a ++ TsConverter.statementsOf b
  /\ JsConverter.statementsOf (a ++ ";"%char :: b)
     = JsConverter.statementsOf a ++ JsConverter.statementsOf b
  /\ TsConverter.sqlToJson (a ++ ";"%char :: b) st
     = match TsConverter.sqlToJson a st with
       | Returned _ st' => TsConverter.sqlToJson b st'
       | Thrown st' => Thrown st'
       end
  /\ JsConverter.sqlToJson (a ++ ";"%char :: b) st
     = match JsConverter.sqlToJson a st with
       | Returned _ st' => JsConverter.sqlToJson b st'
       | Thrown st' => Thrown st'
       end.
Proof.
  intros Hl.
  split; [apply ts_statementsOf_app|]. split; [apply js_statementsOf_app|].
  pose proof (ts_statements_nonblank a) as Ta.
  pose proof (ts_statements_nonblank b) as Tb.
  pose proof (js_statements_nonblank a) as Ja.
  pose proof (js_statements_nonblank b) as Jb.
  unfold TsConverter.sqlToJson, JsConverter.sqlToJson.
  rewrite ts_statementsOf_app, js_statementsOf_app.
  rewrite (ts_run_dispatch (_ ++ _)) by (apply Forall_app; split; assumption).
  rewrite (js_run_dispatch (_ ++ _)) by (apply Forall_app; split; assumption).
  rewrite !runDispatch_app by exact Hl.
  rewrite (ts_run_dispatch (TsConverter.statementsOf a)) by exact Ta.
  rewrite (js_run_dispatch (JsConverter.statementsOf a)) by exact Ja.
  split.
  - destruct (runDispatch Ts.parseCreateTable _ st); [|reflexivity].
    symmetry. apply ts_run_dispatch. exact Tb.
  - destruct (runDispatch Js.parseCreateTable _ st); [|reflexivity].
    symmetry. apply js_run_dispatch. exact Jb.
Qed.

Lemma X10_content_composes_witness :
  TsConverter.sqlToJson
    (js "CREATE TABLE t (x INT); INSERT INTO t VALUES (7)" ++ ";"%char
        :: js "INSERT INTO t VALUES (8)") (newConverter None)
  = TsConverter.sqlToJson (js "INSERT INTO t VALUES (8)") stWithRows.
Proof.
  destruct (X10_content_composes (newConverter None)
              (js "CREATE TABLE t (x INT); INSERT INTO t VALUES (7)")
              (js "INSERT INTO t VALUES (8)") eq_refl) as (_ & _ & A & _).
  rewrite A. reflexivity.
Defined.

(** ** Comments *)

Lemma comment_not_statement sql :
  startsWith (js "--") sql = true ->
  startsWith (js "START TRANSACTION") sql = false
  /\ startsWith (js "COMMIT") sql = false
  /\ startsWith (js "DROP TABLE") (toUpperCase sql) = false
  /\ startsWith (js "CREATE TABLE") (toUpperCase sql) = false
  /\ startsWith (js "INSERT INTO") (toUpperCase sql) = false.
Proof.
  destruct sql as [|c1 t];
    unfold js; cbn [startsWith toUpperCase map list_ascii_of_string];
    intros H; try discriminate H.
  apply andb_prop in H as [H1 _]. apply ch_eqb_eq in H1. subst c1.
  repeat split; reflexivity.
Qed.

Lemma comment_dispatch pct sql st :
  startsWith (js "--") sql = true ->
  sameData (stateOf (dispatch pct sql st)) st.
Proof.
  intros H. destruct (comment_not_statement sql H) as (A & B & C & D & E).
  unfold dispatch. rewrite A, B, C, D, E.
  destruct (limitReached _); repeat split.
Qed.

(** X11.  A segment between semicolons that begins with a comment is
    dropped whole, with any statement that follows the comment line in the
    same segment: [sqlToJson] of the TypeScript class filters it out, and
    [bin/cli.js] passes it to [processStatement], which counts it and
    changes neither the registry nor the flags. *)
Theorem X11_comment_swallows_segment (st : Converter) (c rest : str) :
  Forall (fun x => x <> ";"%char) c ->
  startsWith (js "--") (trim c) = true ->
  TsConverter.sqlToJson (c ++ ";"%char :: rest) st = TsConverter.sqlToJson rest st
  /\ JsConverter.statementsOf (c ++ ";"%char :: rest)
     = c :: JsConverter.statementsOf rest
  /\ sameData (stateOf (JsConverter.processStatement c st)) st
  /\ sameData (stateOf (TsConverter.processStatement c st)) st.
Proof.
  intros Hc Hs.
  assert (Hne : isEmpty (trim c) = false).
  { destruct (trim c); [discriminate Hs | reflexivity]. }
  split; [|split; [|split]].
  - unfold TsConverter.sqlToJson. rewrite ts_statementsOf_app.
    unfold TsConverter.statementsOf at 1.
    rewrite splitChar_none by exact Hc. simpl map.
    rewrite filter_cons_False; [reflexivity|].
    rewrite Hs, andb_false_r. intros E. discriminate E.
  - rewrite js_statementsOf_app. unfold JsConverter.statementsOf at 1.
    rewrite splitChar_none by exact Hc.
    rewrite filter_cons_True by (rewrite Hne; reflexivity).
    reflexivity.
  - unfold JsConverter.processStatement. rewrite Hne.
    pose proof (comment_dispatch Js.parseCreateTable (trim c) st Hs) as D.
    destruct (dispatch Js.parseCreateTable (trim c) st); exact D.
  - unfold TsConverter.processStatement. rewrite Hne.
    apply comment_dispatch. exact Hs.
Qed.

Lemma X11_comment_swallows_segment_witness :
  TsConverter.sqlToJson
    (js "-- users" ++ lf ++ js "CREATE TABLE t (a INT)" ++ ";"%char :: [])
    (newConverter None)
  = Returned tt (newConverter None).
Proof.
  rewrite !app_assoc.
  destruct (X11_comment_swallows_segment (newConverter None)
              ((js "-- users" ++ lf) ++ js "CREATE TABLE t (a INT)") []) as (A & _).
  - vm_compute. repeat constructor; intros E; discriminate E.
  - vm_compute. reflexivity.
  - rewrite A. reflexivity.
Defined.

(** ** String literals written and read back *)

Lemma escapeQuotes_cons c t :
  escapeQuotes (c :: t)
  = if isQuoteChar c then backslash :: c :: escapeQuotes t
    else c :: escapeQuotes t.
Proof. unfold escapeQuotes. simpl. destruct (isQuoteChar c); reflexivity. Qed.

Lemma escapeQuotes_head s :
  match escapeQuotes s with
  | c :: _ => isQuoteChar c = false
  | [] => s = []
  end.
Proof.
  destruct s as [|c t]; [reflexivity|]. rewrite escapeQuotes_cons.
  destruct (isQuoteChar c) eqn:E; [reflexivity | exact E].
Qed.

Lemma unescape_escape s : unescapeQuotes (escapeQuotes s) = s.
Proof.
  induction s as [|c t IH]; [reflexivity|].
  rewrite escapeQuotes_cons. destruct (isQuoteChar c) eqn:E.
  - simpl. rewrite E. simpl. rewrite IH. reflexivity.
  - pose proof (escapeQuotes_head t) as Hh.
    destruct (escapeQuotes t) as [|d r] eqn:Et.
    + subst t. reflexivity.
    + simpl. rewrite Hh, andb_false_r. simpl in IH. rewrite IH. reflexivity.
Qed.

Lemma last_escapeQuotes s : last (escapeQuotes s) = last s.
Proof.
  induction s as [|c t IH]; [reflexivity|].
  rewrite escapeQuotes_cons.
  destruct (isQuoteChar c); rewrite !last_cons, IH; destruct (last t); reflexivity.
Qed.

Lemma cleanValue_quoteWith q s :
  isQuoteChar q = true -> cleanValue (quoteWith q s) = JStr s.
Proof.
  intros Hq. rewrite cleanValue_spec. unfold normalizeSpec, quoteWith.
  rewrite trim_ends by (apply quote_not_space; exact Hq).
  assert (Hn : isNullWord (q :: escapeQuotes s ++ [q]) = false).
  { unfold isNullWord. unfold isQuoteChar in Hq.
    destruct (escapeQuotes s ++ [q]) as [|b [|c [|d [|e r]]]]; try reflexivity.
    apply orb_prop in Hq as [Hq|Hq]; apply ch_eqb_eq in Hq; subst q;
      reflexivity. }
  rewrite Hn.
  assert (Hi : isQuoted (q :: escapeQuotes s ++ [q]) = true).
  { unfold isQuoted. rewrite Hq. simpl andb.
    change (q :: escapeQuotes s ++ [q]) with ((q :: escapeQuotes s) ++ [q]).
    rewrite last_snoc. apply bool_decide_eq_true. reflexivity. }
  rewrite Hi. unfold stripOuter. simpl tl. rewrite removelast_last.
  rewrite unescape_escape. reflexivity.
Qed.

Section ScanSteps.
Context {A : Type} (emit : str -> A).

Lemma scanStep_inside st prev c q :
  inString st = true -> stringChar st = Some q ->
  c <> q \/ prev = Some backslash ->
  scanStep emit st prev c
  = ScanState (values st) (current st ++ [c]) true (Some q) (depth st).
Proof.
  intros Hin Hsc H. unfold scanStep. rewrite Hin, Hsc. simpl.
  destruct H as [H|H].
  - rewrite bool_decide_eq_false_2 by congruence. reflexivity.
  - rewrite (bool_decide_eq_true_2 (prev = Some backslash)) by exact H.
    rewrite andb_false_r. reflexivity.
Qed.

Lemma scanStep_close st prev q :
  inString st = true -> stringChar st = Some q -> prev <> Some backslash ->
  scanStep emit st prev q
  = ScanState (values st) (current st ++ [q]) false (Some q) (depth st).
Proof.
  intros Hin Hsc H. unfold scanStep. rewrite Hin, Hsc. simpl.
  rewrite bool_decide_eq_true_2 by reflexivity.
  rewrite (bool_decide_eq_false_2 (prev = Some backslash)) by exact H.
  reflexivity.
Qed.

Lemma scanStep_open st prev q :
  inString st = false -> isQuoteChar q = true ->
  scanStep emit st prev q
  = ScanState (values st) (current st ++ [q]) true (Some q) (depth st).
Proof.
  intros Hin Hq. unfold scanStep. rewrite Hin. simpl.
  unfold isQuoteChar in Hq. rewrite Hq. reflexivity.
Qed.

Lemma scanStep_comma st prev :
  inString st = false -> depth st = 0%Z ->
  scanStep emit st prev ","
  = ScanState (values st ++ [emit (trim (current st))]) [] false
              (stringChar st) 0.
Proof.
  intros Hin Hd. unfold scanStep. rewrite Hin, Hd. reflexivity.
Qed.

Lemma scan_escaped q s : forall st prev,
  isQuoteChar q = true -> inString st = true -> stringChar st = Some q ->
  scanLoop emit st prev (escapeQuotes s)
  = ScanState (values st) (current st ++ escapeQuotes s) true (Some q) (depth st).
Proof.
  induction s as [|c t IH]; intros st prev Hq Hin Hsc.
  - simpl. rewrite app_nil_r. destruct st; simpl in *; subst; reflexivity.
  - rewrite escapeQuotes_cons. destruct (isQuoteChar c) eqn:E.
    + simpl scanLoop.
      rewrite (scanStep_inside st prev backslash q Hin Hsc).
      2:{ left. intros E0. rewrite <- E0 in Hq. discriminate Hq. }
      rewrite (scanStep_inside
                 (ScanState (values st) (current st ++ [backslash]) true
                            (Some q) (depth st))
                 (Some backslash) c q eq_refl eq_refl)
        by (right; reflexivity).
      rewrite IH by (assumption || reflexivity). simpl.
      rewrite <- !app_assoc. reflexivity.
    + simpl scanLoop.
      rewrite (scanStep_inside st prev c q Hin Hsc)
        by (left; intros ->; congruence).
      rewrite IH by (assumption || reflexivity). simpl.
      rewrite <- !app_assoc. reflexivity.
Qed.

Lemma scan_literal q s st prev :
  isQuoteChar q = true -> last s <> Some backslash ->
  inString st = false ->
  scanLoop emit st prev (quoteWith q s)
  = ScanState (values st) (current st ++ quoteWith q s) false (Some q) (depth st).
Proof.
  intros Hq Hl Hin. unfold quoteWith. simpl scanLoop.
  rewrite (scanStep_open st prev q Hin Hq), scanLoop_app.
  rewrite (scan_escaped q s) by (assumption || reflexivity).
  simpl scanLoop. rewrite scanStep_close; try reflexivity.
  - simpl. rewrite <- !app_assoc. reflexivity.
  - unfold lastOr. rewrite last_escapeQuotes.
    destruct (last s) as [e|]; [exact Hl|].
    intros E. inversion E; subst. discriminate Hq.
Qed.
End ScanSteps.

Lemma joinComma_cons first x t :
  joinComma first (x :: t) = first ++ ","%char :: joinComma x t.
Proof. reflexivity. Qed.

Lemma digit_plain a : isDigit a = true -> plainChar a = true.
Proof. char_cases a; vm_compute; congruence. Qed.

Lemma digitChar_ok d :
  (0 <= d < 10)%Z ->
  isDigit (digitChar d) = true /\ digitVal (digitChar d) = d.
Proof.
  intros H. unfold digitChar.
  assert (E : d = Z.of_nat (Z.to_nat d)) by lia.
  assert (L : Z.to_nat d < 10) by lia.
  rewrite E at 3. clear E.
  destruct (Z.to_nat d) as [|[|[|[|[|[|[|[|[|[|k]]]]]]]]]];
    try (split; reflexivity). lia.
Qed.

Lemma digitsValue_snoc ds c :
  digitsValue (ds ++ [c]) = (digitsValue ds * 10 + digitVal c)%Z.
Proof. unfold digitsValue. rewrite fold_left_app. reflexivity. Qed.

Lemma digitsOf_ok f : forall n,
  (0 <= n)%Z -> Z.to_nat n < f ->
  forallb isDigit (digitsOf f n) = true
  /\ digitsOf f n <> []
  /\ digitsValue (digitsOf f n) = n.
Proof.
  induction f as [|f IH]; intros n Hn Hf; [lia|].
  cbn [digitsOf]. destruct (n <? 10)%Z eqn:E.
  - apply Z.ltb_lt in E.
    destruct (digitChar_ok n) as [A B]; [lia|].
    split; [cbn [forallb]; rewrite A; reflexivity|].
    split; [discriminate|].
    change [digitChar n] with ([] ++ [digitChar n]).
    rewrite digitsValue_snoc, B. reflexivity.
  - apply Z.ltb_ge in E.
    assert (Hq : (0 <= n / 10 < n)%Z).
    { split; [apply Z.div_pos; lia | apply Z.div_lt; lia]. }
    destruct (IH (n / 10)%Z) as (A & B & C); [lia | lia |].
    destruct (digitChar_ok (n mod 10)) as [D F];
      [apply Z.mod_pos_bound; lia|].
    split; [rewrite forallb_app, A; cbn [forallb]; rewrite D; reflexivity|].
    split; [intros X; apply app_eq_nil in X as [_ X]; discriminate X|].
    rewrite digitsValue_snoc, C, F.
    pose proof (Z.div_mod n 10). lia.
Qed.

Lemma numeral_shape z :
  exists ds,
    forallb isDigit ds = true /\ ds <> []
    /\ digitsValue ds = Z.abs z
    /\ numeral z = if (z <? 0)%Z then "-"%char :: ds else ds.
Proof.
  unfold numeral. destruct (z <? 0)%Z eqn:E.
  - apply Z.ltb_lt in E.
    destruct (digitsOf_ok (S (Z.to_nat (- z))) (- z)%Z) as (A & B & C);
      [lia | lia |].
    eexists. repeat split; [exact A | exact B | rewrite C; lia].
  - apply Z.ltb_ge in E.
    destruct (digitsOf_ok (S (Z.to_nat z)) z) as (A & B & C); [lia | lia |].
    eexists. repeat split; [exact A | exact B | rewrite C; lia].
Qed.

Lemma trim_nospace s :
  forallb (fun c => negb (isWhiteSpace c)) s = true -> trim s = s.
Proof.
  intros H. unfold trim.
  assert (Hh : forall u, forallb (fun c => negb (isWhiteSpace c)) u = true ->
                         headNotSpace u).
  { intros [|c u]; simpl; [auto|]. intros X. apply andb_prop in X as [X _].
    apply negb_true_iff. exact X. }
  rewrite trimStart_fix by (apply Hh; exact H).
  unfold trimEnd. rewrite trimStart_fix, rev_involutive; [reflexivity|].
  apply Hh. rewrite forallb_forall in *. intros x Hx. apply H.
  apply in_rev. exact Hx.
Qed.

Lemma plain_nospace_digits ds sign :
  forallb isDigit ds = true -> sign = [] \/ sign = ["-"%char] ->
  plain (sign ++ ds)
  /\ forallb (fun c => negb (isWhiteSpace c)) (sign ++ ds) = true.
Proof.
  intros Hd Hs. unfold plain. rewrite !forallb_app.
  assert (A : forallb plainChar ds = true).
  { rewrite forallb_forall in *. intros x Hx. apply digit_plain, Hd, Hx. }
  assert (B : forallb (fun c => negb (isWhiteSpace c)) ds = true).
  { rewrite forallb_forall in *. intros x Hx.
    rewrite digit_not_space by (apply Hd, Hx). reflexivity. }
  rewrite A, B. destruct Hs as [-> | ->]; split; reflexivity.
Qed.

Lemma numeral_plain z :
  plain (numeral z) /\ trim (numeral z) = numeral z /\ numeral z <> [].
Proof.
  destruct (numeral_shape z) as (ds & Hd & Hne & _ & ->).
  destruct (z <? 0)%Z.
  - destruct (plain_nospace_digits ds ["-"%char] Hd) as [A B]; [auto|].
    split; [exact A|]. split; [apply trim_nospace; exact B | discriminate].
  - destruct (plain_nospace_digits ds [] Hd) as [A B]; [auto|].
    split; [exact A|]. split; [apply trim_nospace; exact B | exact Hne].
Qed.

Lemma cleanValue_numeral z : cleanValue (numeral z) = JNum (Dec z 0).
Proof.
  rewrite cleanValue_spec. unfold normalizeSpec.
  destruct (numeral_plain z) as (_ & -> & _).
  destruct (numeral_shape z) as (ds & Hd & Hne & Hv & ->).
  destruct ds as [|d ds]; [congruence|].
  simpl in Hd. apply andb_prop in Hd as [Hd Hds].
  pose proof (digit_not_minus d Hd) as Hm.
  assert (Hq : isQuoteChar d = false).
  { clear -Hd. revert Hd. char_cases d; vm_compute; congruence. }
  assert (Hn : forall t, isNullWord (d :: t) = false).
  { intros t. unfold isNullWord.
    replace (ch_eqb d "N" || ch_eqb d "n") with false.
    { destruct t as [|? [|? [|? [|? ?]]]]; reflexivity. }
    clear -Hd. revert Hd. char_cases d; vm_compute; congruence. }
  destruct (z <? 0)%Z eqn:E.
  - assert (N1 : isNullWord ("-"%char :: d :: ds) = false).
    { destruct ds as [|? [|? [|? ?]]]; reflexivity. }
    rewrite N1.
    assert (Q1 : isQuoted ("-"%char :: d :: ds) = false) by reflexivity.
    rewrite Q1.
    assert (I1 : isIntegerText ("-"%char :: d :: ds) = true).
    { unfold isIntegerText, unsigned, allDigits. simpl.
      rewrite Hd, Hds. reflexivity. }
    rewrite I1. unfold integerValue, signZ, unsigned. simpl ch_eqb. cbv iota.
    rewrite Hv. unfold Dec. rewrite E. reflexivity.
  - rewrite Hn.
    assert (Q1 : isQuoted (d :: ds) = false).
    { unfold isQuoted. rewrite Hq. reflexivity. }
    rewrite Q1.
    assert (I1 : isIntegerText (d :: ds) = true).
    { unfold isIntegerText, unsigned, allDigits. rewrite Hm. simpl.
      rewrite Hd, Hds. reflexivity. }
    rewrite I1. unfold integerValue, signZ, unsigned. rewrite Hm.
    rewrite Hv. unfold Dec. rewrite E. reflexivity.
Qed.

(** The values of an example are writable. *)
Ltac writable_values :=
  repeat (first [apply List.Forall_nil | apply List.Forall_cons]);
  unfold writable;
  first [ exact I
        | intros E; discriminate E
        | eexists; (split; [|reflexivity]); reflexivity ].

Lemma writeValue_integer q z :
  safeInteger z -> writeValue q (JNum (Dec z 0)) = numeral z.
Proof. intros H. unfold writeValue. rewrite (Dec_exact z H). reflexivity. Qed.

Lemma cleanValue_writeValue q v :
  isQuoteChar q = true -> writable v -> cleanValue (writeValue q v) = v.
Proof.
  intros Hq Hw. destruct v as [|s|n]; simpl in Hw.
  - reflexivity.
  - apply cleanValue_quoteWith. exact Hq.
  - destruct Hw as (z & Hz & ->). rewrite (writeValue_integer q z Hz).
    apply cleanValue_numeral.
Qed.

Lemma trim_writeValue q v :
  isQuoteChar q = true -> writable v ->
  trim (writeValue q v) = writeValue q v /\ writeValue q v <> [].
Proof.
  intros Hq Hw. destruct v as [|s|n]; simpl in Hw.
  - split; [reflexivity | discriminate].
  - split; [|discriminate]. simpl. unfold quoteWith.
    apply trim_ends; apply quote_not_space; exact Hq.
  - destruct Hw as (z & Hz & ->). rewrite (writeValue_integer q z Hz).
    destruct (numeral_plain z) as (_ & A & B). split; assumption.
Qed.

Lemma scan_writeValue q v (st : scanState str) prev :
  isQuoteChar q = true -> writable v -> inString st = false ->
  exists sc,
    scanLoop (fun t => t) st prev (writeValue q v)
    = ScanState (values st) (current st ++ writeValue q v) false sc (depth st).
Proof.
  intros Hq Hw Hin.
  destruct v as [|s|n]; simpl in Hw.
  - eexists. apply scan_plain; [reflexivity | exact Hin].
  - eexists. apply scan_literal; assumption.
  - destruct Hw as (z & Hz & ->). rewrite (writeValue_integer q z Hz).
    eexists. apply scan_plain; [apply numeral_plain | exact Hin].
Qed.

Lemma scan_values q more : forall first (st : scanState str) prev,
  isQuoteChar q = true -> Forall writable (first :: more) ->
  inString st = false -> depth st = 0%Z -> current st = [] ->
  finish (fun t => t)
    (scanLoop (fun t => t) st prev
       (joinComma (writeValue q first) (map (writeValue q) more)))
  = values st ++ map (writeValue q) (first :: more).
Proof.
  induction more as [|x t IH]; intros first st prev Hq Hall Hin Hd Hc;
    inversion Hall as [|? ? Hf Hmore]; subst;
    destruct (scan_writeValue q first st prev Hq Hf Hin) as [sc Hs];
    destruct (trim_writeValue q first Hq Hf) as [Ht Hne].
  - simpl joinComma. rewrite Hs.
    unfold finish. simpl values. simpl current. rewrite Hc, app_nil_l, Ht.
    cbn [map]. destruct (writeValue q first); [congruence | reflexivity].
  - rewrite map_cons, joinComma_cons, scanLoop_app, Hs.
    simpl scanLoop at 1.
    rewrite scanStep_comma by (simpl; first [reflexivity | assumption]).
    rewrite IH by (simpl; auto). simpl values. simpl current.
    rewrite Hc, app_nil_l, Ht, <- app_assoc. reflexivity.
Qed.

Lemma parseValues_written q vs :
  isQuoteChar q = true -> Forall writable vs ->
  parseValues (joinAll (map (writeValue q) vs)) = vs.
Proof.
  intros Hq Hall.
  assert (Hm : map cleanValue (map (writeValue q) vs) = vs).
  { rewrite map_map. induction Hall as [|v vs Hv Hvs IH]; [reflexivity|].
    simpl. rewrite cleanValue_writeValue, IH by assumption. reflexivity. }
  rewrite parseValues_tokenize. rewrite <- Hm at 2. f_equal.
  destruct vs as [|first more]; [reflexivity|].
  unfold tokenize. rewrite scanValues_finish. simpl joinAll.
  rewrite (scan_values q more first) by (assumption || reflexivity).
  reflexivity.
Qed.

(** X12.  Values written as SQL text are read back unchanged: null as
    NULL, a safe integer (at most 2^53 - 1 in absolute value) as its
    decimal numeral, a string between quotes with a backslash before
    every quote character it holds.  [cleanValue]
    returns the value from its text, and [parseValues] returns the list of
    values from their comma-joined texts, provided no string ends in a
    backslash (which would escape its closing quote). *)
Theorem X12_values_round_trip (q : ascii) (vs : list jsval) :
  isQuoteChar q = true -> Forall writable vs ->
  map cleanValue (map (writeValue q) vs) = vs
  /\ parseValues (joinAll (map (writeValue q) vs)) = vs.
Proof.
  intros Hq Hall. split.
  - rewrite map_map. induction Hall as [|v vs Hv Hvs IH]; [reflexivity|].
    simpl. rewrite cleanValue_writeValue, IH by assumption. reflexivity.
  - apply parseValues_written; assumption.
Qed.

Lemma X12_values_round_trip_witness :
  parseValues (js "-17,NULL,'O\'Brien','a,b',0")
  = [JNum (Dec (-17) 0); JNull; JStr (js "O'Brien"); JStr (js "a,b");
     JNum (Dec 0 0)].
Proof.
  destruct (X12_values_round_trip squote
              [JNum (Dec (-17) 0); JNull; JStr (js "O'Brien"); JStr (js "a,b");
               JNum (Dec 0 0)]) as [_ A].
  - reflexivity.
  - writable_values.
  - exact A.
Defined.

(** ** The line loop *)

Section LineLoopFacts.
Context {R : Type}.
Variable processStatement : str -> Converter -> outcome R.
Variable goOn : R -> bool.

Lemma lineLoop_filter lines : forall cs st,
  lineLoop processStatement goOn (statementLines lines) cs st
  = lineLoop processStatement goOn lines cs st.
Proof.
  induction lines as [|l more IH]; intros cs st; [reflexivity|].
  unfold statementLines. simpl List.filter. fold (statementLines more).
  destruct (skipLine l) eqn:E; simpl negb; cbv iota.
  - simpl lineLoop. rewrite E. apply IH.
  - simpl lineLoop. rewrite E.
    destruct (endsWith [";"%char] (trim l)); [|apply IH].
    destruct (processStatement _ st) as [r st'|st']; [|reflexivity].
    destruct (goOn r); [apply IH | reflexivity].
Qed.

Lemma lineLoop_continuations ls : forall cs more st,
  Forall continuation ls ->
  lineLoop processStatement goOn (ls ++ more) cs st
  = lineLoop processStatement goOn more (cs ++ joined ls) st.
Proof.
  induction ls as [|l ls IH]; intros cs more st H.
  - simpl. rewrite app_nil_r. reflexivity.
  - inversion H as [|? ? [Hs He] Hls]; subst.
    simpl. rewrite Hs, He, IH by exact Hls.
    rewrite <- app_assoc. reflexivity.
Qed.

Lemma lineLoop_statement ls final more st :
  Forall continuation ls -> terminator final ->
  lineLoop processStatement goOn (ls ++ final :: more) [] st
  = match processStatement (trim (joined (ls ++ [final]))) st with
    | Returned shouldContinue st' =>
        if goOn shouldContinue
        then lineLoop processStatement goOn more [] st'
        else Returned [] st'
    | Thrown st' => Thrown st'
    end.
Proof.
  intros Hls [Hs He]. rewrite lineLoop_continuations by exact Hls.
  simpl. rewrite Hs, He. unfold joined. rewrite flat_map_app. simpl.
  rewrite app_nil_r. reflexivity.
Qed.
End LineLoopFacts.

(** X13.  In the line loop of [processLargeSQL], blank lines and lines
    that begin with a comment can be added or removed anywhere without
    changing the outcome, also inside a statement; and a statement spread
    over several lines, the last of which ends in a semicolon, reaches
    [processStatement] as these lines joined by single spaces.  Both
    implementations. *)
Theorem X13_line_loop (ls more lines : list str) (final : str) (st : Converter) :
  Forall continuation ls -> terminator final ->
  tsProcessLines (statementLines lines) st = tsProcessLines lines st
  /\ jsProcessLines (statementLines lines) st = jsProcessLines lines st
  /\ lineLoop TsConverter.processStatement (fun b => b)
       (ls ++ final :: more) [] st
     = match TsConverter.processStatement (trim (joined (ls ++ [final]))) st with
       | Returned shouldContinue st' =>
           if shouldContinue
           then lineLoop TsConverter.processStatement (fun b => b) more [] st'
           else Returned [] st'
       | Thrown st' => Thrown st'
       end
  /\ lineLoop JsConverter.processStatement JsConverter.truthy
       (ls ++ final :: more) [] st
     = match JsConverter.processStatement (trim (joined (ls ++ [final]))) st with
       | Returned shouldContinue st' =>
           if JsConverter.truthy shouldContinue
           then lineLoop JsConverter.processStatement JsConverter.truthy more [] st'
           else Returned [] st'
       | Thrown st' => Thrown st'
       end.
Proof.
  intros Hls Hf.
  split; [unfold tsProcessLines, processLines; rewrite lineLoop_filter;
          reflexivity|].
  split; [unfold jsProcessLines, processLines; rewrite lineLoop_filter;
          reflexivity|].
  split; apply lineLoop_statement; assumption.
Qed.

Lemma X13_line_loop_witness :
  tsProcessLines
    (statementLines
       [js "-- users"; js "CREATE TABLE t ("; []; js "  a INT"; js ");"])
    (newConverter None)
  = tsProcessLines
      [js "-- users"; js "CREATE TABLE t ("; []; js "  a INT"; js ");"]
      (newConverter None).
Proof.
  destruct (X13_line_loop [js "CREATE TABLE t ("; js "  a INT"] [] 
              [js "-- users"; js "CREATE TABLE t ("; []; js "  a INT"; js ");"]
              (js ");") (newConverter None)) as (A & _).
  - repeat constructor.
  - split; reflexivity.
  - exact A.
Defined.

(** ** The totals of the metadata *)

Lemma records_fold_insert (m : gmap str TableInfo) k t :
  m !! k = None ->
  map_fold (fun (_ : str) table sum => sum + length (data table)) 0 (<[k := t]> m)
  = map_fold (fun (_ : str) table sum => sum + length (data table)) 0 m
    + length (data t).
Proof.
  intros H. rewrite map_fold_insert_L; [reflexivity| |exact H].
  intros. lia.
Qed.

Lemma records_fold_replace (m : gmap str TableInfo) k old t :
  m !! k = Some old ->
  map_fold (fun (_ : str) table sum => sum + length (data table)) 0 (<[k := t]> m)
  + length (data old)
  = map_fold (fun (_ : str) table sum => sum + length (data table)) 0 m
    + length (data t).
Proof.
  intros H.
  rewrite <- (insert_delete_eq m k t).
  rewrite <- (insert_delete_id m k old H) at 2.
  rewrite !records_fold_insert by apply lookup_delete_eq. lia.
Qed.

(** X14.  An INSERT into a registered table raises the total of records
    by the number of its value groups and leaves the total of tables as it
    is.  Both implementations. *)
Theorem X14_insert_totals (st : Converter) (sql : str) (ii : InsertInfo)
    (t : TableInfo) :
  startsWith (js "INSERT INTO") (toUpperCase (trim sql)) = true ->
  limitReached (withCounter st (processedStatements st + 1)) = false ->
  parseInsertInto (trim sql) = Some ii ->
  tables st !! insTableName ii = Some t ->
  totalRecords (stateOf (TsConverter.processStatement sql st))
  = totalRecords st + length (records ii)
  /\ totalTables (stateOf (TsConverter.processStatement sql st)) = totalTables st
  /\ totalRecords (stateOf (JsConverter.processStatement sql st))
     = totalRecords st + length (records ii)
  /\ totalTables (stateOf (JsConverter.processStatement sql st)) = totalTables st.
Proof.
  intros Hk Hl Hp Ht.
  assert (Hne : isEmpty (trim sql) = false).
  { destruct (trim sql); [discriminate Hk | reflexivity]. }
  unfold TsConverter.processStatement, JsConverter.processStatement.
  rewrite Hne, !(dispatch_insert _ _ _ Hk Hl), Hp.
  unfold insertRows.
  rewrite (getTable_lookup (withCounter st (processedStatements st + 1)) _ t Ht).
  unfold totalRecords, totalTables. simpl.
  pose proof (records_fold_replace (tables st) (insTableName ii) t
                (pushRows t (records ii)) Ht) as E.
  unfold pushRows in E at 2. simpl in E.
  rewrite length_app, length_map in E.
  assert (S : size (<[insTableName ii := pushRows t (records ii)]> (tables st))
              = size (tables st)).
  { apply map_size_insert_Some. rewrite Ht. eauto. }
  repeat split; try exact S;
    apply (Nat.add_cancel_r _ _ (length (data t))); rewrite E;
    rewrite <- !Nat.add_assoc; f_equal; apply Nat.add_comm.
Qed.

Lemma X14_insert_totals_witness :
  totalRecords (stateOf (TsConverter.processStatement
                           (js "INSERT INTO t VALUES (1),(2)") stWithRows))
  = totalRecords stWithRows + 2.
Proof.
  destruct (X14_insert_totals stWithRows (js "INSERT INTO t VALUES (1),(2)")
              (mkInsert (js "t") [[JNum (Dec 1 0)]; [JNum (Dec 2 0)]])
              (mkTable (js "t") [mkColumn (js "x") (js "INT")]
                 [rowOf [mkColumn (js "x") (js "INT")] [JNum (Dec 7 0)]]))
    as (A & _).
  - vm_compute. reflexivity.
  - vm_compute. reflexivity.
  - vm_compute. reflexivity.
  - vm_compute. reflexivity.
  - exact A.
Defined.

Lemma setTable_totals st k t :
  k <> protoKey ->
  totalTables (setTable st k t)
  = (match tables st !! k with Some _ => 0 | None => 1 end) + totalTables st
  /\ totalRecords (setTable st k t)
     + (match tables st !! k with Some old => length (data old) | None => 0 end)
     = totalRecords st + length (data t).
Proof.
  intros Hk. unfold setTable.
  replace (str_eqb k protoKey) with false
    by (symmetry; apply not_true_iff_false; rewrite str_eqb_eq; exact Hk).
  unfold totalTables, totalRecords. simpl.
  destruct (tables st !! k) as [old|] eqn:E.
  - split; [apply map_size_insert_Some; rewrite E; eauto|].
    apply records_fold_replace. exact E.
  - split; [apply map_size_insert_None; exact E|].
    rewrite records_fold_insert by exact E. lia.
Qed.

Lemma parsers_same_name sql ti tj :
  Ts.parseCreateTable sql = Some ti -> Js.parseCreateTable sql = Some tj ->
  tableName tj = tableName ti.
Proof.
  destruct (ts_parseCreateTable_head sql) as [ct ->].
  destruct (js_parseCreateTable_head sql) as [cj ->].
  destruct (tableHead sql) as [[nm part]|]; [|discriminate].
  intros E1 E2. inversion E1; inversion E2; reflexivity.
Qed.

(** X15.  A CREATE TABLE statement that is dispatched and parsed, for a
    name other than [__proto__], adds one to the total of tables when the
    name is new and nothing when it is registered, and takes the rows of
    the table it replaces out of the total of records.  Both
    implementations. *)
Theorem X15_create_totals (st : Converter) (sql : str) (ti tj : TableInfo) :
  startsWith (js "CREATE TABLE") (toUpperCase (trim sql)) = true ->
  limitReached (withCounter st (processedStatements st + 1)) = false ->
  Ts.parseCreateTable (trim sql) = Some ti ->
  Js.parseCreateTable (trim sql) = Some tj ->
  tableName ti <> protoKey ->
  let gone :=
    match tables st !! tableName ti with
    | Some old => length (data old)
    | None => 0
    end in
  let fresh :=
    match tables st !! tableName ti with
    | Some _ => 0
    | None => 1
    end in
  totalTables (stateOf (TsConverter.processStatement sql st))
  = fresh + totalTables st
  /\ totalRecords (stateOf (TsConverter.processStatement sql st)) + gone
     = totalRecords st
  /\ totalTables (stateOf (JsConverter.processStatement sql st))
     = fresh + totalTables st
  /\ totalRecords (stateOf (JsConverter.processStatement sql st)) + gone
     = totalRecords st.
Proof.
  intros Hk Hl Ht Hj Hn gone fresh.
  assert (Hne : isEmpty (trim sql) = false).
  { destruct (trim sql); [discriminate Hk | reflexivity]. }
  assert (Hnm : tableName tj = tableName ti)
    by (eapply parsers_same_name; eassumption).
  unfold TsConverter.processStatement, JsConverter.processStatement.
  rewrite Hne, (dispatch_create _ _ _ ti Hk Hl Ht),
    (dispatch_create _ _ _ tj Hk Hl Hj), Hnm.
  cbn [stateOf].
  destruct (setTable_totals (withCounter st (processedStatements st + 1))
              (tableName ti) ti Hn) as [A B].
  destruct (setTable_totals (withCounter st (processedStatements st + 1))
              (tableName ti) tj Hn) as [C D].
  rewrite (ts_parse_data _ _ Ht) in B. rewrite (js_parse_data _ _ Hj) in D.
  change (totalTables (withCounter st (processedStatements st + 1)))
    with (totalTables st) in A, C.
  change (totalRecords (withCounter st (processedStatements st + 1)))
    with (totalRecords st) in B, D.
  rewrite Nat.add_0_r in B, D. subst gone fresh.
  repeat split; assumption.
Qed.

Lemma X15_create_totals_witness :
  totalTables (stateOf (TsConverter.processStatement stmtExample stWithRows))
  = totalTables stWithRows
  /\ totalRecords (stateOf (TsConverter.processStatement stmtExample stWithRows)) + 1
     = totalRecords stWithRows.
Proof.
  destruct (X15_create_totals stWithRows stmtExample tableExample
              (mkTable (js "t") [] [])) as (A & B & _).
  - vm_compute. reflexivity.
  - vm_compute. reflexivity.
  - vm_compute. reflexivity.
  - vm_compute. reflexivity.
  - intros E. discriminate E.
  - split; [exact A | exact B].
Defined.

(** ** The command line *)

Lemma truthyOrNull_truthy n m :
  truthyOrNull n = Some m -> truthyNumber m = true.
Proof.
  unfold truthyOrNull. destruct (truthyNumber n) eqn:E; [|discriminate].
  intros H. inversion H; subst. exact E.
Qed.

Lemma Dec_truthy z :
  safeInteger z -> z <> 0%Z -> truthyNumber (Dec z 0) = true.
Proof.
  intros H Hz. apply safeInteger_bound in H. unfold Dec.
  destruct z as [|p|p]; [congruence| |].
  - destruct (nearest_exact false p ltac:(lia)) as (r & E & _).
    change (nearest (Zpos p <? 0)%Z (Z.abs (Zpos p)) 0)
      with (nearest false (Zpos p) 0). rewrite E. reflexivity.
  - destruct (nearest_exact true p ltac:(lia)) as (r & E & _).
    change (nearest (Zneg p <? 0)%Z (Z.abs (Zneg p)) 0)
      with (nearest true (Zpos p) 0). rewrite E. reflexivity.
Qed.

Lemma digit_not_x a : isDigit a = true -> ch_eqb a "x" || ch_eqb a "X" = false.
Proof. char_cases a; vm_compute; congruence. Qed.

Lemma parseIntAuto_digits neg sg ds :
  forallb isDigit ds = true -> ds <> [] -> (sg <? 0)%Z = neg ->
  (let decimal :=
     match takeDigits ds with
     | [] => NaN
     | ds' => nearest (sg <? 0)%Z (digitsValue ds') 0
     end in
   match ds with
   | z :: x :: t =>
       if ch_eqb z "0" && (ch_eqb x "x" || ch_eqb x "X")
       then match takeHex t with
            | [] => NaN
            | hs => nearest (sg <? 0)%Z (hexValue hs) 0
            end
       else decimal
   | _ => decimal
   end) = nearest neg (digitsValue ds) 0.
Proof.
  intros Hd Hne <-. cbv zeta. rewrite (takeDigits_all ds Hd).
  destruct ds as [|a [|b t]]; [congruence | reflexivity |].
  simpl in Hd. apply andb_prop in Hd as [_ Hd].
  apply andb_prop in Hd as [Hb _].
  rewrite (digit_not_x b Hb), andb_false_r. reflexivity.
Qed.

(** [parseInt] of the decimal numeral of an integer is the Number nearest
    to it. *)
Lemma parseIntAuto_numeral z : parseIntAuto (numeral z) = Dec z 0.
Proof.
  destruct (numeral_shape z) as (ds & Hd & Hne & Hv & E).
  unfold parseIntAuto, Dec. rewrite E.
  destruct ds as [|d ds']; [congruence|].
  pose proof Hd as Hd0. simpl in Hd0. apply andb_prop in Hd0 as [Hd0 _].
  destruct (z <? 0)%Z eqn:Ez.
  - rewrite trimStart_nonspace by reflexivity.
    change (signOf ("-"%char :: d :: ds')) with ((-1)%Z, d :: ds').
    rewrite <- Hv. exact (parseIntAuto_digits true (-1) (d :: ds') Hd Hne eq_refl).
  - rewrite trimStart_nonspace by (apply digit_not_space; exact Hd0).
    rewrite signOf_digit by exact Hd0.
    rewrite <- Hv. exact (parseIntAuto_digits false 1 (d :: ds') Hd Hne eq_refl).
Qed.

Lemma orText_nonempty v d : d <> [] -> Cli.orText v d <> [].
Proof. intros Hd. destruct v as [[|c t]|]; simpl; congruence. Qed.

Lemma cli_includes_app x pre post :
  Cli.includes x (pre ++ x :: post) = true.
Proof.
  unfold Cli.includes. rewrite existsb_app. simpl.
  unfold str_eqb. rewrite bool_decide_eq_true_2 by reflexivity.
  apply orb_true_r.
Qed.

Lemma cli_indexOf_first x pre post :
  ~ In x pre -> Cli.indexOf x (pre ++ x :: post) = Some (length pre).
Proof.
  induction pre as [|a pre IH]; intros H; simpl.
  - unfold str_eqb. rewrite bool_decide_eq_true_2 by reflexivity. reflexivity.
  - unfold str_eqb. rewrite bool_decide_eq_false_2.
    + rewrite IH; [reflexivity|]. intros Hin. apply H. right. exact Hin.
    + intros E. apply H. left. exact E.
Qed.

Lemma cli_valueAfter_first x pre v post :
  ~ In x pre -> Cli.valueAfter x (pre ++ x :: v :: post) = Some v.
Proof.
  intros H. unfold Cli.valueAfter.
  rewrite cli_includes_app, cli_indexOf_first by exact H.
  change (pre ++ x :: v :: post) with (pre ++ [x] ++ v :: post).
  rewrite app_assoc.
  replace (S (length pre)) with (length (pre ++ [x]) + 0)
    by (rewrite length_app; simpl; lia).
  rewrite lookup_app_r by lia.
  replace (length (pre ++ [x]) + 0 - length (pre ++ [x])) with 0 by lia.
  reflexivity.
Qed.

(** X16.  Whatever the arguments, [parseArgs] returns a batch size that
    is truthy (neither zero nor NaN), a limit that is null or truthy, and
    an output directory that is not empty.  The limit comes from the
    argument after the first [--limit]: it is what [parseInt] makes of it,
    the Number nearest to the integer the argument starts with, and null
    when that is zero or the argument starts with no digit.  For the
    decimal numeral of a safe integer other than 0 the limit is that
    integer. *)
Theorem X16_parse_args (args pre post : list str) (v : str) (z : Z) :
  ~ In (js "--limit") pre -> safeInteger z -> z <> 0%Z ->
  truthyNumber (Cli.batchSize (Cli.parseArgs args)) = true
  /\ (forall n, Cli.limit (Cli.parseArgs args) = Some n ->
                truthyNumber n = true)
  /\ Cli.outputDir (Cli.parseArgs args) <> []
  /\ Cli.limit (Cli.parseArgs (pre ++ js "--limit" :: v :: post))
     = truthyOrNull (parseIntAuto v)
  /\ Cli.limit (Cli.parseArgs (pre ++ js "--limit" :: numeral z :: post))
     = Some (Dec z 0)
  /\ integerOf (Dec z 0) = Some z.
Proof.
  intros Hpre Hz Hz0.
  assert (Hv : forall w,
             Cli.limit (Cli.parseArgs (pre ++ js "--limit" :: w :: post))
             = truthyOrNull (parseIntAuto w)).
  { intros w. unfold Cli.parseArgs. cbn [Cli.limit Cli.batchSize Cli.outputDir].
    rewrite cli_includes_app, cli_valueAfter_first by exact Hpre.
    reflexivity. }
  split; [|split; [|split; [|split; [|split]]]].
  - unfold Cli.parseArgs. cbn [Cli.limit Cli.batchSize Cli.outputDir].
    destruct (Cli.includes (js "--batch-size") args); [|reflexivity].
    destruct (truthyOrNull _) as [n|] eqn:E; [|reflexivity].
    exact (truthyOrNull_truthy _ _ E).
  - intros n. unfold Cli.parseArgs. cbn [Cli.limit Cli.batchSize Cli.outputDir].
    destruct (Cli.includes (js "--limit") args); [|discriminate].
    apply truthyOrNull_truthy.
  - unfold Cli.parseArgs. cbn [Cli.limit Cli.batchSize Cli.outputDir].
    destruct (Cli.includes (js "--output-dir") args); [|discriminate].
    apply orText_nonempty. discriminate.
  - apply Hv.
  - rewrite Hv, parseIntAuto_numeral. unfold truthyOrNull.
    rewrite (Dec_truthy z Hz Hz0). reflexivity.
  - apply Dec_exact. exact Hz.
Qed.

Lemma X16_parse_args_witness :
  Cli.limit (Cli.parseArgs [js "dump.sql"; js "--combined"; js "--limit";
                            js "25"; js "--limit"; js "7"])
  = Some (Dec 25 0)
  /\ integerOf (Dec 25 0) = Some 25%Z.
Proof.
  destruct (X16_parse_args [] [js "dump.sql"; js "--combined"]
              [js "--limit"; js "7"] (js "25") 25)
    as (_ & _ & _ & _ & A & B).
  - intros [E|[E|E]]; [discriminate E | discriminate E | destruct E].
  - reflexivity.
  - discriminate.
  - split; [exact A | exact B].
Defined.

(** ** Invariants of whole runs *)

Section Invariants.
Variable P : Converter -> Prop.
Hypothesis ts_step :
  forall sql st, P st -> P (stateOf (dispatch Ts.parseCreateTable sql st)).
Hypothesis js_step :
  forall sql st, P st -> P (stateOf (dispatch Js.parseCreateTable sql st)).

Lemma ts_process_inv sql st :
  P st -> P (stateOf (TsConverter.processStatement sql st)).
Proof.
  intros H. unfold TsConverter.processStatement.
  destruct (isEmpty (trim sql)); [exact H | apply ts_step; exact H].
Qed.

Lemma js_process_inv sql st :
  P st -> P (stateOf (JsConverter.processStatement sql st)).
Proof.
  intros H. unfold JsConverter.processStatement.
  destruct (isEmpty (trim sql)); [exact H|].
  pose proof (js_step (trim sql) st H) as D.
  destruct (dispatch Js.parseCreateTable (trim sql) st); exact D.
Qed.

Lemma ts_run_inv ss : forall st,
  P st -> P (stateOf (TsConverter.runStatements ss st)).
Proof.
  induction ss as [|s more IH]; intros st H; [exact H|].
  simpl. destruct (0 <? length s); [|apply IH; exact H].
  pose proof (ts_process_inv s st H) as D.
  destruct (TsConverter.processStatement s st) as [[] st'|st'];
    [apply IH; exact D | exact D | exact D].
Qed.

Lemma js_run_inv ss : forall st,
  P st -> P (stateOf (JsConverter.runStatements ss st)).
Proof.
  induction ss as [|s more IH]; intros st H; [exact H|].
  simpl.
  pose proof (js_process_inv s st H) as D.
  destruct (JsConverter.processStatement s st) as [r st'|st']; [|exact D].
  destruct (JsConverter.truthy r); [apply IH; exact D | exact D].
Qed.

Lemma lineLoop_inv {R} (ps : str -> Converter -> outcome R) goOn :
  (forall sql st, P st -> P (stateOf (ps sql st))) ->
  forall lines cs st, P st -> P (stateOf (lineLoop ps goOn lines cs st)).
Proof.
  intros Hps. induction lines as [|l more IH]; intros cs st H; [exact H|].
  simpl. destruct (skipLine l); [apply IH; exact H|].
  destruct (endsWith _ _); [|apply IH; exact H].
  pose proof (Hps (trim (cs ++ " "%char :: l)) st H) as D.
  destruct (ps _ st) as [r st'|st']; [|exact D].
  destruct (goOn r); [apply IH; exact D | exact D].
Qed.

Lemma processLines_inv {R} (ps : str -> Converter -> outcome R) goOn :
  (forall sql st, P st -> P (stateOf (ps sql st))) ->
  forall lines st, P st -> P (stateOf (processLines ps goOn lines st)).
Proof.
  intros Hps lines st H. unfold processLines.
  pose proof (lineLoop_inv ps goOn Hps lines [] st H) as D.
  destruct (lineLoop ps goOn lines [] st) as [cs st'|st']; [|exact D].
  simpl in D. destruct (isEmpty (trim cs)); [exact D|].
  pose proof (Hps (trim cs) st' D) as D'.
  destruct (ps (trim cs) st'); exact D'.
Qed.
End Invariants.

Lemma setTable_lookup_ne st k t k' :
  k' <> k -> tables (setTable st k t) !! k' = tables st !! k'.
Proof.
  intros H. unfold setTable. destruct (_ && _); simpl; [reflexivity|].
  apply lookup_insert_ne. congruence.
Qed.

Lemma dispatch_names pct sql st :
  namesOk st -> namesOk (stateOf (dispatch pct sql st)).
Proof.
  intros H. unfold dispatch. cbv zeta.
  repeat (match goal with
          | |- context [if ?b then _ else _] => destruct b
          end; try exact H).
  - destruct (pct sql) as [ti|]; [|exact H]. cbn [stateOf].
    intros k t. unfold setTable. destruct (_ && _); simpl; [apply H|].
    intros E. apply lookup_insert_Some in E as [[<- <-]|[_ E]];
      [reflexivity | apply H; exact E].
  - destruct (parseInsertInto sql) as [ii|]; [|exact H].
    unfold insertRows.
    destruct (getTable _ (insTableName ii)) as [|t|p|[]] eqn:G;
      try exact H.
    + apply getTable_own in G. simpl in G. cbn [stateOf].
      intros k t'. simpl. intros E.
      apply lookup_insert_Some in E as [[<- <-]|[_ E]];
        [simpl; apply H; exact G | apply H; exact E].
    + destruct (records ii); exact H.
Qed.

Lemma dispatch_noProto pct sql st :
  noProtoKey st -> noProtoKey (stateOf (dispatch pct sql st)).
Proof.
  intros H. unfold dispatch. cbv zeta.
  repeat (match goal with
          | |- context [if ?b then _ else _] => destruct b
          end; try exact H).
  - destruct (pct sql) as [ti|]; [|exact H]. cbn [stateOf].
    unfold noProtoKey, setTable.
    destruct (str_eqb (tableName ti) protoKey) eqn:E.
    + apply str_eqb_eq in E. rewrite E. simpl.
      rewrite bool_decide_eq_false_2; [exact H|].
      unfold noProtoKey in H. simpl in H. rewrite H. intros [x X]. discriminate X.
    + simpl. rewrite lookup_insert_ne; [exact H|].
      intros X. apply not_true_iff_false in E. apply E. apply str_eqb_eq.
      exact X.
  - destruct (parseInsertInto sql) as [ii|]; [|exact H].
    unfold insertRows.
    destruct (getTable _ (insTableName ii)) as [|t|p|[]] eqn:G;
      try exact H.
    + apply getTable_own in G. simpl in G. cbn [stateOf].
      unfold noProtoKey. simpl. rewrite lookup_insert_ne; [exact H|].
      intros X. unfold noProtoKey in H. simpl in H. congruence.
    + destruct (records ii); exact H.
Qed.

Lemma ts_dispatch_healthy sql st :
  healthy st -> healthy (stateOf (dispatch Ts.parseCreateTable sql st)).
Proof.
  intros (A & B & C). split; [|split].
  - apply (dispatch_ok _ ts_parse_data). exact A.
  - apply dispatch_names. exact B.
  - apply dispatch_noProto. exact C.
Qed.

Lemma js_dispatch_healthy sql st :
  healthy st -> healthy (stateOf (dispatch Js.parseCreateTable sql st)).
Proof.
  intros (A & B & C). split; [|split].
  - apply (dispatch_ok _ js_parse_data). exact A.
  - apply dispatch_names. exact B.
  - apply dispatch_noProto. exact C.
Qed.

Lemma healthy_fresh optLimit : healthy (newConverter optLimit).
Proof.
  split; [|split].
  - split; simpl.
    + intros k t E. rewrite lookup_empty in E. discriminate E.
    + intros p E. discriminate E.
  - intros k t E. simpl in E. rewrite lookup_empty in E. discriminate E.
  - apply lookup_empty.
Qed.

(** X17.  Whole runs keep the registry well formed.  From a converter
    whose registry is well formed (a fresh one is), [sqlToJson] on any
    content and the line loop of [processLargeSQL] on any lines end, also
    when they throw, with a registry in which every key of every row is a
    declared column of its table, every table is stored under its own
    name, and no table is stored under the key [__proto__].  Both
    implementations. *)
Theorem X17_run_invariants (st : Converter) (optLimit : option Z)
    (content : str) (lines : list str) :
  healthy st ->
  healthy (newConverter optLimit)
  /\ healthy (stateOf (TsConverter.sqlToJson content st))
  /\ healthy (stateOf (JsConverter.sqlToJson content st))
  /\ healthy (stateOf (tsProcessLines lines st))
  /\ healthy (stateOf (jsProcessLines lines st)).
Proof.
  intros H. split; [apply healthy_fresh|].
  split; [apply (ts_run_inv healthy ts_dispatch_healthy); exact H|].
  split; [apply (js_run_inv healthy js_dispatch_healthy); exact H|].
  split.
  - apply (processLines_inv healthy); [|exact H].
    apply (ts_process_inv healthy ts_dispatch_healthy).
  - apply (processLines_inv healthy); [|exact H].
    apply (js_process_inv healthy js_dispatch_healthy).
Qed.

Lemma X17_run_invariants_witness :
  healthy (stateOf (TsConverter.sqlToJson
                      (js "CREATE TABLE `__proto__` (a INT); INSERT INTO `__proto__` VALUES (1)")
                      (newConverter None))).
Proof.
  destruct (X17_run_invariants (newConverter None) None
              (js "CREATE TABLE `__proto__` (a INT); INSERT INTO `__proto__` VALUES (1)")
              []) as (_ & A & _).
  - apply healthy_fresh.
  - exact A.
Defined.

(** ** INSERT statements written from values *)

Lemma rmatch_lits_eq ci p : forall x k,
  rmatch ci (lits p) x k
  = match litsMatch ci p (rest x) with
    | Some t => k (MState (pos x + length p) t (caps x))
    | None => None
    end.
Proof.
  induction p as [|c p' IH]; intros x k.
  - simpl. rewrite Nat.add_0_r. destruct x; reflexivity.
  - cbn [lits litsMatch]. rewrite rmatch_cat. cbn [rmatch].
    destruct (rest x) as [|a t]; [reflexivity|].
    destruct (ch_eqb (canon ci a) (canon ci c)); [|reflexivity].
    rewrite IH. unfold step1. cbn [pos rest caps length].
    replace (S (pos x) + length p') with (pos x + S (length p')) by lia.
    reflexivity.
Qed.

Lemma starCls_greedy p k z : forall w t n c,
  forallb p w = true -> stops p t ->
  k (MState (n + length w) t c) = Some z ->
  starCls p n (w ++ t) c k = Some z.
Proof.
  induction w as [|a w IH]; intros t n c Hw Ht Hk.
  - simpl in *. rewrite Nat.add_0_r in Hk.
    destruct t as [|b t']; simpl; [exact Hk|].
    simpl in Ht. rewrite Ht. exact Hk.
  - simpl in Hw. apply andb_prop in Hw as [Ha Hw].
    simpl. rewrite Ha. rewrite (IH t (S n) c Hw Ht); [reflexivity|].
    simpl in Hk. replace (S n + length w) with (n + S (length w)) by lia.
    exact Hk.
Qed.

Lemma star_cls_greedy ci p k z w t x :
  rest x = w ++ t -> forallb p w = true -> stops p t ->
  k (MState (pos x + length w) t (caps x)) = Some z ->
  rmatch ci (Star (Cls p)) x k = Some z.
Proof.
  intros Hr Hw Ht Hk. rewrite rmatch_star_cls, Hr.
  apply starCls_greedy; assumption.
Qed.

Lemma plus_cls_greedy ci p k z a w t x :
  rest x = a :: w ++ t -> p a = true -> forallb p w = true -> stops p t ->
  k (MState (pos x + S (length w)) t (caps x)) = Some z ->
  rmatch ci (Plus (Cls p)) x k = Some z.
Proof.
  intros Hr Ha Hw Ht Hk. rewrite rmatch_plus_cls, Hr, Ha.
  apply starCls_greedy; [exact Hw | exact Ht|].
  replace (S (pos x) + length w) with (pos x + S (length w)) by lia.
  exact Hk.
Qed.

Lemma opt_lit_skip ci c x k :
  match rest x with
  | a :: _ => ch_eqb (canon ci a) (canon ci c) = false
  | [] => True
  end ->
  rmatch ci (Opt (Lit c)) x k = k x.
Proof.
  intros H. cbn [rmatch]. destruct (rest x) as [|a t]; [reflexivity|].
  rewrite H. reflexivity.
Qed.

Lemma opt_cat_skip ci c r x k :
  match rest x with
  | a :: _ => ch_eqb (canon ci a) (canon ci c) = false
  | [] => True
  end ->
  rmatch ci (Opt (Cat (Lit c) r)) x k = k x.
Proof.
  intros H. cbn [rmatch]. destruct (rest x) as [|a t]; [reflexivity|].
  rewrite H. reflexivity.
Qed.

Lemma upper_backtick a : ch_eqb (upper a) "`" = ch_eqb a "`".
Proof. char_cases a; vm_compute; reflexivity. Qed.

Lemma upper_open a : ch_eqb (upper a) "(" = ch_eqb a "(".
Proof. char_cases a; vm_compute; reflexivity. Qed.

Lemma tableNameChar_cls c :
  tableNameChar c -> noneOf ["`"; "("]%char true c = true.
Proof.
  intros (A & B & C). unfold noneOf. simpl.
  apply ch_eqb_neq in A. apply ch_eqb_neq in B. rewrite A, B, C. reflexivity.
Qed.

Lemma tableName_forallb w :
  Forall tableNameChar w -> forallb (noneOf ["`"; "("]%char true) w = true.
Proof.
  induction 1 as [|c w Hc Hw IH]; [reflexivity|].
  simpl forallb. rewrite (tableNameChar_cls c Hc), IH. reflexivity.
Qed.

(** The head pattern matches at the start of the statement and captures
    the name. *)
Lemma insertIntoRe_name name tail :
  name <> [] -> Forall tableNameChar name ->
  matchGroup true insertIntoRe 1 (js "INSERT INTO " ++ name ++ js " VALUES" ++ tail)
  = Some name.
Proof.
  intros Hne Hn. destruct name as [|c name']; [congruence|].
  inversion Hn as [|? ? Hc Hn']; subst. pose proof Hc as (Hc1 & Hc2 & Hc3).
  unfold matchGroup, exec. rewrite search_eq.
  assert (M : matchAt true insertIntoRe 0
                (js "INSERT INTO " ++ (c :: name') ++ js " VALUES" ++ tail)
              = Some (MState (12 + S (length name') + 7) tail
                        [(1, c :: name')])).
  { unfold matchAt, insertIntoRe. cbn [seq].
    rewrite rmatch_cat, rmatch_lits_eq.
    change (litsMatch true (js "INSERT INTO")
              (rest (MState 0 (js "INSERT INTO " ++ (c :: name')
                                 ++ js " VALUES" ++ tail) [])))
      with (Some (" "%char :: (c :: name') ++ js " VALUES" ++ tail)).
    cbv iota beta. rewrite rmatch_cat.
    apply (plus_cls_greedy true cls_s _ _ " "%char []
             ((c :: name') ++ js " VALUES" ++ tail));
      [reflexivity | reflexivity | reflexivity | exact Hc3 |].
    cbn [pos rest caps length].
    rewrite rmatch_cat.
    rewrite opt_lit_skip
      by (cbn [rest app]; unfold canon; rewrite upper_backtick;
          apply ch_eqb_neq; exact Hc1).
    rewrite rmatch_cat, rmatch_grp.
    apply (plus_cls_greedy true _ _ _ c name' (js " VALUES" ++ tail));
      [reflexivity | apply tableNameChar_cls; exact Hc
      | apply tableName_forallb; exact Hn' | reflexivity |].
    cbn [pos rest caps length].
    rewrite rmatch_cat.
    rewrite opt_lit_skip by reflexivity.
    rewrite rmatch_cat.
    apply (star_cls_greedy true cls_s _ _ [" "%char] (js "VALUES" ++ tail));
      [reflexivity | reflexivity | reflexivity |].
    cbn [pos rest caps length].
    rewrite rmatch_cat.
    cbn [seq]. rewrite opt_cat_skip by reflexivity.
    rewrite rmatch_cat.
    apply (star_cls_greedy true cls_s _ _ [] (js "VALUES" ++ tail));
      [reflexivity | reflexivity | reflexivity |].
    cbn [pos rest caps length].
    rewrite rmatch_cat, rmatch_lits_eq. cbn [pos rest caps].
    change (litsMatch true (js "VALUES") (js "VALUES" ++ tail)) with (Some tail).
    cbv iota beta. cbn [rmatch].
    change (length (js "INSERT INTO")) with 11.
    change (length (js "VALUES")) with 6.
    f_equal. f_equal; [lia|]. f_equal. f_equal.
    replace (0 + 11 + 1 + S (length name') - (0 + 11 + 1))
      with (length (c :: name')) by (simpl; lia).
    rewrite firstn_app, Nat.sub_diag, firstn_all, firstn_O, app_nil_r.
    reflexivity. }
  rewrite M. simpl. reflexivity.
Qed.

Lemma search_skip ci r pre : forall s p,
  (forall i, i < length pre ->
             matchAt ci r (p + i) (skipn i pre ++ s) = None) ->
  search ci r p (pre ++ s) = search ci r (p + length pre) s.
Proof.
  induction pre as [|a pre IH]; intros s p H.
  - simpl. rewrite Nat.add_0_r. reflexivity.
  - rewrite search_eq.
    pose proof (H 0 ltac:(simpl; lia)) as H0.
    rewrite Nat.add_0_r in H0. simpl in H0. simpl app. rewrite H0.
    rewrite IH.
    + f_equal. simpl. lia.
    + intros i Hi. specialize (H (S i) ltac:(simpl; lia)).
      simpl in H. replace (S p + i) with (p + S i) by lia. exact H.
Qed.

Lemma search_none ci r s : forall p,
  search ci r p s = None ->
  forall i, i <= length s -> matchAt ci r (p + i) (skipn i s) = None.
Proof.
  induction s as [|a s IH]; intros p H i Hi; rewrite search_eq in H.
  - simpl in Hi. replace i with 0 by lia. rewrite Nat.add_0_r. simpl.
    destruct (matchAt ci r p []); [discriminate H | reflexivity].
  - destruct (matchAt ci r p (a :: s)) eqn:E; [discriminate H|].
    destruct i as [|i]; [rewrite Nat.add_0_r; exact E|].
    simpl. replace (p + S i) with (S p + i) by lia.
    apply IH; [exact H | simpl in Hi; lia].
Qed.

Lemma litsMatch_ext ci p d s : forall u,
  litsMatch ci p u = None ->
  forallb (fun c => negb (ch_eqb (canon ci d) (canon ci c))) p = true ->
  litsMatch ci p (u ++ d :: s) = None.
Proof.
  induction p as [|c p' IH]; intros u H Hd; [discriminate H|].
  simpl in Hd. apply andb_prop in Hd as [Hc Hp]. apply negb_true_iff in Hc.
  destruct u as [|a u']; simpl.
  - rewrite Hc. reflexivity.
  - simpl in H. destruct (ch_eqb (canon ci a) (canon ci c)); [|reflexivity].
    apply IH; assumption.
Qed.

Lemma matchAt_lits ci p n u :
  matchAt ci (lits p) n u = None -> litsMatch ci p u = None.
Proof.
  unfold matchAt. rewrite rmatch_lits_eq. simpl.
  destruct (litsMatch ci p u); [discriminate | reflexivity].
Qed.

Lemma valuesRe_fail n u :
  litsMatch true (js "VALUES") u = None -> matchAt true valuesRe n u = None.
Proof.
  intros H. unfold matchAt, valuesRe. cbn [seq].
  rewrite rmatch_cat, rmatch_lits_eq. cbn [rest]. rewrite H. reflexivity.
Qed.

Lemma forallb_dotall w : forallb cls_dotall w = true.
Proof. induction w; simpl; auto. Qed.

(** The second pattern finds the keyword after the name, and captures
    the rest of the statement. *)
Lemma valuesRe_group name body :
  test true (lits (js "VALUES")) name = false ->
  matchGroup true valuesRe 1
    (js "INSERT INTO " ++ name ++ js " VALUES (" ++ body)
  = Some ("("%char :: body).
Proof.
  intros Hv. apply test_exec in Hv. unfold exec in Hv.
  unfold matchGroup, exec.
  rewrite search_skip.
  2:{ intros i Hi. change (length (js "INSERT INTO ")) with 12 in Hi.
      do 12 (destruct i as [|i]; [reflexivity|]). lia. }
  change (js " VALUES (" ++ body)
    with ([" "%char] ++ js "VALUES (" ++ body).
  rewrite app_assoc, search_skip.
  2:{ intros i Hi. rewrite length_app in Hi. simpl in Hi.
      rewrite skipn_app.
      replace (i - length name) with 0 by lia. cbn [skipn].
      rewrite <- app_assoc. apply valuesRe_fail.
      apply litsMatch_ext; [|reflexivity].
      apply (matchAt_lits true _ (0 + i)).
      apply search_none; [exact Hv | lia]. }
  rewrite search_eq.
  assert (M : forall n,
             matchAt true valuesRe n (js "VALUES (" ++ body)
             = Some (MState (n + 6 + 1 + S (length body)) []
                       [(1, "("%char :: body)])).
  { intros n. unfold matchAt, valuesRe. cbn [seq].
    rewrite rmatch_cat, rmatch_lits_eq. cbn [pos rest caps].
    change (litsMatch true (js "VALUES") (js "VALUES (" ++ body))
      with (Some (" "%char :: "("%char :: body)).
    cbv iota beta. change (length (js "VALUES")) with 6.
    rewrite rmatch_cat.
    apply (star_cls_greedy true cls_s _ _ [" "%char] ("("%char :: body));
      [reflexivity | reflexivity | reflexivity |].
    cbn [pos rest caps length].
    rewrite rmatch_cat, rmatch_grp.
    apply (star_cls_greedy true cls_dotall _ _ ("("%char :: body) []);
      [cbn [rest]; symmetry; apply app_nil_r | apply forallb_dotall
      | exact I |].
    cbn [pos rest caps length rmatch].
    f_equal. f_equal. f_equal. f_equal.
    replace (n + 6 + 1 + S (length body) - (n + 6 + 1))
      with (length ("("%char :: body)) by (simpl; lia).
    apply firstn_all. }
  rewrite M. simpl. reflexivity.
Qed.

Lemma splitRegex_go_none fuel ci r : forall acc q s,
  (forall i, i <= length s -> matchAt ci r (q + i) (skipn i s) = None) ->
  splitRegex_go fuel ci r acc q s = [acc ++ s].
Proof.
  induction fuel as [|f IH]; intros acc q s H; [reflexivity|].
  destruct s as [|c t]; simpl.
  - rewrite app_nil_r. reflexivity.
  - pose proof (H 0 ltac:(lia)) as H0. rewrite Nat.add_0_r in H0.
    simpl in H0. rewrite H0, IH.
    + rewrite <- app_assoc. reflexivity.
    + intros i Hi. specialize (H (S i) ltac:(simpl; lia)).
      simpl in H. replace (S q + i) with (q + S i) by lia. exact H.
Qed.

Lemma leadParen_strip u :
  replaceFirst false leadParenRe [] ("("%char :: u) = u.
Proof.
  unfold replaceFirst, leadParenRe. rewrite exec_bol. reflexivity.
Qed.

Lemma rmatch_lit ci c x k :
  rmatch ci (Lit c) x k
  = match rest x with
    | a :: t => if ch_eqb (canon ci a) (canon ci c) then k (step1 x t) else None
    | [] => None
    end.
Proof. reflexivity. Qed.

Lemma rmatch_opt ci r x k :
  rmatch ci (Opt r) x k
  = match rmatch ci r x (fun y => if pos y =? pos x then None else k y) with
    | Some z => Some z
    | None => k x
    end.
Proof. reflexivity. Qed.

Lemma litsMatch_startsWith p : forall s,
  litsMatch false p s
  = if startsWith p s then Some (skipn (length p) s) else None.
Proof.
  induction p as [|c p' IH]; intros s; [reflexivity|].
  destruct s as [|a t]; [reflexivity|].
  cbn [litsMatch startsWith length skipn]. unfold canon.
  unfold ch_eqb at 1 2. rewrite (Ascii.eqb_sym a c).
  destruct (Ascii.eqb c a); [apply IH | reflexivity].
Qed.

Lemma servmask_strip m : replaceFirst false servmaskRe [] m = stripServmask m.
Proof.
  unfold replaceFirst, servmaskRe, stripServmask. rewrite exec_bol.
  unfold matchAt. rewrite rmatch_cat. cbn [rmatch pos Nat.eqb].
  rewrite rmatch_lits_eq. cbn [rest pos caps].
  rewrite litsMatch_startsWith.
  destruct (startsWith (js "SERVMASK_PREFIX_") m); reflexivity.
Qed.

(** ** CREATE TABLE statements written from columns *)

Lemma cut_closed seg : forall lvl cur more,
  closed lvl seg = true ->
  cutAt (parenSeparators lvl (seg ++ more)) (seg ++ more) cur
  = cutAt (parenSeparators 0 more) more (cur ++ seg).
Proof.
  induction seg as [|c seg IH]; intros lvl cur more H.
  - simpl in H. apply Z.eqb_eq in H. subst lvl. rewrite app_nil_r. reflexivity.
  - simpl in H. cbn [app parenSeparators].
    replace (cur ++ c :: seg) with ((cur ++ [c]) ++ seg)
      by (rewrite <- app_assoc; reflexivity).
    destruct (ch_eqb c "("); [cbn [cutAt]; apply IH; exact H|].
    destruct (ch_eqb c ")"); [cbn [cutAt]; apply IH; exact H|].
    apply andb_prop in H as [H1 H2]. apply negb_true_iff in H1.
    rewrite H1. cbn [cutAt]. apply IH. exact H2.
Qed.

Lemma cut_joined xs : forall x cur,
  Forall (fun s => closed 0 s = true) (x :: xs) ->
  cutAt (parenSeparators 0 (joinComma x xs)) (joinComma x xs) cur
  = (cur ++ x) :: xs.
Proof.
  induction xs as [|y t IH]; intros x cur H;
    inversion H as [|? ? Hx Hxs]; subst.
  - simpl joinComma. rewrite <- (app_nil_r x) at 1 2.
    rewrite cut_closed by exact Hx. reflexivity.
  - rewrite joinComma_cons, cut_closed by exact Hx.
    cbn [parenSeparators cutAt].
    change (ch_eqb "," "(") with false. change (ch_eqb "," ")") with false.
    cbv iota. change (ch_eqb "," "," && (0 =? 0)%Z) with true. cbv iota.
    rewrite IH by exact Hxs. reflexivity.
Qed.

Lemma dropEmptyLast_id l : Forall (fun s : str => s <> []) l -> dropEmptyLast l = l.
Proof.
  induction 1 as [|x l Hx Hl IH]; [reflexivity|].
  destruct l as [|y l']; [destruct x; [congruence | reflexivity]|].
  rewrite dropEmptyLast_cons by discriminate. rewrite IH. reflexivity.
Qed.

Lemma trim_edges s : edgesOk s -> trim s = s.
Proof.
  intros (_ & Hh & Hl). unfold trim. rewrite trimStart_fix by exact Hh.
  unfold trimEnd. rewrite trimStart_fix by exact Hl. apply rev_involutive.
Qed.

Lemma columnText_edges col :
  tsColumnOk col -> edgesOk (type col) -> edgesOk (columnText col).
Proof.
  intros (Hn & Hc & _) (Ht & _ & Hl). unfold columnText, edgesOk.
  destruct (name col) as [|n0 n'] eqn:En; [congruence|].
  inversion Hc as [|? ? [_ Hw] _]; subst.
  split; [discriminate|]. split; [exact Hw|].
  change ((n0 :: n') ++ " "%char :: type col)
    with ((n0 :: n') ++ [" "%char] ++ type col).
  rewrite !rev_app_distr.
  destruct (rev (type col)) as [|e r] eqn:Er; [|exact Hl].
  apply (f_equal (@rev ascii)) in Er. rewrite rev_involutive in Er.
  simpl in Er. congruence.
Qed.

Lemma columnNameChar_cls c :
  columnNameChar c -> noneOf ["`"]%char true c = true.
Proof.
  intros (A & B). unfold noneOf. simpl.
  apply ch_eqb_neq in A. rewrite A, B. reflexivity.
Qed.

Lemma columnName_forallb w :
  Forall columnNameChar w -> forallb (noneOf ["`"]%char true) w = true.
Proof.
  induction 1 as [|c w Hc Hw IH]; [reflexivity|].
  simpl forallb. rewrite (columnNameChar_cls c Hc), IH. reflexivity.
Qed.

Lemma sameLine_forallb w : Forall sameLine w -> forallb cls_dot w = true.
Proof.
  induction 1 as [|c w Hc Hw IH]; [reflexivity|].
  simpl forallb. unfold cls_dot at 1. unfold sameLine in Hc. rewrite Hc, IH.
  reflexivity.
Qed.

Lemma rmatch_bol ci x k :
  rmatch ci Bol x k = if pos x =? 0 then k x else None.
Proof. reflexivity. Qed.

(** The column pattern of the TypeScript parser on a written column. *)
Lemma ts_columnRe_text col :
  tsColumnOk col -> edgesOk (type col) ->
  exec false Ts.columnRe (columnText col)
  = Some (0, MState (length (name col) + 1 + length (type col)) []
               [(2, type col); (1, name col)]).
Proof.
  intros (Hn & Hc & Hs) (Ht & Hh & _).
  unfold columnText.
  destruct (name col) as [|n0 n'] eqn:En; [congruence|].
  destruct (type col) as [|t0 t'] eqn:Et; [congruence|].
  inversion Hc as [|? ? Hc0 Hc']; subst. pose proof Hc0 as [Hb Hw].
  inversion Hs as [|? ? Hs0 Hs']; subst.
  simpl in Hh.
  assert (M : matchAt false Ts.columnRe 0 ((n0 :: n') ++ " "%char :: t0 :: t')
              = Some (MState (length (n0 :: n') + 1 + length (t0 :: t')) []
                        [(2, t0 :: t'); (1, n0 :: n')])).
  { unfold matchAt, Ts.columnRe. cbn [seq]. rewrite rmatch_cat, rmatch_bol.
    cbn [pos Nat.eqb]. rewrite rmatch_cat.
    rewrite opt_lit_skip
      by (cbn [rest app]; unfold canon; apply ch_eqb_neq; exact Hb).
    rewrite rmatch_cat, rmatch_grp.
    apply (plus_cls_greedy false _ _ _ n0 n' (" "%char :: t0 :: t'));
      [reflexivity | apply columnNameChar_cls; exact Hc0
      | apply columnName_forallb; exact Hc' | reflexivity |].
    cbn [pos rest caps length].
    rewrite rmatch_cat.
    rewrite opt_lit_skip by reflexivity.
    rewrite rmatch_cat.
    apply (plus_cls_greedy false cls_s _ _ " "%char [] (t0 :: t'));
      [reflexivity | reflexivity | reflexivity | exact Hh |].
    cbn [pos rest caps length].
    rewrite rmatch_cat, rmatch_grp.
    apply (plus_cls_greedy false cls_dot _ _ t0 t' []);
      [cbn [rest]; rewrite app_nil_r; reflexivity
      | unfold cls_dot; unfold sameLine in Hs0; rewrite Hs0; reflexivity
      | apply sameLine_forallb; exact Hs' | exact I |].
    cbn [pos rest caps length rmatch].
    replace (0 + S (length n') + 1 + S (length t') - (0 + S (length n') + 1))
      with (length (t0 :: t')) by (simpl; lia).
    replace (0 + S (length n') - 0) with (length (n0 :: n')) by (simpl; lia).
    rewrite firstn_all, firstn_app, Nat.sub_diag, firstn_all, firstn_O, app_nil_r.
    reflexivity. }
  unfold exec. rewrite search_eq, M. reflexivity.
Qed.

Lemma ts_columnOf_text col :
  writableColumn col -> Ts.columnOf (columnText col) = Some (Some col).
Proof.
  intros (Hok & He & _ & Hskip). unfold Ts.columnOf.
  rewrite (trim_edges _ (columnText_edges col Hok He)), Hskip.
  rewrite (ts_columnRe_text col Hok He). cbn [caps capture Nat.eqb].
  rewrite (trim_edges _ He). destruct col; reflexivity.
Qed.

Lemma ts_collect_text cols :
  Forall writableColumn cols ->
  collectColumns Ts.columnOf (map columnText cols) = Some cols.
Proof.
  induction 1 as [|c cols Hc Hcols IH]; [reflexivity|].
  cbn [map collectColumns]. rewrite (ts_columnOf_text c Hc), IH. reflexivity.
Qed.

Lemma ts_split_text cols :
  Forall writableColumn cols ->
  Ts.splitColumns (joinAll (map columnText cols)) = map columnText cols.
Proof.
  intros H. rewrite ts_splitColumns_spec. unfold specSegments.
  destruct cols as [|c cols]; [reflexivity|].
  cbn [map joinAll]. rewrite cut_joined.
  2:{ change (columnText c :: map columnText cols)
        with (map columnText (c :: cols)).
      apply Forall_map. eapply Forall_impl; [exact H|].
      intros x (_ & _ & Hx & _). exact Hx. }
  rewrite app_nil_l.
  change (columnText c :: map columnText cols) with (map columnText (c :: cols)).
  assert (E : map trim (map columnText (c :: cols)) = map columnText (c :: cols)).
  { rewrite map_map. apply map_ext_Forall. eapply Forall_impl; [exact H|].
    intros x (Hok & He & _). apply trim_edges, columnText_edges; assumption. }
  rewrite E. apply dropEmptyLast_id. apply Forall_map.
  eapply Forall_impl; [exact H|].
  intros x (Hok & He & _). apply (columnText_edges x Hok He).
Qed.

Lemma createTableRe_name name tail :
  name <> [] -> Forall tableNameChar name ->
  matchGroup true createTableRe 1 (js "CREATE TABLE " ++ name ++ js " (" ++ tail)
  = Some name.
Proof.
  intros Hne Hn. destruct name as [|c name']; [congruence|].
  inversion Hn as [|? ? Hc Hn']; subst. pose proof Hc as (Hc1 & Hc2 & Hc3).
  unfold matchGroup, exec. rewrite search_eq.
  assert (M : matchAt true createTableRe 0
                (js "CREATE TABLE " ++ (c :: name') ++ js " (" ++ tail)
              = Some (MState (13 + S (length name') + 2) tail
                        [(1, c :: name')])).
  { unfold matchAt, createTableRe. cbn [seq].
    rewrite rmatch_cat, rmatch_lits_eq. cbn [pos rest caps].
    change (litsMatch true (js "CREATE TABLE")
              (js "CREATE TABLE " ++ (c :: name') ++ js " (" ++ tail))
      with (Some (" "%char :: (c :: name') ++ js " (" ++ tail)).
    cbv iota beta. change (length (js "CREATE TABLE")) with 12.
    rewrite rmatch_cat.
    apply (plus_cls_greedy true cls_s _ _ " "%char []
             ((c :: name') ++ js " (" ++ tail));
      [reflexivity | reflexivity | reflexivity | exact Hc3 |].
    cbn [pos rest caps length].
    rewrite rmatch_cat.
    rewrite opt_lit_skip
      by (cbn [rest app]; unfold canon; rewrite upper_backtick;
          apply ch_eqb_neq; exact Hc1).
    rewrite rmatch_cat, rmatch_grp.
    apply (plus_cls_greedy true _ _ _ c name' (js " (" ++ tail));
      [reflexivity | apply tableNameChar_cls; exact Hc
      | apply tableName_forallb; exact Hn' | reflexivity |].
    cbn [pos rest caps length].
    rewrite rmatch_cat.
    rewrite opt_lit_skip by reflexivity.
    rewrite rmatch_cat.
    apply (star_cls_greedy true cls_s _ _ [" "%char] ("("%char :: tail));
      [reflexivity | reflexivity | reflexivity |].
    cbn [pos rest caps length].
    rewrite rmatch_cat, rmatch_lit. cbn [rest].
    change (ch_eqb (canon true "(") (canon true "(")) with true. cbv iota.
    unfold step1. cbn [pos rest caps rmatch].
    replace (0 + 12 + 1 + S (length name') - (0 + 12 + 1))
      with (length (c :: name')) by (simpl; lia).
    rewrite firstn_app, Nat.sub_diag, firstn_all, firstn_O, app_nil_r.
    f_equal. f_equal. lia. }
  rewrite M. simpl. reflexivity.
Qed.

Lemma indexOf_app c pre s :
  Forall (fun a => a <> c) pre ->
  indexOf c (pre ++ c :: s) = Some (length pre).
Proof.
  induction 1 as [|a pre Ha Hpre IH]; simpl.
  - rewrite ch_eqb_refl. reflexivity.
  - apply ch_eqb_neq in Ha. rewrite Ha, IH. reflexivity.
Qed.

Lemma lastIndexOf_none c s : Forall (fun a => a <> c) s -> lastIndexOf c s = None.
Proof.
  induction 1 as [|a s Ha Hs IH]; [reflexivity|].
  simpl. rewrite IH. apply ch_eqb_neq in Ha. rewrite Ha. reflexivity.
Qed.

Lemma lastIndexOf_last c s tail :
  Forall (fun a => a <> c) tail ->
  lastIndexOf c (s ++ c :: tail) = Some (length s).
Proof.
  intros Ht. induction s as [|a s IH]; simpl.
  - rewrite (lastIndexOf_none c tail Ht), ch_eqb_refl. reflexivity.
  - rewrite IH. reflexivity.
Qed.

Lemma substring_between (P body tail : str) a b :
  a = length P + 1 -> b = length P + 1 + length body ->
  substring a b (P ++ "("%char :: body ++ tail) = body.
Proof.
  intros -> ->. unfold substring.
  rewrite Nat.min_l, Nat.max_r by lia.
  replace (length P + 1 + length body - (length P + 1)) with (length body)
    by lia.
  change (P ++ "("%char :: body ++ tail)
    with (P ++ ["("%char] ++ body ++ tail).
  rewrite app_assoc.
  replace (length P + 1) with (length (P ++ ["("%char]))
    by (rewrite length_app; reflexivity).
  rewrite skipn_app, skipn_all, Nat.sub_diag. cbn [app].
  change (drop 0 (body ++ tail)) with (body ++ tail).
  rewrite firstn_app, Nat.sub_diag, firstn_all, firstn_O, app_nil_r.
  reflexivity.
Qed.

Lemma tableHead_text name body tail :
  name <> [] -> Forall tableNameChar name ->
  Forall (fun a => a <> ")"%char) tail ->
  tableHead (js "CREATE TABLE " ++ name ++ js " (" ++ body ++ ")"%char :: tail)
  = Some (stripServmask name, body).
Proof.
  intros Hne Hn Ht. unfold tableHead.
  rewrite (createTableRe_name name _ Hne Hn), servmask_strip.
  assert (E1 : js "CREATE TABLE " ++ name ++ js " (" ++ body ++ ")"%char :: tail
               = (js "CREATE TABLE " ++ name ++ [" "%char])
                   ++ "("%char :: body ++ ")"%char :: tail).
  { rewrite <- !app_assoc. reflexivity. }
  assert (E2 : js "CREATE TABLE " ++ name ++ js " (" ++ body ++ ")"%char :: tail
               = (js "CREATE TABLE " ++ name ++ js " (" ++ body)
                   ++ ")"%char :: tail).
  { rewrite <- !app_assoc. reflexivity. }
  rewrite E1 at 1. rewrite indexOf_app.
  2:{ apply Forall_app. split; [repeat constructor; discriminate|].
      apply Forall_app. split; [|repeat constructor; discriminate].
      eapply Forall_impl; [exact Hn|]. intros a (_ & Ha & _). exact Ha. }
  rewrite E2 at 1. rewrite (lastIndexOf_last _ _ _ Ht).
  rewrite E1. f_equal. f_equal.
  apply substring_between; [reflexivity|].
  rewrite !length_app. simpl. lia.
Qed.

(** X19.  A CREATE TABLE statement written from a table name and a list
    of columns is read back by the TypeScript parser: it returns the name
    without one leading SERVMASK_PREFIX_, these columns in order, and no
    data.  The name is not empty and holds no backtick, parenthesis or
    white space; each column has a non-empty name without backtick or
    white space and a non-empty type on one line that neither starts nor
    ends with white space; its text holds commas only inside balanced
    parentheses and is not one the parser skips.  Whatever follows the
    closing parenthesis (a semicolon, table options) is ignored, as long
    as it holds no closing parenthesis. *)
Theorem X19_create_round_trip (name : str) (cols : list ColumnDefinition)
    (tail : str) :
  name <> [] -> Forall tableNameChar name -> Forall writableColumn cols ->
  Forall (fun a => a <> ")"%char) tail ->
  Ts.parseCreateTable (createText name cols tail)
  = Some (mkTable (stripServmask name) cols []).
Proof.
  intros Hne Hn Hc Ht. unfold Ts.parseCreateTable, createText.
  rewrite (tableHead_text name _ _ Hne Hn Ht).
  rewrite (ts_split_text cols Hc), (ts_collect_text cols Hc). reflexivity.
Qed.

Lemma X19_create_round_trip_witness :
  Ts.parseCreateTable
    (js "CREATE TABLE t (id INT,price DECIMAL(10,2)) ENGINE=InnoDB;")
  = Some (mkTable (js "t")
            [mkColumn (js "id") (js "INT");
             mkColumn (js "price") (js "DECIMAL(10,2)")] []).
Proof.
  apply (X19_create_round_trip (js "t")
           [mkColumn (js "id") (js "INT");
            mkColumn (js "price") (js "DECIMAL(10,2)")]
           (js " ENGINE=InnoDB;")).
  - discriminate.
  - repeat constructor; intros E; discriminate E.
  - repeat constructor; try discriminate; try reflexivity.
  - repeat constructor; intros E; discriminate E.
Defined.

(** ** CREATE TABLE statements in the layout of a dump *)

Lemma opt_lit_take ci c a t x k z :
  rest x = a :: t -> ch_eqb (canon ci a) (canon ci c) = true ->
  k (step1 x t) = Some z ->
  rmatch ci (Opt (Lit c)) x k = Some z.
Proof.
  intros Hr Ha Hk. rewrite rmatch_opt, rmatch_lit, Hr, Ha.
  unfold step1 at 1. cbn [pos].
  replace (S (pos x) =? pos x) with false by (symmetry; apply Nat.eqb_neq; lia).
  rewrite Hk. reflexivity.
Qed.

Lemma starCls_blocked p (K : cont) s : forall n c,
  (forall y, rest y <> [] -> K y = None) ->
  existsb (fun a => negb (p a)) s = true ->
  starCls p n s c K = None.
Proof.
  induction s as [|a s IH]; intros n c HK Hs; [discriminate Hs|].
  cbn [starCls]. simpl in Hs.
  destruct (p a) eqn:E.
  - simpl in Hs. rewrite IH by assumption. apply HK. discriminate.
  - apply HK. discriminate.
Qed.

Lemma rmatch_pluslazy_cls ci p x k :
  rmatch ci (PlusLazy (Cls p)) x k
  = match rest x with
    | a :: t =>
        if p a
        then repLazy (rmatch ci (Cls p)) (S (length t)) (step1 x t) k
        else None
    | [] => None
    end.
Proof. reflexivity. Qed.

Lemma repLazy_cls ci p (k : cont) z sfx : forall w n c fuel,
  length w < fuel -> forallb p w = true ->
  (forall u v, w = u ++ v -> v <> [] ->
               k (MState (n + length u) (v ++ sfx) c) = None) ->
  k (MState (n + length w) sfx c) = Some z ->
  repLazy (rmatch ci (Cls p)) fuel (MState n (w ++ sfx) c) k = Some z.
Proof.
  induction w as [|a w IH]; intros n c fuel Hf Hp Hfail Hk;
    (destruct fuel as [|fuel]; [simpl in Hf; lia|]); cbn [repLazy].
  - simpl in Hk. rewrite Nat.add_0_r in Hk. simpl. rewrite Hk. reflexivity.
  - pose proof (Hfail [] (a :: w) eq_refl ltac:(discriminate)) as H0.
    simpl in H0. rewrite Nat.add_0_r in H0. cbn [app]. rewrite H0.
    simpl in Hp. apply andb_prop in Hp as [Ha Hw].
    cbn [rmatch rest]. rewrite Ha. unfold step1. cbn [pos rest caps].
    replace (S n =? n) with false by (symmetry; apply Nat.eqb_neq; lia).
    apply IH; [simpl in Hf; lia | exact Hw | |].
    + intros u v E Hv. specialize (Hfail (a :: u) v).
      simpl in Hfail. replace (S n + length u) with (n + S (length u)) by lia.
      apply Hfail; [rewrite E; reflexivity | exact Hv].
    + simpl in Hk. replace (S n + length w) with (n + S (length w)) by lia.
      exact Hk.
Qed.

Lemma last_nonspace_exists s :
  s <> [] -> headNotSpace (rev s) ->
  existsb (fun a => negb (cls_s a)) s = true.
Proof.
  intros Hs Hl. destruct s as [|a s] using rev_ind; [congruence|].
  rewrite rev_app_distr in Hl. simpl in Hl.
  rewrite existsb_app. simpl. unfold cls_s. rewrite Hl. simpl.
  apply orb_true_r.
Qed.

(** What follows the type in the column pattern of [bin/cli.js]: an
    optional comma with white space, and the end. *)
Lemma js_tail_blocked y b v :
  rest y = b :: v ->
  (b = ","%char -> existsb (fun a => negb (cls_s a)) v = true) ->
  rmatch false (seq [Opt (seq [Lit ","; Star (Cls cls_s)]); Eol]) y Some = None.
Proof.
  intros Hy Hv. cbn [seq]. rewrite rmatch_cat, rmatch_opt, rmatch_cat.
  rewrite rmatch_lit, Hy. unfold canon.
  destruct (ch_eqb b ",") eqn:E.
  - apply ch_eqb_eq in E. rewrite rmatch_cat, rmatch_star_cls.
    unfold step1. cbn [pos rest caps].
    rewrite starCls_blocked; [| |apply Hv; exact E].
    + rewrite rmatch_cat. cbn [rmatch]. rewrite Hy. reflexivity.
    + intros y0 Hy0. cbn [rmatch].
      destruct (pos y0 =? pos y); [reflexivity|].
      destruct (rest y0); [congruence | reflexivity].
  - rewrite rmatch_cat. cbn [rmatch]. rewrite Hy. reflexivity.
Qed.

Lemma js_tail_done n c (comma : bool) :
  rmatch false (seq [Opt (seq [Lit ","; Star (Cls cls_s)]); Eol])
    (MState n (if comma then [","%char] else []) c) Some
  = Some (MState (if comma then S n else n) [] c).
Proof.
  destruct comma; [|reflexivity].
  cbn [seq]. rewrite rmatch_cat, rmatch_opt, rmatch_cat, rmatch_lit.
  cbn [rest]. change (ch_eqb (canon false ",") (canon false ",")) with true.
  cbv iota. rewrite rmatch_cat, rmatch_star_cls.
  unfold step1. cbn [pos rest caps starCls rmatch].
  replace (S n =? n) with false by (symmetry; apply Nat.eqb_neq; lia).
  reflexivity.
Qed.

Lemma trailingComma_keep s :
  last s <> Some ","%char ->
  replaceFirst false Js.trailingCommaRe [] s = s.
Proof.
  intros Hl. unfold replaceFirst, exec.
  assert (H : forall u p pre, s = pre ++ u ->
                search false Js.trailingCommaRe p u = None).
  { induction u as [|a u IH]; intros p pre E; rewrite search_eq.
    - reflexivity.
    - assert (M : matchAt false Js.trailingCommaRe p (a :: u) = None).
      { unfold matchAt, Js.trailingCommaRe. rewrite rmatch_cat, rmatch_lit.
        cbn [rest]. unfold canon.
        destruct (ch_eqb a ",") eqn:Ea; [|reflexivity].
        apply ch_eqb_eq in Ea. subst a.
        destruct u as [|b u']; [|reflexivity].
        exfalso. apply Hl. rewrite E. apply last_snoc. }
      rewrite M. apply (IH (S p) (pre ++ [a])).
      rewrite <- app_assoc. exact E. }
  rewrite (H s 0 [] eq_refl). reflexivity.
Qed.

Lemma notBacktick_forallb w :
  Forall (fun c => c <> "`"%char) w ->
  forallb (noneOf ["`"]%char false) w = true.
Proof.
  induction 1 as [|c w Hc Hw IH]; [reflexivity|].
  simpl forallb. rewrite IH, andb_true_r. unfold noneOf. simpl.
  apply ch_eqb_neq in Hc. rewrite Hc. reflexivity.
Qed.

Lemma suffix_has_nonspace (t : str) u b vr :
  t = u ++ b :: vr -> headNotSpace (rev t) -> last t <> Some b ->
  existsb (fun a => negb (cls_s a)) vr = true.
Proof.
  intros E Hl Hb. destruct vr as [|e vr'] using rev_ind.
  - exfalso. apply Hb. rewrite E.
    change (u ++ [b]) with (u ++ [b]). apply last_snoc.
  - clear IHvr'. rewrite existsb_app. simpl.
    rewrite E in Hl.
    replace (u ++ b :: vr' ++ [e]) with ((u ++ b :: vr') ++ [e]) in Hl
      by (rewrite <- app_assoc; reflexivity).
    rewrite rev_app_distr in Hl. simpl in Hl. unfold cls_s. rewrite Hl.
    simpl. apply orb_true_r.
Qed.

Lemma take_prefix (w t : str) n : n = length w -> firstn n (w ++ t) = w.
Proof.
  intros ->. rewrite firstn_app, Nat.sub_diag, firstn_all, firstn_O.
  apply app_nil_r.
Qed.

(** The column pattern of [bin/cli.js] on a written line. *)
Lemma js_columnRe_text cb :
  dumpColumn cb ->
  exists m,
    exec false Js.columnRe (dumpCore cb)
    = Some (0, MState m [] [(2, type (fst cb)); (1, name (fst cb))]).
Proof.
  destruct cb as [col comma]. unfold dumpColumn, dumpCore. cbn [fst snd].
  intros ((Hn & Hc & Hs) & _ & (Ht & Hh & Hl) & Hcm & _).
  destruct (name col) as [|n0 n'] eqn:En; [congruence|].
  destruct (type col) as [|t0 t'] eqn:Et; [congruence|].
  inversion Hc as [|? ? Hc0 Hc']; subst.
  inversion Hs as [|? ? Hs0 Hs']; subst.
  simpl in Hh.
  set (sfx := if comma then [","%char] else []).
  exists (if comma then S (1 + S (length n') + 1 + 1 + S (length t'))
          else 1 + S (length n') + 1 + 1 + S (length t')).
  unfold exec. rewrite search_eq.
  assert (M : matchAt false Js.columnRe 0
                ("`"%char :: (n0 :: n') ++ "`"%char :: " "%char
                   :: (t0 :: t') ++ sfx)
              = Some (MState
                        (if comma
                         then S (1 + S (length n') + 1 + 1 + S (length t'))
                         else 1 + S (length n') + 1 + 1 + S (length t'))
                        [] [(2, t0 :: t'); (1, n0 :: n')])).
  { unfold matchAt, Js.columnRe.
    change (seq [Bol; Lit "`"; Grp 1 (Plus (Cls (noneOf ["`"%char] false)));
                 Lit "`"; Plus (Cls cls_s); Grp 2 (PlusLazy (Cls cls_dot));
                 Opt (seq [Lit ","; Star (Cls cls_s)]); Eol])
      with (Cat Bol (Cat (Lit "`")
              (Cat (Grp 1 (Plus (Cls (noneOf ["`"%char] false))))
                 (Cat (Lit "`") (Cat (Plus (Cls cls_s))
                    (Cat (Grp 2 (PlusLazy (Cls cls_dot)))
                       (seq [Opt (seq [Lit ","; Star (Cls cls_s)]); Eol]))))))).
    rewrite rmatch_cat, rmatch_bol. cbn [pos Nat.eqb].
    rewrite rmatch_cat, rmatch_lit. cbn [rest].
    change (ch_eqb (canon false "`") (canon false "`")) with true. cbv iota.
    unfold step1. cbn [pos rest caps].
    rewrite rmatch_cat, rmatch_grp.
    apply (plus_cls_greedy false _ _ _ n0 n'
             ("`"%char :: " "%char :: (t0 :: t') ++ sfx));
      [reflexivity
      | unfold noneOf; simpl; apply ch_eqb_neq in Hc0; rewrite Hc0; reflexivity
      | apply notBacktick_forallb; exact Hc' | reflexivity |].
    cbn [pos rest caps length].
    rewrite rmatch_cat, rmatch_lit. cbn [rest].
    change (ch_eqb (canon false "`") (canon false "`")) with true. cbv iota.
    unfold step1. cbn [pos rest caps].
    rewrite rmatch_cat.
    apply (plus_cls_greedy false cls_s _ _ " "%char [] ((t0 :: t') ++ sfx));
      [reflexivity | reflexivity | reflexivity | exact Hh |].
    cbn [pos rest caps length].
    rewrite rmatch_cat, rmatch_grp, rmatch_pluslazy_cls. cbn [rest app].
    unfold sameLine in Hs0. unfold cls_dot at 1. rewrite Hs0. cbn [negb].
    unfold step1. cbn [pos rest caps].
    apply (repLazy_cls false cls_dot _ _ sfx t').
    - rewrite length_app. lia.
    - apply sameLine_forallb. exact Hs'.
    - intros u v E Hv. destruct v as [|b vr]; [congruence|].
      apply (js_tail_blocked _ b (vr ++ sfx)); [reflexivity|].
      intros ->. rewrite existsb_app.
      destruct comma; subst sfx; [simpl; apply orb_true_r|].
      rewrite (suffix_has_nonspace (t0 :: t') (t0 :: u) ","%char vr);
        [reflexivity | rewrite E; reflexivity | exact Hl | exact Hcm].
    - cbn [pos rest caps]. subst sfx. rewrite js_tail_done.
      f_equal. f_equal; [destruct comma; lia|].
      f_equal; [f_equal | f_equal; f_equal].
      + apply (take_prefix (t0 :: t')). simpl. lia.
      + apply (take_prefix (n0 :: n')). simpl. lia. }
  rewrite M. reflexivity.
Qed.

Lemma dumpCore_edges cb : dumpColumn cb -> edgesOk (dumpCore cb).
Proof.
  destruct cb as [col comma]. unfold dumpColumn, dumpCore. cbn [fst snd].
  intros (_ & _ & (Ht & _ & Hl) & _). split; [discriminate|].
  split; [reflexivity|].
  replace ("`"%char :: name col ++ "`"%char :: " "%char :: type col
             ++ (if comma then [","%char] else []))
    with (("`"%char :: name col ++ "`"%char :: [" "%char])
            ++ type col ++ (if comma then [","%char] else []))
    by (simpl; rewrite <- app_assoc; reflexivity).
  rewrite !rev_app_distr. destruct comma; [reflexivity|].
  simpl rev at 1. cbn [app].
  destruct (rev (type col)) as [|e r] eqn:Er; [|exact Hl].
  apply (f_equal (@rev ascii)) in Er. rewrite rev_involutive in Er.
  simpl in Er. congruence.
Qed.

Lemma dumpLine_trim cb : dumpColumn cb -> trim (dumpLine cb) = dumpCore cb.
Proof.
  intros H. pose proof (dumpCore_edges cb H) as (Hne & Hh & Hl).
  unfold dumpLine, trim.
  change (trimStart (js "  " ++ dumpCore cb)) with (trimStart (dumpCore cb)).
  rewrite trimStart_fix by exact Hh.
  unfold trimEnd. rewrite trimStart_fix by exact Hl. apply rev_involutive.
Qed.

Lemma js_columnOf_text cb :
  dumpColumn cb -> Js.columnOf (dumpLine cb) = Some (Some (fst cb)).
Proof.
  intros H. unfold Js.columnOf. rewrite (dumpLine_trim cb H).
  destruct (js_columnRe_text cb H) as [m E].
  destruct H as (_ & _ & He & Hcm & Hskip).
  rewrite Hskip, E. cbn [caps capture Nat.eqb].
  rewrite (trim_edges _ He), (trailingComma_keep _ Hcm).
  destruct cb as [[n t] comma]. reflexivity.
Qed.

Lemma js_collect_text cbs :
  Forall dumpColumn cbs ->
  collectColumns Js.columnOf (map dumpLine cbs ++ [[]]) = Some (map fst cbs).
Proof.
  induction 1 as [|cb cbs Hc Hcbs IH]; [reflexivity|].
  cbn [map app collectColumns]. rewrite (js_columnOf_text cb Hc), IH.
  reflexivity.
Qed.

Lemma split_linesBody ls :
  Forall (Forall (fun x => x <> "010"%char)) ls ->
  splitChar "010" (linesBody ls) = ls ++ [[]].
Proof.
  induction 1 as [|l ls Hl Hls IH]; [reflexivity|].
  cbn [linesBody]. unfold lf. cbn [app].
  rewrite splitChar_app, IH, splitChar_none by exact Hl. reflexivity.
Qed.

Lemma sameLine_not_lf w :
  Forall sameLine w -> Forall (fun x => x <> "010"%char) w.
Proof.
  intros H. eapply Forall_impl; [exact H|].
  intros a Ha E. subst a. discriminate Ha.
Qed.

Lemma dumpLine_one_line cb :
  dumpColumn cb -> Forall (fun x => x <> "010"%char) (dumpLine cb).
Proof.
  destruct cb as [col comma]. unfold dumpColumn, dumpLine, dumpCore.
  cbn [fst snd]. intros ((_ & _ & Hs) & Hn & _).
  repeat (apply Forall_cons; split; [discriminate|]).
  apply Forall_app. split; [apply sameLine_not_lf; exact Hn|].
  repeat (apply Forall_cons; split; [discriminate|]).
  apply Forall_app. split; [apply sameLine_not_lf; exact Hs|].
  destruct comma; repeat constructor. discriminate.
Qed.

Lemma createTableRe_quoted name tail :
  name <> [] -> Forall tableNameChar name ->
  matchGroup true createTableRe 1
    (js "CREATE TABLE `" ++ name ++ js "` (" ++ tail)
  = Some name.
Proof.
  intros Hne Hn. destruct name as [|c name']; [congruence|].
  inversion Hn as [|? ? Hc Hn']; subst.
  unfold matchGroup, exec. rewrite search_eq.
  assert (M : matchAt true createTableRe 0
                (js "CREATE TABLE `" ++ (c :: name') ++ js "` (" ++ tail)
              = Some (MState (14 + S (length name') + 3) tail
                        [(1, c :: name')])).
  { unfold matchAt, createTableRe. cbn [seq].
    rewrite rmatch_cat, rmatch_lits_eq. cbn [pos rest caps].
    change (litsMatch true (js "CREATE TABLE")
              (js "CREATE TABLE `" ++ (c :: name') ++ js "` (" ++ tail))
      with (Some (" "%char :: "`"%char :: (c :: name') ++ js "` (" ++ tail)).
    cbv iota beta. change (length (js "CREATE TABLE")) with 12.
    rewrite rmatch_cat.
    apply (plus_cls_greedy true cls_s _ _ " "%char []
             ("`"%char :: (c :: name') ++ js "` (" ++ tail));
      [reflexivity | reflexivity | reflexivity | reflexivity |].
    cbn [pos rest caps length].
    rewrite rmatch_cat.
    apply (opt_lit_take true "`" "`"%char ((c :: name') ++ js "` (" ++ tail));
      [reflexivity | reflexivity |].
    unfold step1. cbn [pos rest caps].
    rewrite rmatch_cat, rmatch_grp.
    apply (plus_cls_greedy true _ _ _ c name' (js "` (" ++ tail));
      [reflexivity | apply tableNameChar_cls; exact Hc
      | apply tableName_forallb; exact Hn' | reflexivity |].
    cbn [pos rest caps length].
    rewrite rmatch_cat.
    apply (opt_lit_take true "`" "`"%char (js " (" ++ tail));
      [reflexivity | reflexivity |].
    unfold step1. cbn [pos rest caps].
    rewrite rmatch_cat.
    apply (star_cls_greedy true cls_s _ _ [" "%char] ("("%char :: tail));
      [reflexivity | reflexivity | reflexivity |].
    cbn [pos rest caps length].
    rewrite rmatch_cat, rmatch_lit. cbn [rest].
    change (ch_eqb (canon true "(") (canon true "(")) with true. cbv iota.
    unfold step1. cbn [pos rest caps rmatch].
    f_equal. f_equal; [lia|]. f_equal. f_equal.
    apply (take_prefix (c :: name')). simpl. lia. }
  rewrite M. simpl. reflexivity.
Qed.

Lemma tableHead_quoted name body tail :
  name <> [] -> Forall tableNameChar name ->
  Forall (fun a => a <> ")"%char) tail ->
  tableHead (js "CREATE TABLE `" ++ name ++ js "` (" ++ body ++ ")"%char :: tail)
  = Some (stripServmask name, body).
Proof.
  intros Hne Hn Ht. unfold tableHead.
  rewrite (createTableRe_quoted name _ Hne Hn), servmask_strip.
  assert (E1 : js "CREATE TABLE `" ++ name ++ js "` (" ++ body ++ ")"%char :: tail
               = (js "CREATE TABLE `" ++ name ++ js "` ")
                   ++ "("%char :: body ++ ")"%char :: tail).
  { rewrite <- !app_assoc. reflexivity. }
  assert (E2 : js "CREATE TABLE `" ++ name ++ js "` (" ++ body ++ ")"%char :: tail
               = (js "CREATE TABLE `" ++ name ++ js "` (" ++ body)
                   ++ ")"%char :: tail).
  { rewrite <- !app_assoc. reflexivity. }
  rewrite E1 at 1. rewrite indexOf_app.
  2:{ apply Forall_app. split; [repeat constructor; discriminate|].
      apply Forall_app. split; [|repeat constructor; discriminate].
      eapply Forall_impl; [exact Hn|]. intros a (_ & Ha & _). exact Ha. }
  rewrite E2 at 1. rewrite (lastIndexOf_last _ _ _ Ht).
  rewrite E1. f_equal. f_equal.
  apply substring_between; [reflexivity|].
  rewrite !length_app. simpl. lia.
Qed.

(** X21.  A CREATE TABLE statement in the layout of a dump, the table
    name between backticks and one column per line (the name between
    backticks, the type, a comma or none), is read back by
    [parseCreateTable] of [bin/cli.js]: it returns the name without one
    leading SERVMASK_PREFIX_, the columns in order, and no data.  The
    name of a column holds no backtick and no line break; its type is on
    one line, neither starts nor ends with white space and does not end
    in a comma; the line does not contain ENGINE=.  Whatever follows the
    closing parenthesis (table options, a semicolon) is ignored, as long
    as it holds no closing parenthesis. *)
Theorem X21_dump_round_trip (name : str) (cbs : list (ColumnDefinition * bool))
    (tail : str) :
  name <> [] -> Forall tableNameChar name -> Forall dumpColumn cbs ->
  Forall (fun a => a <> ")"%char) tail ->
  Js.parseCreateTable (dumpText name cbs tail)
  = Some (mkTable (stripServmask name) (map fst cbs) []).
Proof.
  intros Hne Hn Hc Ht. unfold Js.parseCreateTable, dumpText.
  rewrite (app_assoc lf), (tableHead_quoted name _ _ Hne Hn Ht).
  change (lf ++ linesBody (map dumpLine cbs))
    with ([] ++ "010"%char :: linesBody (map dumpLine cbs)).
  rewrite (splitChar_app "010" [] (linesBody (map dumpLine cbs))).
  rewrite split_linesBody.
  2:{ apply Forall_map. eapply Forall_impl; [exact Hc|].
      intros cb. apply dumpLine_one_line. }
  change (splitChar "010" [] ++ map dumpLine cbs ++ [[]])
    with ([] :: map dumpLine cbs ++ [[]]).
  cbn [collectColumns].
  change (Js.columnOf []) with (Some (@None ColumnDefinition)).
  rewrite (js_collect_text cbs Hc). reflexivity.
Qed.

Lemma X21_dump_round_trip_witness :
  Js.parseCreateTable
    (js "CREATE TABLE `SERVMASK_PREFIX_users` (" ++ lf
     ++ js "  `id` int(11) NOT NULL," ++ lf
     ++ js "  `price` decimal(10,2)" ++ lf
     ++ js ") ENGINE=InnoDB DEFAULT CHARSET=utf8;")
  = Some (mkTable (js "users")
            [mkColumn (js "id") (js "int(11) NOT NULL");
             mkColumn (js "price") (js "decimal(10,2)")] []).
Proof.
  apply (X21_dump_round_trip (js "SERVMASK_PREFIX_users")
           [(mkColumn (js "id") (js "int(11) NOT NULL"), true);
            (mkColumn (js "price") (js "decimal(10,2)"), false)]
           (js " ENGINE=InnoDB DEFAULT CHARSET=utf8;")).
  - discriminate.
  - repeat constructor; intros E; discriminate E.
  - repeat constructor; try discriminate; try reflexivity;
      try (intros E; discriminate E).
  - repeat constructor; intros E; discriminate E.
Defined.

(** ** INSERT statements with several records *)

Lemma starCls_lit_fail c0 (k : cont) t : forall n c,
  match trimStart t with
  | a :: _ => ch_eqb a c0 = false
  | [] => True
  end ->
  isWhiteSpace c0 = false ->
  starCls cls_s n t c (fun y => rmatch false (Lit c0) y k) = None.
Proof.
  induction t as [|a t IH]; intros n c H Hc0; [reflexivity|].
  cbn [starCls]. simpl in H. unfold cls_s at 1.
  destruct (isWhiteSpace a) eqn:E.
  - rewrite IH by assumption. rewrite rmatch_lit. cbn [rest]. unfold canon.
    destruct (ch_eqb a c0) eqn:Ea; [|reflexivity].
    apply ch_eqb_eq in Ea. congruence.
  - rewrite rmatch_lit. cbn [rest]. unfold canon. rewrite H. reflexivity.
Qed.

Lemma trimStart_split t :
  exists w, t = w ++ trimStart t /\ forallb cls_s w = true.
Proof.
  induction t as [|a t (w & E & Hw)]; [exists []; split; reflexivity|].
  simpl. destruct (isWhiteSpace a) eqn:Ea.
  - exists (a :: w). split; [simpl; rewrite <- E; reflexivity|].
    simpl. unfold cls_s at 1. rewrite Ea. exact Hw.
  - exists []. split; reflexivity.
Qed.

Lemma matchAt_sep n s :
  matchAt false groupSepRe n s = None <-> sepMatchB s = false.
Proof.
  unfold matchAt, groupSepRe. cbn [seq].
  rewrite rmatch_cat, rmatch_lit. cbn [rest]. unfold canon.
  destruct s as [|a [|b t]]; [split; reflexivity | |].
  - destruct (ch_eqb a ")"); [|split; reflexivity].
    rewrite rmatch_cat, rmatch_lit. split; reflexivity.
  - unfold sepMatchB.
    destruct (ch_eqb a ")"); [|split; reflexivity].
    rewrite rmatch_cat, rmatch_lit. unfold step1. cbn [rest pos caps].
    unfold canon.
    destruct (ch_eqb b ","); [|split; reflexivity].
    cbn [andb]. rewrite rmatch_cat, rmatch_star_cls. cbn [rest pos caps].
    destruct (trimStart_split t) as (w & E & Hw).
    destruct (trimStart t) as [|c r] eqn:Et.
    + split; [reflexivity|]. intros _.
      rewrite <- (starCls_lit_fail "(" (fun y => rmatch false Eps y Some)
                    t (S (S n)) []); [reflexivity | rewrite Et; exact I
                                     | reflexivity].
    + destruct (ch_eqb c "(") eqn:Ec.
      * split; [|discriminate]. intros H. exfalso.
        rewrite E in H.
        rewrite (starCls_greedy cls_s _
                   (MState (S (S (S n)) + length w) r []) w (c :: r)) in H;
          [discriminate H | exact Hw | |].
        -- simpl. pose proof (trimStart_head t) as Hh. rewrite Et in Hh.
           exact Hh.
        -- rewrite rmatch_cat, rmatch_lit. cbn [rest]. unfold canon.
           rewrite Ec. unfold step1. cbn [pos rest caps rmatch].
           f_equal; f_equal; lia.
      * split; [reflexivity|]. intros _.
        rewrite <- (starCls_lit_fail "(" (fun y => rmatch false Eps y Some)
                      t (S (S n)) []); [reflexivity | rewrite Et; exact Ec
                                       | reflexivity].
Qed.

Lemma matchAt_join n t :
  matchAt false groupSepRe n (")"%char :: ","%char :: "("%char :: t)
  = Some (MState (S (S (S n))) t []).
Proof.
  unfold matchAt, groupSepRe. cbn [seq].
  rewrite rmatch_cat, rmatch_lit. cbn [rest].
  change (ch_eqb (canon false ")") (canon false ")")) with true. cbv iota.
  rewrite rmatch_cat, rmatch_lit. unfold step1. cbn [rest pos caps].
  change (ch_eqb (canon false ",") (canon false ",")) with true. cbv iota.
  rewrite rmatch_cat, rmatch_star_cls. cbn [rest pos caps starCls].
  change (cls_s "(") with false. cbv iota.
  rewrite rmatch_cat, rmatch_lit. cbn [rest].
  change (ch_eqb (canon false "(") (canon false "(")) with true. cbv iota.
  reflexivity.
Qed.

Lemma trimStart_app_cons v e X :
  isWhiteSpace e = false ->
  trimStart (v ++ e :: X)
  = match trimStart v with
    | [] => e :: X
    | c :: r => (c :: r) ++ e :: X
    end.
Proof.
  intros He. induction v as [|a v IH]; simpl; [rewrite He; reflexivity|].
  destruct (isWhiteSpace a); [exact IH | reflexivity].
Qed.

Lemma sep_extend v X :
  v <> [] -> sepMatchB v = false -> sepMatchB (v ++ ")"%char :: X) = false.
Proof.
  intros Hv H. destruct v as [|a [|b t]]; [congruence | |].
  - simpl. destruct (ch_eqb a ")"); reflexivity.
  - cbn [app]. unfold sepMatchB in *.
    destruct (ch_eqb a ")" && ch_eqb b ","); [|reflexivity].
    cbn [andb] in *. rewrite trimStart_app_cons by reflexivity.
    destruct (trimStart t) as [|c r]; [reflexivity | exact H].
Qed.

Lemma noSep_test r : test false groupSepRe r = false -> noSep r.
Proof.
  intros H i. apply test_exec in H. unfold exec in H.
  destruct (Nat.le_gt_cases i (length r)) as [Hi|Hi].
  - apply (matchAt_sep (0 + i)). apply search_none; assumption.
  - rewrite skipn_all2 by lia. reflexivity.
Qed.

Lemma noSep_tail a r : noSep (a :: r) -> noSep r.
Proof. intros H i. exact (H (S i)). Qed.

Lemma splitRegex_go_miss f ci r acc q c t :
  matchAt ci r q (c :: t) = None ->
  splitRegex_go (S f) ci r acc q (c :: t)
  = splitRegex_go f ci r (acc ++ [c]) (S q) t.
Proof. intros H. simpl. rewrite H. reflexivity. Qed.

Lemma splitRegex_go_hit f ci r acc q c t y :
  matchAt ci r q (c :: t) = Some y -> pos y <> q ->
  splitRegex_go (S f) ci r acc q (c :: t)
  = acc :: splitRegex_go f ci r [] (pos y) (rest y).
Proof.
  intros H Hp. simpl. rewrite H.
  replace (pos y =? q) with false by (symmetry; apply Nat.eqb_neq; exact Hp).
  reflexivity.
Qed.

(** The split leaves a record without separator in one piece. *)
Lemma split_row r : forall acc q fuel X,
  noSep r -> length r <= fuel ->
  exists fuel',
    splitRegex_go (S fuel) false groupSepRe acc q (r ++ ")"%char :: X)
    = splitRegex_go (S fuel') false groupSepRe (acc ++ r) (q + length r)
        (")"%char :: X)
    /\ fuel' + length r = fuel.
Proof.
  induction r as [|a r IH]; intros acc q fuel X Hn Hf.
  - exists fuel. rewrite app_nil_r, Nat.add_0_r. split; [reflexivity | simpl; lia].
  - destruct fuel as [|fuel]; [simpl in Hf; lia|].
    cbn [app].
    assert (M : matchAt false groupSepRe q (a :: r ++ ")"%char :: X) = None).
    { apply matchAt_sep. apply (sep_extend (a :: r)); [discriminate|].
      exact (Hn 0). }
    rewrite (splitRegex_go_miss _ _ _ _ _ _ _ M).
    destruct (IH (acc ++ [a]) (S q) fuel X (noSep_tail a r Hn)) as (f' & E & Ef);
      [simpl in Hf; lia|].
    exists f'. rewrite E. rewrite <- app_assoc. cbn [app length].
    replace (S q + length r) with (q + S (length r)) by lia.
    split; [reflexivity | lia].
Qed.

Lemma sfx_noSep (semi : bool) i :
  sepMatchB (skipn i (")"%char :: (if semi then [";"%char] else []))) = false.
Proof.
  destruct semi; destruct i as [|[|i]]; try reflexivity;
    cbn [skipn]; rewrite skipn_nil; reflexivity.
Qed.

Lemma split_rows (semi : bool) more : forall first acc q fuel,
  noSep first -> Forall noSep more ->
  length (rowsTail first more (if semi then [";"%char] else [])) <= fuel ->
  splitRegex_go (S fuel) false groupSepRe acc q
    (rowsTail first more (if semi then [";"%char] else []))
  = rowPieces acc first more (if semi then [";"%char] else []).
Proof.
  induction more as [|r t IH]; intros first acc q fuel Hf Hm Hlen.
  - cbn [rowsTail rowPieces] in *.
    destruct (split_row first acc q fuel (if semi then [";"%char] else []) Hf)
      as (f' & E & _).
    { rewrite length_app in Hlen. lia. }
    rewrite E, splitRegex_go_none.
    + rewrite <- app_assoc. reflexivity.
    + intros i _. apply matchAt_sep. apply sfx_noSep.
  - inversion Hm as [|? ? Hr Ht]; subst.
    cbn [rowsTail rowPieces] in *.
    destruct (split_row first acc q fuel
                (","%char :: "("%char
                   :: rowsTail r t (if semi then [";"%char] else [])) Hf)
      as (f' & E & Ef).
    { rewrite length_app in Hlen. lia. }
    rewrite E.
    rewrite length_app in Hlen. cbn [length] in Hlen.
    destruct f' as [|f'']; [lia|].
    rewrite (splitRegex_go_hit _ _ _ _ _ _ _ _ (matchAt_join _ _))
      by (cbn [pos]; lia).
    cbn [pos rest]. f_equal. apply IH; [exact Hr | exact Ht | lia].
Qed.

Lemma splitRegex_rows (semi : bool) first more :
  noSep first -> Forall noSep more ->
  splitRegex false groupSepRe
    ("("%char :: rowsTail first more (if semi then [";"%char] else []))
  = rowPieces ["("%char] first more (if semi then [";"%char] else []).
Proof.
  intros Hf Hm. unfold splitRegex.
  set (s := rowsTail first more (if semi then [";"%char] else [])).
  replace (S (2 * length ("("%char :: s)))
    with (S (S (S (2 * length s)))) by (simpl; lia).
  rewrite splitRegex_go_miss
    by (apply matchAt_sep; destruct s as [|b t]; reflexivity).
  cbn [app]. subst s. apply split_rows; [exact Hf | exact Hm | lia].
Qed.

Lemma block_star u e X : forall n c (k : cont),
  cls_s e = false ->
  starCls cls_s n (u ++ e :: X) c (fun y => rmatch false Eol y k) = None.
Proof.
  induction u as [|a u IH]; intros n c k He.
  - cbn [app starCls]. rewrite He. reflexivity.
  - cbn [app starCls]. destruct (cls_s a); [rewrite IH by exact He|];
      reflexivity.
Qed.

Lemma block_space y v e X :
  rest y = v ++ e :: X -> cls_s e = false ->
  rmatch false (seq [Star (Cls cls_s); Eol]) y Some = None.
Proof.
  intros Hy He. cbn [seq]. rewrite rmatch_cat, rmatch_star_cls, Hy.
  rewrite <- (block_star v e X (pos y) (caps y)
                (fun y0 => rmatch false Eps y0 Some) He).
  reflexivity.
Qed.

Lemma block_tail y v e X :
  rest y = v ++ e :: X -> cls_s e = false -> e <> ";"%char ->
  rmatch false (seq [Opt (Lit ";"); Star (Cls cls_s); Eol]) y Some = None.
Proof.
  intros Hy He Hs.
  change (seq [Opt (Lit ";"); Star (Cls cls_s); Eol])
    with (Cat (Opt (Lit ";")) (seq [Star (Cls cls_s); Eol])).
  rewrite rmatch_cat, rmatch_opt, rmatch_lit, Hy.
  rewrite (block_space y v e X Hy He).
  destruct v as [|b v']; cbn [app]; unfold canon.
  - apply ch_eqb_neq in Hs. rewrite Hs. reflexivity.
  - destruct (ch_eqb b ";"); [|reflexivity].
    destruct (pos (step1 y (v' ++ e :: X)) =? pos y); [reflexivity|].
    rewrite (block_space (step1 y (v' ++ e :: X)) v' e X) by (reflexivity || exact He).
    reflexivity.
Qed.

Lemma trailParen_blocked a u e X n :
  cls_s e = false -> e <> ";"%char ->
  matchAt false trailParenRe n (a :: u ++ e :: X) = None.
Proof.
  intros He Hs. unfold matchAt, trailParenRe.
  change (seq [Lit ")"; Opt (Lit ";"); Star (Cls cls_s); Eol])
    with (Cat (Lit ")") (seq [Opt (Lit ";"); Star (Cls cls_s); Eol])).
  rewrite rmatch_cat, rmatch_lit. cbn [rest].
  destruct (ch_eqb (canon false a) (canon false ")")); [|reflexivity].
  apply (block_tail _ u e X); [reflexivity | exact He | exact Hs].
Qed.

Lemma trailParen_end n (semi : bool) :
  exists m,
    matchAt false trailParenRe n (")"%char :: (if semi then [";"%char] else []))
    = Some (MState m [] []).
Proof.
  unfold matchAt, trailParenRe.
  change (seq [Lit ")"; Opt (Lit ";"); Star (Cls cls_s); Eol])
    with (Cat (Lit ")") (Cat (Opt (Lit ";")) (seq [Star (Cls cls_s); Eol]))).
  rewrite rmatch_cat, rmatch_lit. cbn [rest].
  change (ch_eqb (canon false ")") (canon false ")")) with true. cbv iota.
  unfold step1. cbn [pos rest caps].
  rewrite rmatch_cat, rmatch_opt, rmatch_lit. cbn [rest].
  destruct semi; [|eexists; reflexivity].
  change (ch_eqb (canon false ";") (canon false ";")) with true. cbv iota.
  unfold step1. cbn [pos rest caps].
  replace (S (S n) =? S n) with false by (symmetry; apply Nat.eqb_neq; lia).
  eexists. reflexivity.
Qed.

Lemma trailParen_strip_end row (semi : bool) :
  replaceFirst false trailParenRe []
    (row ++ ")"%char :: (if semi then [";"%char] else []))
  = row.
Proof.
  unfold replaceFirst, exec.
  rewrite search_skip.
  2:{ intros i Hi.
      destruct (skipn i row) as [|a u] eqn:E.
      - apply (f_equal (@length ascii)) in E. rewrite length_skipn in E.
        simpl in E. lia.
      - apply trailParen_blocked; [reflexivity | discriminate]. }
  rewrite search_eq.
  destruct (trailParen_end (0 + length row) semi) as [m ->].
  cbn [rest]. rewrite Nat.add_0_l, !app_nil_r.
  apply (take_prefix row). reflexivity.
Qed.

Lemma search_none_intro ci r s : forall p,
  (forall i, i <= length s -> matchAt ci r (p + i) (skipn i s) = None) ->
  search ci r p s = None.
Proof.
  induction s as [|a s IH]; intros p H; rewrite search_eq.
  - pose proof (H 0 ltac:(simpl; lia)) as H0. rewrite Nat.add_0_r in H0.
    simpl in H0. rewrite H0. reflexivity.
  - pose proof (H 0 ltac:(simpl; lia)) as H0. rewrite Nat.add_0_r in H0.
    simpl in H0. rewrite H0. apply IH. intros i Hi.
    specialize (H (S i) ltac:(simpl; lia)). simpl in H.
    replace (S p + i) with (p + S i) by lia. exact H.
Qed.

Lemma trailParen_keep r :
  trailFree r -> replaceFirst false trailParenRe [] r = r.
Proof.
  intros H. unfold replaceFirst, exec.
  rewrite search_none_intro; [reflexivity|].
  intros i _. unfold trailFree in H.
  destruct r as [|a r'] using rev_ind.
  - rewrite skipn_nil. reflexivity.
  - clear IHr'. rewrite last_snoc in H. destruct H as (Hw & Hs & Hp).
    rewrite skipn_app.
    destruct (skipn i r') as [|b u] eqn:E.
    + cbn [app]. destruct (i - length r') as [|j]; cbn [skipn].
      * unfold matchAt, trailParenRe. cbn [seq].
        rewrite rmatch_cat, rmatch_lit. cbn [rest]. unfold canon.
        apply ch_eqb_neq in Hp. rewrite Hp. reflexivity.
      * rewrite skipn_nil. reflexivity.
    + assert (Hi : i < length r').
      { apply (f_equal (@length ascii)) in E. rewrite length_skipn in E.
        simpl in E. lia. }
      replace (i - length r') with 0 by lia. cbn [skipn app].
      apply trailParen_blocked; assumption.
Qed.

Lemma leadParen_keep r :
  leadFree r -> replaceFirst false leadParenRe [] r = r.
Proof.
  intros H. unfold replaceFirst, leadParenRe. rewrite exec_bol.
  unfold matchAt. rewrite rmatch_cat, rmatch_bol. cbn [pos Nat.eqb].
  rewrite rmatch_lit. cbn [rest]. destruct r as [|c r']; [reflexivity|].
  unfold canon. simpl in H. apply ch_eqb_neq in H. rewrite H. reflexivity.
Qed.

Lemma clean_pieces (semi : bool) more : forall first,
  Forall leadFree more -> Forall trailFree (first :: more) ->
  leadFree first ->
  map cleanGroup (rowPieces [] first more (if semi then [";"%char] else []))
  = first :: more.
Proof.
  induction more as [|r t IH]; intros first Hl Ht Hf;
    inversion Ht as [|? ? Ht1 Ht2]; subst.
  - cbn [rowPieces map app]. unfold cleanGroup.
    rewrite leadParen_keep.
    + rewrite trailParen_strip_end. reflexivity.
    + destruct first; [discriminate | exact Hf].
  - inversion Hl as [|? ? Hl1 Hl2]; subst.
    cbn [rowPieces map app]. rewrite (IH r Hl2 Ht2 Hl1).
    unfold cleanGroup. rewrite (leadParen_keep first Hf).
    rewrite (trailParen_keep first Ht1). reflexivity.
Qed.

Lemma clean_rows (semi : bool) first more :
  Forall leadFree more -> Forall trailFree (first :: more) ->
  map cleanGroup
    (rowPieces ["("%char] first more (if semi then [";"%char] else []))
  = first :: more.
Proof.
  intros Hl Ht. destruct more as [|r t];
    inversion Ht as [|? ? Ht1 Ht2]; subst.
  - cbn [rowPieces map app]. unfold cleanGroup.
    rewrite leadParen_strip, trailParen_strip_end. reflexivity.
  - inversion Hl as [|? ? Hl1 Hl2]; subst.
    cbn [rowPieces map app]. rewrite (clean_pieces semi t r Hl2 Ht2 Hl1).
    unfold cleanGroup. rewrite leadParen_strip.
    rewrite (trailParen_keep first Ht1). reflexivity.
Qed.

Lemma digit_end d : isDigit d = true -> endOk d /\ d <> "("%char.
Proof.
  unfold endOk. char_cases d; vm_compute; intros H;
    first [discriminate H | repeat split; try reflexivity; discriminate].
Qed.

Lemma last_forallb (p : ascii -> bool) s :
  s <> [] -> forallb p s = true -> exists e, last s = Some e /\ p e = true.
Proof.
  induction s as [|a s IH]; intros Hs Hp; [congruence|].
  simpl in Hp. apply andb_prop in Hp as [Ha Hp]. rewrite last_cons.
  destruct s as [|b s']; [exists a; split; [reflexivity | exact Ha]|].
  destruct (IH ltac:(discriminate) Hp) as (e & -> & He). eauto.
Qed.

Lemma writeValue_free q v :
  isQuoteChar q = true -> writable v ->
  writeValue q v <> [] /\ leadFree (writeValue q v)
  /\ trailFree (writeValue q v).
Proof.
  intros Hq Hw.
  assert (Q : endOk q /\ q <> "("%char).
  { unfold isQuoteChar in Hq. apply orb_prop in Hq as [Hq|Hq];
      apply ch_eqb_eq in Hq; subst q; repeat split; discriminate. }
  destruct v as [|s|n]; simpl in Hw.
  - repeat split; discriminate.
  - cbn [writeValue]. unfold quoteWith. split; [discriminate|].
    split; [exact (proj2 Q)|]. unfold trailFree.
    change (q :: escapeQuotes s ++ [q]) with ((q :: escapeQuotes s) ++ [q]).
    rewrite last_snoc. exact (proj1 Q).
  - destruct Hw as (z & Hz & ->). rewrite (writeValue_integer q z Hz).
    destruct (numeral_shape z) as (ds & Hd & Hne & _ & ->).
    destruct (last_forallb isDigit ds Hne Hd) as (e & He & Hde).
    destruct (digit_end e Hde) as [He1 _].
    destruct ds as [|d ds']; [congruence|].
    simpl in Hd. apply andb_prop in Hd as [Hd0 _].
    destruct (digit_end d Hd0) as [_ Hd1].
    destruct (z <? 0)%Z.
    + split; [discriminate|]. split; [discriminate|].
      unfold trailFree. rewrite last_cons, He. exact He1.
    + split; [discriminate|]. split; [exact Hd1|].
      unfold trailFree. rewrite He. exact He1.
Qed.

Lemma last_app_cons' (a : str) c b : last (a ++ c :: b) = last (c :: b).
Proof.
  induction a as [|x a IH]; [reflexivity|].
  cbn [app]. rewrite last_cons, IH. destruct (last (c :: b)) eqn:E;
    [reflexivity|]. apply last_None in E. discriminate E.
Qed.

Lemma joinComma_nonempty first more : first <> [] -> joinComma first more <> [].
Proof.
  intros H. destruct more; simpl; [exact H|].
  destruct first; [congruence | discriminate].
Qed.

Lemma joinComma_trail more : forall first,
  Forall (fun s => s <> [] /\ trailFree s) (first :: more) ->
  trailFree (joinComma first more).
Proof.
  induction more as [|x t IH]; intros first H;
    inversion H as [|? ? [_ Ht1] H2]; subst; [exact Ht1|].
  rewrite joinComma_cons. unfold trailFree.
  rewrite last_app_cons', last_cons.
  specialize (IH x H2). unfold trailFree in IH.
  destruct (last (joinComma x t)) as [e|] eqn:E; [exact IH|].
  apply last_None in E. inversion H2 as [|? ? [Hx _] _]; subst.
  exfalso. exact (joinComma_nonempty x t Hx E).
Qed.

Lemma joinComma_free more first :
  first <> [] -> leadFree first ->
  Forall (fun s => s <> [] /\ trailFree s) (first :: more) ->
  leadFree (joinComma first more) /\ trailFree (joinComma first more).
Proof.
  intros Hne Hl H. split; [|apply joinComma_trail; exact H].
  destruct more; simpl; [exact Hl|].
  destruct first; [congruence | exact Hl].
Qed.

Lemma rowText_free q vs :
  isQuoteChar q = true -> Forall writable vs ->
  leadFree (rowText q vs) /\ trailFree (rowText q vs).
Proof.
  intros Hq Hw. unfold rowText.
  destruct vs as [|v vs]; [split; exact I|].
  inversion Hw as [|? ? Hv Hvs]; subst. cbn [map joinAll].
  destruct (writeValue_free q v Hq Hv) as (A & B & C).
  apply joinComma_free; [exact A | exact B|].
  change (writeValue q v :: map (writeValue q) vs)
    with (map (writeValue q) (v :: vs)).
  apply Forall_map. eapply Forall_impl; [exact Hw|].
  intros x Hx. destruct (writeValue_free q x Hq Hx) as (A' & _ & C').
  split; assumption.
Qed.

Lemma parseInsertInto_rows q name first more (semi : bool) :
  isQuoteChar q = true -> Forall (Forall writable) (first :: more) ->
  name <> [] -> Forall tableNameChar name ->
  test true (lits (js "VALUES")) name = false ->
  Forall (fun vs => test false groupSepRe (rowText q vs) = false)
         (first :: more) ->
  parseInsertInto
    (insertRowsText name (rowText q first) (map (rowText q) more) semi)
  = Some (mkInsert (stripServmask name) (first :: more)).
Proof.
  intros Hq Hw Hne Hn Hv Hs. unfold parseInsertInto, insertRowsText.
  change (js " VALUES (" ++ rowsTail (rowText q first) (map (rowText q) more)
                             (if semi then [";"%char] else []))
    with (js " VALUES" ++ js " (" ++ rowsTail (rowText q first)
                                       (map (rowText q) more)
                                       (if semi then [";"%char] else [])) at 1.
  rewrite (insertIntoRe_name name _ Hne Hn).
  rewrite (valuesRe_group name _ Hv), servmask_strip.
  inversion Hs as [|? ? Hs1 Hs2]; subst.
  inversion Hw as [|? ? Hw1 Hw2]; subst.
  rewrite splitRegex_rows.
  2:{ apply noSep_test. exact Hs1. }
  2:{ apply Forall_map. eapply Forall_impl; [exact Hs2|].
      intros vs. apply noSep_test. }
  rewrite <- (map_map cleanGroup parseValues), clean_rows.
  - f_equal. f_equal.
    change (rowText q first :: map (rowText q) more)
      with (map (rowText q) (first :: more)).
    rewrite map_map. rewrite <- (map_id (first :: more)) at 2.
    apply map_ext_Forall. eapply Forall_impl; [exact Hw|].
    intros vs Hvs. apply parseValues_written; assumption.
  - apply Forall_map. eapply Forall_impl; [exact Hw2|].
    intros vs Hvs. apply (rowText_free q vs Hq Hvs).
  - change (rowText q first :: map (rowText q) more)
      with (map (rowText q) (first :: more)).
    apply Forall_map. eapply Forall_impl; [exact Hw|].
    intros vs Hvs. apply (rowText_free q vs Hq Hvs).
Qed.

Lemma rowsTail_snoc (semi : bool) more : forall first,
  exists u e,
    rowsTail first more (if semi then [";"%char] else []) = u ++ [e]
    /\ isWhiteSpace e = false.
Proof.
  induction more as [|r t IH]; intros first; cbn [rowsTail].
  - destruct semi.
    + exists (first ++ [")"%char]), ";"%char.
      rewrite <- app_assoc. split; reflexivity.
    + exists first, ")"%char. split; reflexivity.
  - destruct (IH r) as (u & e & -> & He).
    exists (first ++ ")"%char :: ","%char :: "("%char :: u), e.
    rewrite <- app_assoc. split; [reflexivity | exact He].
Qed.

Lemma insertRowsText_trim name first more semi :
  trim (insertRowsText name first more semi)
  = insertRowsText name first more semi.
Proof.
  unfold insertRowsText.
  destruct (rowsTail_snoc semi more first) as (u & e & -> & He).
  change (js "INSERT INTO " ++ name ++ js " VALUES (" ++ u ++ [e])
    with ("I"%char :: js "NSERT INTO " ++ name ++ js " VALUES (" ++ u ++ [e]).
  rewrite !app_assoc. apply trim_ends; [reflexivity | exact He].
Qed.

(** X18.  An INSERT statement written from a table name and one or more
    records of values, with or without a final semicolon, is read back:
    [parseInsertInto] returns the name without one leading
    SERVMASK_PREFIX_ and the records in order, and [processStatement]
    appends the rows that pair them with the columns of the table
    registered under that name: when the column names are pairwise
    distinct and none is [__proto__], rows whose properties are exactly
    the column names paired with the values, position by position.  The
    numbers among the values are safe integers, written as decimal
    numerals.  The name is not empty, holds no backtick,
    parenthesis or white space, and does not contain the word VALUES in
    any letter case; no string among the values ends in a backslash, and
    no written record contains the separator of two records.  Both
    implementations. *)
Theorem X18_insert_round_trip (st : Converter) (q : ascii) (name : str)
    (first : list jsval) (more : list (list jsval)) (semi : bool)
    (t : TableInfo) :
  isQuoteChar q = true -> Forall (Forall writable) (first :: more) ->
  name <> [] -> Forall tableNameChar name ->
  test true (lits (js "VALUES")) name = false ->
  Forall (fun vs => test false groupSepRe (rowText q vs) = false)
         (first :: more) ->
  limitReached (withCounter st (processedStatements st + 1)) = false ->
  tables st !! stripServmask name = Some t ->
  let sql :=
    insertRowsText name (rowText q first) (map (rowText q) more) semi in
  parseInsertInto sql = Some (mkInsert (stripServmask name) (first :: more))
  /\ exists st',
       TsConverter.processStatement sql st = Returned true st'
       /\ JsConverter.processStatement sql st = Returned (Some true) st'
       /\ tables st' !! stripServmask name
          = Some (mkTable (tableName t) (columns t)
                    (data t ++ map (rowOf (columns t)) (first :: more)))
       /\ (NoDup (columnNames (columns t)) ->
           ~ In protoKey (columnNames (columns t)) ->
           map (rowOf (columns t)) (first :: more)
           = map (writtenRow (columns t)) (first :: more)).
Proof.
  intros Hq Hw Hne Hn Hv Hs Hl Ht sql.
  assert (Hp : parseInsertInto sql
               = Some (mkInsert (stripServmask name) (first :: more)))
    by (apply parseInsertInto_rows; assumption).
  split; [exact Hp|].
  assert (Htr : trim sql = sql) by apply insertRowsText_trim.
  assert (Hk : startsWith (js "INSERT INTO") (toUpperCase (trim sql)) = true)
    by (rewrite Htr; reflexivity).
  assert (Hemp : isEmpty (trim sql) = false) by (rewrite Htr; reflexivity).
  unfold TsConverter.processStatement, JsConverter.processStatement.
  rewrite Hemp, !(dispatch_insert _ _ _ Hk Hl), Htr, Hp.
  unfold insertRows. cbn [insTableName records].
  rewrite (getTable_lookup (withCounter st (processedStatements st + 1)) _ t Ht).
  eexists. split; [reflexivity|]. split; [reflexivity|].
  split; [simpl; apply lookup_insert_eq|].
  intros Hnd Hnp. apply map_ext. intros vs.
  exact (rowOf_exact (columns t) vs Hnd Hnp).
Qed.

Lemma X18_insert_round_trip_witness :
  parseInsertInto (js "INSERT INTO t VALUES (8,NULL,'it\'s'),(-3,'x)y',0);")
  = Some (mkInsert (js "t")
            [[JNum (Dec 8 0); JNull; JStr (js "it's")];
             [JNum (Dec (-3) 0); JStr (js "x)y"); JNum (Dec 0 0)]]).
Proof.
  destruct (X18_insert_round_trip stWithRows squote (js "t")
              [JNum (Dec 8 0); JNull; JStr (js "it's")]
              [[JNum (Dec (-3) 0); JStr (js "x)y"); JNum (Dec 0 0)]] true
              (mkTable (js "t") [mkColumn (js "x") (js "INT")]
                 [rowOf [mkColumn (js "x") (js "INT")] [JNum (Dec 7 0)]]))
    as [A _].
  - reflexivity.
  - writable_values.
  - discriminate.
  - repeat constructor; intros E; discriminate E.
  - vm_compute. reflexivity.
  - repeat constructor; vm_compute; reflexivity.
  - vm_compute. reflexivity.
  - vm_compute. reflexivity.
  - exact A.
Defined.

(** ** A table created and filled *)

Lemma createText_trim name cols :
  trim (createText name cols []) = createText name cols [].
Proof.
  unfold createText.
  change (js "CREATE TABLE " ++ name ++ js " ("
             ++ joinAll (map columnText cols) ++ [")"%char])
    with ("C"%char :: js "REATE TABLE " ++ name ++ js " ("
                       ++ joinAll (map columnText cols) ++ [")"%char]).
  rewrite !app_assoc. apply trim_ends; reflexivity.
Qed.

Lemma ts_statementsOf_single s :
  Forall (fun x => x <> ";"%char) s -> trim s = s -> s <> [] ->
  startsWith (js "--") s = false ->
  TsConverter.statementsOf s = [s].
Proof.
  intros Hs Ht Hne Hc. unfold TsConverter.statementsOf.
  rewrite splitChar_none by exact Hs. cbn [map]. rewrite Ht.
  rewrite filter_cons_True; [reflexivity|].
  rewrite Hc. destruct s; [congruence | reflexivity].
Qed.

(** X20.  A table created and filled from texts written as above comes
    out as written.  On a fresh converter without limit, [sqlToJson] of
    the TypeScript class on a CREATE TABLE statement, a semicolon and an
    INSERT statement for the same name returns with exactly one table in
    the registry: under the name without its SERVMASK_PREFIX_, with the
    columns written and one row per record, in order, whose properties
    are exactly the column names paired with the values of the record,
    position by position.  Besides the preconditions of the two
    statements, no semicolon occurs in either text, the table name is not
    [__proto__], and the column names are pairwise distinct and none of
    them is [__proto__]. *)
Theorem X20_create_then_insert (q : ascii) (name : str)
    (cols : list ColumnDefinition) (first : list jsval)
    (more : list (list jsval)) :
  name <> [] -> Forall tableNameChar name ->
  test true (lits (js "VALUES")) name = false ->
  stripServmask name <> protoKey ->
  Forall writableColumn cols ->
  NoDup (columnNames cols) -> ~ In protoKey (columnNames cols) ->
  isQuoteChar q = true -> Forall (Forall writable) (first :: more) ->
  Forall (fun vs => test false groupSepRe (rowText q vs) = false)
         (first :: more) ->
  let create := createText name cols [] in
  let insert :=
    insertRowsText name (rowText q first) (map (rowText q) more) false in
  Forall (fun x => x <> ";"%char) create ->
  Forall (fun x => x <> ";"%char) insert ->
  exists st',
    TsConverter.sqlToJson (create ++ ";"%char :: insert) (newConverter None)
    = Returned tt st'
    /\ tables st'
       = {[ stripServmask name
            := mkTable (stripServmask name) cols
                 (map (writtenRow cols) (first :: more)) ]}
    /\ totalTables st' = 1
    /\ totalRecords st' = length (first :: more).
Proof.
  intros Hne Hn Hv Hproto Hc Hnd Hnp Hq Hw Hs create insert Hsc Hsi.
  assert (Hrows : map (writtenRow cols) (first :: more)
                  = map (rowOf cols) (first :: more)).
  { apply map_ext. intros vs. symmetry. exact (rowOf_exact cols vs Hnd Hnp). }
  rewrite Hrows.
  assert (Pc : Ts.parseCreateTable create
               = Some (mkTable (stripServmask name) cols [])).
  { subst create. unfold Ts.parseCreateTable, createText.
    rewrite (tableHead_text name _ [] Hne Hn (List.Forall_nil _)).
    rewrite (ts_split_text cols Hc), (ts_collect_text cols Hc). reflexivity. }
  assert (Pi : parseInsertInto insert
               = Some (mkInsert (stripServmask name) (first :: more)))
    by (apply parseInsertInto_rows; assumption).
  assert (Tc : trim create = create) by apply createText_trim.
  assert (Ti : trim insert = insert) by apply insertRowsText_trim.
  unfold TsConverter.sqlToJson. rewrite ts_statementsOf_app.
  rewrite (ts_statementsOf_single create), (ts_statementsOf_single insert);
    try assumption; try reflexivity; try discriminate.
  cbn [app TsConverter.runStatements].
  change (0 <? length create) with true.
  change (0 <? length insert) with true. cbv iota.
  unfold TsConverter.processStatement at 1. rewrite Tc.
  change (isEmpty create) with false. cbv iota.
  assert (Kc : startsWith (js "CREATE TABLE") (toUpperCase create) = true)
    by reflexivity.
  assert (Ki : startsWith (js "INSERT INTO") (toUpperCase insert) = true)
    by reflexivity.
  rewrite (dispatch_create Ts.parseCreateTable create (newConverter None) _
             Kc eq_refl Pc).
  cbn [tableName].
  unfold TsConverter.processStatement. rewrite Ti.
  change (isEmpty insert) with false. cbv iota.
  assert (St : setTable (withCounter (newConverter None)
                           (processedStatements (newConverter None) + 1))
                 (stripServmask name) (mkTable (stripServmask name) cols [])
               = mkConverter None 1
                   {[ stripServmask name := mkTable (stripServmask name) cols [] ]}
                   None (Some (stripServmask name)) false).
  { unfold setTable.
    replace (str_eqb (stripServmask name) protoKey) with false
      by (symmetry; apply not_true_iff_false; rewrite str_eqb_eq; exact Hproto).
    reflexivity. }
  rewrite St.
  rewrite (dispatch_insert Ts.parseCreateTable insert
             (mkConverter None 1
                {[ stripServmask name := mkTable (stripServmask name) cols [] ]}
                None (Some (stripServmask name)) false) Ki eq_refl), Pi.
  unfold insertRows. cbn [insTableName records].
  rewrite (getTable_lookup _ _ (mkTable (stripServmask name) cols []))
    by apply lookup_insert_eq.
  eexists. split; [reflexivity|]. cbn [tables].
  assert (E : <[stripServmask name
                := pushRows (mkTable (stripServmask name) cols [])
                     (first :: more)]>
                ({[stripServmask name := mkTable (stripServmask name) cols []]}
                   : gmap str TableInfo)
              = {[stripServmask name
                  := mkTable (stripServmask name) cols
                       (map (rowOf cols) (first :: more))]}).
  { apply insert_insert_eq. }
  split; [exact E|]. split.
  - unfold totalTables. etransitivity; [exact (f_equal size E)|].
    apply map_size_singleton.
  - unfold totalRecords.
    etransitivity;
      [exact (f_equal
                (map_fold (fun (_ : str) table sum => sum + length (data table)) 0)
                E)|].
    rewrite map_fold_singleton. cbn [data]. rewrite length_map. reflexivity.
Qed.

Lemma X20_create_then_insert_witness :
  exists st',
    TsConverter.sqlToJson
      (js "CREATE TABLE users (id INT,name VARCHAR(255));INSERT INTO users VALUES (1,'Ann'),(2,'Bob')")
      (newConverter None)
    = Returned tt st'
    /\ tables st'
       = {[ js "users"
            := mkTable (js "users")
                 [mkColumn (js "id") (js "INT");
                  mkColumn (js "name") (js "VARCHAR(255)")]
                 [mkRow {[ js "id" := JNum (Dec 1 0);
                           js "name" := JStr (js "Ann") ]} false;
                  mkRow {[ js "id" := JNum (Dec 2 0);
                           js "name" := JStr (js "Bob") ]} false] ]}.
Proof.
  destruct (X20_create_then_insert squote (js "users")
              [mkColumn (js "id") (js "INT");
               mkColumn (js "name") (js "VARCHAR(255)")]
              [JNum (Dec 1 0); JStr (js "Ann")]
              [[JNum (Dec 2 0); JStr (js "Bob")]])
    as (st' & A & B & _).
  - discriminate.
  - repeat constructor; intros E; discriminate E.
  - vm_compute. reflexivity.
  - intros E. discriminate E.
  - repeat constructor; try discriminate; try reflexivity.
  - simpl. apply NoDup_cons. split; [|apply NoDup_singleton].
    intros E. apply list_elem_of_singleton in E. discriminate E.
  - intros [E|[E|E]]; [discriminate E | discriminate E | destruct E].
  - reflexivity.
  - writable_values.
  - repeat constructor; vm_compute; reflexivity.
  - repeat constructor; intros E; discriminate E.
  - repeat constructor; intros E; discriminate E.
  - exists st'. split; [exact A|]. rewrite B. unfold writtenRow.
    cbn [map columnNames zip_with name list_to_map foldr uncurry].
    rewrite !insert_empty. reflexivity.
Defined.

(** ** Statements read line by line by [bin/cli.js] *)

Lemma trimStart_Forall (P : ascii -> Prop) s :
  Forall P s -> Forall P (trimStart s).
Proof.
  induction 1 as [|c s Hc Hs IH]; simpl; [constructor|].
  destruct (isWhiteSpace c); [exact IH | constructor; assumption].
Qed.

Lemma trim_Forall (P : ascii -> Prop) s : Forall P s -> Forall P (trim s).
Proof.
  intros H. unfold trim, trimEnd.
  apply Forall_rev, trimStart_Forall, Forall_rev, trimStart_Forall, H.
Qed.

Lemma tableHead_Forall (P : ascii -> Prop) sql n body :
  Forall P sql -> tableHead sql = Some (n, body) -> Forall P body.
Proof.
  intros H. unfold tableHead.
  destruct (matchGroup _ _ _ _); [|discriminate].
  destruct (indexOf _ _); [|discriminate].
  destruct (lastIndexOf _ _); [|discriminate].
  intros E. injection E as _ <-. unfold substring.
  apply Forall_take, Forall_drop, H.
Qed.

Lemma collectColumns_single f x cs :
  collectColumns f [x] = Some cs -> length cs <= 1.
Proof.
  simpl. destruct (f x) as [[c|]|]; intros E; try discriminate E;
    injection E as <-; simpl; lia.
Qed.

Lemma js_parse_one_line sql ti :
  oneLine sql -> Js.parseCreateTable sql = Some ti -> narrowTable ti.
Proof.
  intros H. unfold Js.parseCreateTable.
  destruct (tableHead sql) as [[n body]|] eqn:E; [|discriminate].
  rewrite (splitChar_none _ body (tableHead_Forall _ _ _ _ H E)).
  destruct (collectColumns _ _) as [cs|] eqn:C; [|discriminate].
  intros X. injection X as <-. split; [|constructor].
  exact (collectColumns_single _ _ _ C).
Qed.

Lemma setProp_size obj k v :
  size (props obj) = 0 -> size (props (setProp obj k v)) <= 1.
Proof.
  intros H. apply map_size_empty_inv in H. unfold setProp.
  destruct (_ && _).
  - destruct v; rewrite ?H; simpl; rewrite ?H, ?map_size_empty; lia.
  - simpl. rewrite H, insert_empty, map_size_singleton. lia.
Qed.

Lemma rowOf_narrow cols record :
  length cols <= 1 -> size (props (rowOf cols record)) <= 1.
Proof.
  intros H. unfold rowOf.
  destruct cols as [|c [|c' t]]; simpl in *; [| |lia].
  - rewrite map_size_empty. lia.
  - destruct (record !! 0).
    + apply setProp_size. apply map_size_empty.
    + simpl. rewrite map_size_empty. lia.
Qed.

Lemma pushRows_narrow t recs : narrowTable t -> narrowTable (pushRows t recs).
Proof.
  intros [Hc Hd]. split; [exact Hc|]. simpl.
  apply Forall_app. split; [exact Hd|].
  apply Forall_map, Forall_forall. intros r _. apply rowOf_narrow, Hc.
Qed.

Lemma dispatch_narrow sql st :
  oneLine sql -> narrow st ->
  narrow (stateOf (dispatch Js.parseCreateTable sql st)).
Proof.
  intros Hs H. unfold dispatch. cbv zeta.
  destruct (limitReached _); [exact H|].
  destruct (startsWith (js "START TRANSACTION") sql); [exact H|].
  destruct (startsWith (js "COMMIT") sql); [exact H|].
  destruct (startsWith (js "DROP TABLE") _); [exact H|].
  destruct (startsWith (js "CREATE TABLE") _).
  { destruct (Js.parseCreateTable sql) as [ti|] eqn:E; [|exact H].
    pose proof (js_parse_one_line sql ti Hs E) as Hti.
    simpl. unfold setTable. destruct (_ && _); [exact H|].
    intros k t. simpl.
    destruct (decide (k = tableName ti)) as [->|Hne].
    - rewrite lookup_insert_eq. intros X. injection X as <-. exact Hti.
    - rewrite lookup_insert_ne by congruence. apply H. }
  destruct (startsWith (js "INSERT INTO") _); [|exact H].
  destruct (parseInsertInto sql) as [ii|]; [|exact H].
  unfold insertRows.
  destruct (getTable _ _) as [|t|t|[]] eqn:G; try exact H.
  - intros k t'. simpl.
    destruct (decide (k = insTableName ii)) as [->|Hne].
    + rewrite lookup_insert_eq. intros X. injection X as <-.
      apply pushRows_narrow. apply (H (insTableName ii)).
      unfold getTable in G. simpl in G.
      destruct (tables st !! insTableName ii) as [t0|].
      * injection G as <-. reflexivity.
      * destruct (tablesProto st);
          repeat (match type of G with
                  | context [if ?b then _ else _] => destruct b
                  end); try discriminate G;
          unfold inObjectPrototype in G;
          repeat (match type of G with
                  | context [if ?b then _ else _] => destruct b
                  end); discriminate G.
    + rewrite lookup_insert_ne by congruence. apply H.
  - destruct (records ii); exact H.
Qed.

Lemma js_process_narrow sql st :
  oneLine sql -> narrow st ->
  narrow (stateOf (JsConverter.processStatement sql st)).
Proof.
  intros Hs H. unfold JsConverter.processStatement.
  destruct (isEmpty (trim sql)); [exact H|].
  pose proof (dispatch_narrow (trim sql) st (trim_Forall _ _ Hs) H) as D.
  destruct (dispatch Js.parseCreateTable (trim sql) st); exact D.
Qed.

Lemma js_lineLoop_narrow lines : forall cs st,
  Forall oneLine lines -> oneLine cs -> narrow st ->
  match lineLoop JsConverter.processStatement JsConverter.truthy lines cs st with
  | Returned cs' st' => oneLine cs' /\ narrow st'
  | Thrown st' => narrow st'
  end.
Proof.
  induction lines as [|l more IH]; intros cs st Hl Hcs H; [split; assumption|].
  inversion Hl as [|? ? H1 Hm]; subst. simpl.
  destruct (skipLine l); [apply IH; assumption|].
  assert (Hn : oneLine (cs ++ " "%char :: l)).
  { apply Forall_app. split; [exact Hcs|]. constructor; [discriminate|exact H1]. }
  destruct (endsWith _ _); [|apply IH; assumption].
  pose proof (js_process_narrow (trim (cs ++ " "%char :: l)) st
                (trim_Forall _ _ Hn) H) as D.
  destruct (JsConverter.processStatement _ st) as [r st'|st']; [|exact D].
  destruct (JsConverter.truthy r).
  - apply IH; [exact Hm | constructor | exact D].
  - split; [constructor | exact D].
Qed.

(** X22.  Read line by line, [bin/cli.js] keeps at most one column per
    table.  The lines that [processLargeSQL] gets hold no line feed, it
    joins them with spaces, and [parseCreateTable] of [bin/cli.js] looks
    for one column per line of the text between the parentheses.  So, from
    a registry whose tables have at most one column and rows of at most
    one field (the empty registry of a new converter is one), every table
    of the registry after the run has at most one column, and every row of
    it at most one field: whatever the CREATE TABLE statements declare and
    however many values the records hold. *)
Theorem X22_line_by_line_one_column (lines : list str) (st : Converter) :
  Forall oneLine lines -> narrow st ->
  forall k t, tables (stateOf (jsProcessLines lines st)) !! k = Some t ->
    length (columns t) <= 1 /\ Forall (fun r => size (props r) <= 1) (data t).
Proof.
  intros Hl H. change (narrow (stateOf (jsProcessLines lines st))).
  unfold jsProcessLines, processLines.
  pose proof (js_lineLoop_narrow lines [] st Hl (List.Forall_nil _) H) as D.
  destruct (lineLoop _ _ lines [] st) as [cs st'|st']; [|exact D].
  destruct D as [Hcs D]. destruct (isEmpty (trim cs)); [exact D|].
  pose proof (js_process_narrow (trim cs) st' (trim_Forall _ _ Hcs) D) as D'.
  destruct (JsConverter.processStatement (trim cs) st'); exact D'.
Qed.

Lemma X22_line_by_line_one_column_witness :
  Forall oneLine dumpLines /\ narrow (newConverter None)
  /\ exists t,
       tables (stateOf (jsProcessLines dumpLines (newConverter None)))
         !! js "users" = Some t
       /\ length (columns t) <= 1
       /\ Forall (fun r => size (props r) <= 1) (data t).
Proof.
  assert (Hl : Forall oneLine dumpLines)
    by (repeat constructor; intros E; discriminate E).
  assert (Hn : narrow (newConverter None))
    by (intros k t E; simpl in E; rewrite lookup_empty in E; discriminate E).
  split; [exact Hl|]. split; [exact Hn|].
  destruct (tables (stateOf (jsProcessLines dumpLines (newConverter None)))
              !! js "users") as [t|] eqn:E.
  - exists t. split; [reflexivity|].
    exact (X22_line_by_line_one_column dumpLines (newConverter None) Hl Hn
             (js "users") t E).
  - vm_compute in E. discriminate E.
Defined.

(** ** The column body of a dump, read by the TypeScript class *)

Lemma ts_columnRe_quoted col :
  tsColumnOk col -> edgesOk (type col) ->
  exec false Ts.columnRe (quotedText col)
  = Some (0, MState (length (name col) + 3 + length (type col)) []
               [(2, type col); (1, name col)]).
Proof.
  intros (Hn & Hc & Hs) (Ht & Hh & _).
  unfold quotedText.
  destruct (name col) as [|n0 n'] eqn:En; [congruence|].
  destruct (type col) as [|t0 t'] eqn:Et; [congruence|].
  inversion Hc as [|? ? Hc0 Hc']; subst. pose proof Hc0 as [Hb Hw].
  inversion Hs as [|? ? Hs0 Hs']; subst.
  simpl in Hh.
  assert (M : matchAt false Ts.columnRe 0
                ("`"%char :: (n0 :: n') ++ "`"%char :: " "%char :: t0 :: t')
              = Some (MState (length (n0 :: n') + 3 + length (t0 :: t')) []
                        [(2, t0 :: t'); (1, n0 :: n')])).
  { unfold matchAt, Ts.columnRe. cbn [seq]. rewrite rmatch_cat, rmatch_bol.
    cbn [pos Nat.eqb]. rewrite rmatch_cat.
    apply (opt_lit_take false _ "`"%char
             ((n0 :: n') ++ "`"%char :: " "%char :: t0 :: t'));
      [reflexivity | reflexivity |].
    unfold step1. cbn [pos rest caps].
    rewrite rmatch_cat, rmatch_grp.
    apply (plus_cls_greedy false _ _ _ n0 n' ("`"%char :: " "%char :: t0 :: t'));
      [reflexivity | apply columnNameChar_cls; exact Hc0
      | apply columnName_forallb; exact Hc' | reflexivity |].
    cbn [pos rest caps length].
    rewrite rmatch_cat.
    apply (opt_lit_take false _ "`"%char (" "%char :: t0 :: t'));
      [reflexivity | reflexivity |].
    unfold step1. cbn [pos rest caps].
    rewrite rmatch_cat.
    apply (plus_cls_greedy false cls_s _ _ " "%char [] (t0 :: t'));
      [reflexivity | reflexivity | reflexivity | exact Hh |].
    cbn [pos rest caps length].
    rewrite rmatch_cat, rmatch_grp.
    apply (plus_cls_greedy false cls_dot _ _ t0 t' []);
      [cbn [rest]; rewrite app_nil_r; reflexivity
      | unfold cls_dot; unfold sameLine in Hs0; rewrite Hs0; reflexivity
      | apply sameLine_forallb; exact Hs' | exact I |].
    cbn [pos rest caps length rmatch].
    replace (S (1 + S (length n')) + 1 + S (length t')
             - (S (1 + S (length n')) + 1))
      with (length (t0 :: t')) by (cbn [length]; lia).
    replace (1 + S (length n') - 1) with (length (n0 :: n'))
      by (cbn [length]; lia).
    rewrite firstn_all, firstn_app, Nat.sub_diag, firstn_all, firstn_O, app_nil_r.
    replace (S (1 + S (length n')) + 1 + S (length t'))
      with (S (length n') + 3 + S (length t')) by lia.
    reflexivity. }
  unfold exec. rewrite search_eq, M. reflexivity.
Qed.

Lemma ts_columnOf_written s sg :
  written s sg ->
  Ts.columnOf (trim s)
  = Some (match sg with
          | ColumnSeg _ col => Some col
          | SkippedSeg _ => None
          end).
Proof.
  intros (Hs & _ & Hok). unfold Ts.columnOf. rewrite trim_idem, Hs.
  destruct sg as [quoted col|text]; cbn [segmentOk] in Hok.
  - destruct Hok as (Hc & He & Hk). rewrite Hk.
    destruct quoted; cbn [segmentCore].
    + rewrite (ts_columnRe_quoted col Hc He). cbn [caps capture Nat.eqb].
      rewrite (trim_edges _ He). destruct col; reflexivity.
    + rewrite (ts_columnRe_text col Hc He). cbn [caps capture Nat.eqb].
      rewrite (trim_edges _ He). destruct col; reflexivity.
  - cbn [segmentCore]. rewrite Hok. reflexivity.
Qed.

Lemma ts_collect_written parts :
  Forall (fun p : str * segment => written (fst p) (snd p)) parts ->
  collectColumns Ts.columnOf (map trim (map fst parts))
  = Some (segmentColumns (map snd parts)).
Proof.
  induction 1 as [|[s sg] parts Hp Hparts IH]; [reflexivity|].
  cbn [map fst snd collectColumns].
  rewrite (ts_columnOf_written s sg Hp), IH.
  destruct sg; reflexivity.
Qed.

Lemma collect_dropEmptyLast f l :
  f [] = Some None ->
  collectColumns f (dropEmptyLast l) = collectColumns f l.
Proof.
  intros Hf. induction l as [|x l IH]; [reflexivity|].
  destruct l as [|y l'].
  - destruct x; simpl; [rewrite Hf; reflexivity | reflexivity].
  - rewrite dropEmptyLast_cons by discriminate.
    cbn [collectColumns] in *. rewrite IH. reflexivity.
Qed.

Lemma ts_split_written (ss : list str) :
  Forall (fun s => closed 0 s = true) ss ->
  collectColumns Ts.columnOf (Ts.splitColumns (joinAll ss))
  = collectColumns Ts.columnOf (map trim ss).
Proof.
  intros H. rewrite ts_splitColumns_spec. unfold specSegments.
  rewrite collect_dropEmptyLast by reflexivity.
  destruct ss as [|x xs]; [reflexivity|].
  cbn [joinAll]. rewrite cut_joined by exact H. reflexivity.
Qed.

(** X23.  The TypeScript parser reads a CREATE TABLE statement in the
    layout of a dump.  The table name stands between backticks, and the
    text between the parentheses is a list of parts joined by commas.
    Each part holds, with any white space around it (line breaks, the
    indentation), either a column (the name between backticks or bare, a
    space, the type) or a text the parser skips, a key definition for
    one; commas inside a part are inside parentheses, and these are
    balanced.  The parser returns the name without one leading
    SERVMASK_PREFIX_, the columns of the parts in order, and no data;
    what follows the closing parenthesis is ignored, as long as it holds
    no closing parenthesis. *)
Theorem X23_ts_dump_layout (name : str) (parts : list (str * segment))
    (tail : str) :
  name <> [] -> Forall tableNameChar name ->
  Forall (fun p => written (fst p) (snd p)) parts ->
  Forall (fun a => a <> ")"%char) tail ->
  Ts.parseCreateTable (dumpStatement name (map fst parts) tail)
  = Some (mkTable (stripServmask name) (segmentColumns (map snd parts)) []).
Proof.
  intros Hne Hn Hp Ht. unfold Ts.parseCreateTable, dumpStatement.
  rewrite (tableHead_quoted name _ _ Hne Hn Ht).
  rewrite ts_split_written.
  2:{ apply Forall_map. eapply Forall_impl; [exact Hp|].
      intros p (_ & Hc & _). exact Hc. }
  rewrite (ts_collect_written parts Hp). reflexivity.
Qed.

Lemma X23_ts_dump_layout_witness :
  Ts.parseCreateTable
    (js "CREATE TABLE `SERVMASK_PREFIX_users` (" ++ lf
     ++ js "  `id` int(11) NOT NULL," ++ lf
     ++ js "  price decimal(10,2) DEFAULT NULL," ++ lf
     ++ js "  PRIMARY KEY (`id`)" ++ lf
     ++ js ") ENGINE=InnoDB DEFAULT CHARSET=utf8;")
  = Some (mkTable (js "users")
            [mkColumn (js "id") (js "int(11) NOT NULL");
             mkColumn (js "price") (js "decimal(10,2) DEFAULT NULL")] []).
Proof.
  apply (X23_ts_dump_layout (js "SERVMASK_PREFIX_users")
           [(lf ++ js "  `id` int(11) NOT NULL",
             ColumnSeg true (mkColumn (js "id") (js "int(11) NOT NULL")));
            (lf ++ js "  price decimal(10,2) DEFAULT NULL",
             ColumnSeg false
               (mkColumn (js "price") (js "decimal(10,2) DEFAULT NULL")));
            (lf ++ js "  PRIMARY KEY (`id`)" ++ lf,
             SkippedSeg (js "PRIMARY KEY (`id`)"))]
           (js " ENGINE=InnoDB DEFAULT CHARSET=utf8;")).
  - discriminate.
  - repeat constructor; intros E; discriminate E.
  - repeat constructor; try discriminate; try reflexivity;
      try (intros E; discriminate E).
  - repeat constructor; intros E; discriminate E.
Defined.
